(** * GeoLocator: candidate extraction, gazetteer store and matcher

    A shallow embedding of the place-name pipeline of the extension:
    - the country table [COUNTRY_NAMES] of [utils/constants.js];
    - the text helpers imported from [utils/format.js] ([getCountryName],
      [normalizeText], [isStopWord], [getContext], [deduplicateBy]), whose
      text follows the map controller in [utils/mapManager.js];
    - the IndexedDB wrapper [GeoNamesDB] of [background/database.js];
    - the geocoder imported as [background/geocoder.js] (extraction,
      country detection, matching, [inferCountriesFromContext]), whose
      text follows the constants in [utils/constants.js];
    - [cleanText] of the content script, whose text follows the map page
      in [map/map.js];
    - [unzipCountryFile] and [parseGeoNamesData] of
      [background/background.js];
    - [validateApiKey] of [sidepanel/sidepanel.js].

    Modelling conventions.
    - JavaScript strings are [string]s over ASCII.  On that alphabet
      [String.prototype.normalize('NFD')] is the identity and no code unit
      lies in U+0300..U+036F; [toLowerCase] maps [A-Z] to [a-z]; [\s] and
      [trim] see TAB, LF, VT, FF, CR and SPACE.
    - [String.prototype.localeCompare] orders strings by the collation of
      the locale the runtime was started in; it is a parameter
      [localeCompare] of the functions that call it.
    - A property lookup on an object literal reaches [Object.prototype];
      a call that may throw returns a [Completion A], either [Returned v]
      or [Thrown e].
    - A promise is a [Promise A]: either [Resolved v] or [Rejected e].
      Requests issued on an open IndexedDB connection are taken to succeed
      (no quota or I/O failure is modelled).
    - An IndexedDB object store is the list of its records in ascending
      primary-key order; [getAll] on an index returns, in that order, the
      records whose index key equals the query.
    - A [Set] or [Map] is a list; membership is decided by the key's
      equality, and a [Map] keeps insertion order.
    - Numbers are integers ([Z] for ids and populations, [nat] for indices
      and counts); record coordinates ([lat], [lng]) are floating-point
      payload that no operation below inspects and are left out of [City].
    - An [ArrayBuffer] is the list of its bytes; a read outside it is the
      RangeError it raises.  [TextDecoder] and [DecompressionStream] are
      parameters of the archive reader. *)

From Stdlib Require Import List String Ascii Bool Arith NArith ZArith Lia.
From Stdlib Require Strings.Byte.
From Stdlib Require Import Sorting.Sorted Sorting.Permutation.
From Stdlib Require Import Structures.OrderedTypeEx.
Import ListNotations.
Open Scope string_scope.
Open Scope list_scope.
Open Scope nat_scope.

Set Implicit Arguments.

(* ================================================================== *)
(** * Characters and string primitives *)

Module Chars.

Definition code (c : ascii) : nat := nat_of_ascii c.

Definition inRange (lo hi : nat) (c : ascii) : bool :=
  (lo <=? code c) && (code c <=? hi).

(** [[A-Z]] *)
Definition isUpper (c : ascii) : bool := inRange 65 90 c.
(** [[a-z]] *)
Definition isLower (c : ascii) : bool := inRange 97 122 c.
(** [[a-zA-Z]] *)
Definition isAlpha (c : ascii) : bool := isUpper c || isLower c.
Definition isDigit (c : ascii) : bool := inRange 48 57 c.
(** The word characters of [\b] without the [u] and [i] flags:
    [[A-Za-z0-9_]]. *)
Definition isWordChar (c : ascii) : bool :=
  isAlpha c || isDigit c || (code c =? 95).
(** [\s], and the characters removed by [trim], within ASCII:
    TAB, LF, VT, FF, CR and SPACE. *)
Definition isWhiteSpace (c : ascii) : bool :=
  inRange 9 13 c || (code c =? 32).

Definition toLower (c : ascii) : ascii :=
  if isUpper c then ascii_of_nat (code c + 32) else c.

Definition toUpper (c : ascii) : ascii :=
  if isLower c then ascii_of_nat (code c - 32) else c.

End Chars.

Module Str.
Import Chars.

Fixpoint mapChars (f : ascii -> ascii) (s : string) : string :=
  match s with
  | EmptyString => EmptyString
  | String c s' => String (f c) (mapChars f s')
  end.

(** [s.toLowerCase()] *)
Definition toLowerCase (s : string) : string := mapChars toLower s.

(** [s.toUpperCase()], restricted to ASCII text: [a-z] goes to [A-Z]. *)
Definition toUpperCase (s : string) : string := mapChars toUpper s.

Fixpoint trimStart (s : string) : string :=
  match s with
  | EmptyString => EmptyString
  | String c s' => if isWhiteSpace c then trimStart s' else s
  end.

Fixpoint trimEnd (s : string) : string :=
  match s with
  | EmptyString => EmptyString
  | String c s' =>
      match trimEnd s' with
      | EmptyString => if isWhiteSpace c then EmptyString else String c EmptyString
      | t => String c t
      end
  end.

(** [s.trim()] *)
Definition trim (s : string) : string := trimEnd (trimStart s).

(** [s.replace(/\s+/g, ' ')]; [inRun] tells that the previous character
    belonged to the whitespace run already replaced. *)
Fixpoint collapseFrom (inRun : bool) (s : string) : string :=
  match s with
  | EmptyString => EmptyString
  | String c s' =>
      if isWhiteSpace c
      then (if inRun then collapseFrom true s'
            else String " " (collapseFrom true s'))
      else String c (collapseFrom false s')
  end.

Definition collapseWhitespace (s : string) : string := collapseFrom false s.

(** [s.normalize('NFD')], restricted to ASCII text, which is already
    decomposed.  Text with other characters is outside this model: what
    is stated of [normalizeNFD] is stated of ASCII text. *)
Definition normalizeNFD (s : string) : string := s.

(** [s.replace(/[\u0300-\u036f]/g, '')], restricted to ASCII text, which
    holds no combining mark. *)
Definition removeDiacritics (s : string) : string := s.

(** [s.substring(start, stop)] for [start <= stop]; both ends are clamped
    to the length of [s] by [String.substring]. *)
Definition substring (start stop : nat) (s : string) : string :=
  String.substring start (stop - start) s.

(** [s[i]]: [None] stands for [undefined]. *)
Definition charAt (s : string) (i : nat) : option ascii := String.get i s.

(** JavaScript truthiness of a string. *)
Definition truthy (s : string) : bool :=
  match s with EmptyString => false | _ => true end.

Definition mem (s : string) (l : list string) : bool :=
  existsb (String.eqb s) l.

End Str.

(* ================================================================== *)
(** * utils/constants.js *)

Module Constants.

(** The object literal [COUNTRY_NAMES], property by property, as written
    (the key ['NZ'] occurs twice). *)
Definition COUNTRY_NAMES_literal : list (string * string) :=
  [ ("US", "United States"); ("GB", "United Kingdom"); ("FR", "France");
    ("DE", "Germany"); ("IT", "Italy"); ("ES", "Spain"); ("CA", "Canada");
    ("AU", "Australia"); ("NZ", "New Zealand"); ("JP", "Japan");
    ("CN", "China"); ("IN", "India"); ("BR", "Brazil"); ("MX", "Mexico");
    ("AR", "Argentina"); ("RU", "Russia"); ("NL", "Netherlands");
    ("BE", "Belgium"); ("CH", "Switzerland"); ("AT", "Austria");
    ("SE", "Sweden"); ("NO", "Norway"); ("DK", "Denmark"); ("FI", "Finland");
    ("PL", "Poland"); ("CZ", "Czech Republic"); ("PT", "Portugal");
    ("GR", "Greece"); ("TR", "Turkey"); ("IL", "Israel"); ("EG", "Egypt");
    ("ZA", "South Africa"); ("KE", "Kenya"); ("NG", "Nigeria");
    ("KR", "South Korea"); ("TH", "Thailand"); ("SG", "Singapore");
    ("MY", "Malaysia"); ("ID", "Indonesia"); ("PH", "Philippines");
    ("VN", "Vietnam"); ("NP", "Nepal"); ("BD", "Bangladesh");
    ("PK", "Pakistan"); ("AF", "Afghanistan"); ("IQ", "Iraq"); ("IR", "Iran");
    ("SA", "Saudi Arabia"); ("AE", "United Arab Emirates"); ("IE", "Ireland");
    ("IS", "Iceland"); ("NZ", "New Zealand"); ("CL", "Chile"); ("PE", "Peru");
    ("CO", "Colombia"); ("VE", "Venezuela"); ("CU", "Cuba"); ("UY", "Uruguay");
    ("CR", "Costa Rica"); ("PA", "Panama"); ("HN", "Honduras");
    ("GT", "Guatemala"); ("EC", "Ecuador"); ("BO", "Bolivia");
    ("PY", "Paraguay"); ("AD", "Andorra"); ("MC", "Monaco");
    ("LI", "Liechtenstein"); ("LU", "Luxembourg"); ("MT", "Malta");
    ("SM", "San Marino"); ("VA", "Vatican City") ].

End Constants.

(* ================================================================== *)
(** * Insertion-ordered keyed collections (JS objects and [Map]s) *)

Module Dict.

Section WithValue.
Variable V : Type.

Definition t := list (string * V).

(** [m.get(k)] / [o[k]] on own properties; [None] is [undefined]. *)
Fixpoint get (k : string) (m : t) : option V :=
    match m with
    | [] => None
    | (k', v) :: m' => if String.eqb k k' then Some v else get k m'
    end.

(** [m.set(k, v)]: an existing key keeps its position, a new key goes
      last. *)
Fixpoint set (k : string) (v : V) (m : t) : t :=
    match m with
    | [] => [(k, v)]
    | (k', v') :: m' =>
        if String.eqb k k' then (k', v) :: m' else (k', v') :: set k v m'
    end.

(** The object denoted by a literal: properties are defined left to
      right. *)
Definition ofLiteral (l : list (string * V)) : t :=
    fold_left (fun m kv => set (fst kv) (snd kv) m) l [].

End WithValue.

End Dict.

(* ================================================================== *)
(** * utils/format.js *)

Module Format.
Import Chars Str.

Definition COUNTRY_NAMES : Dict.t string :=
  Eval vm_compute in Dict.ofLiteral Constants.COUNTRY_NAMES_literal.

(** The names that [COUNTRY_NAMES], like every object literal, inherits
    from [Object.prototype]. *)
Definition objectPrototypeNames : list string :=
  [ "constructor"; "__defineGetter__"; "__defineSetter__"; "hasOwnProperty";
    "__lookupGetter__"; "__lookupSetter__"; "isPrototypeOf";
    "propertyIsEnumerable"; "toString"; "valueOf"; "__proto__";
    "toLocaleString" ].

(** What [getCountryName] returns: a string, or the function or object
    that [Object.prototype] holds under the name [property]. *)
Inductive Value : Type :=
| StringValue (s : string)
| InheritedMember (property : string).

(** [COUNTRY_NAMES[countryCode] || countryCode]: an own property is a
    country name; a name that is not an own property is looked up in
    [Object.prototype], whose members are functions or objects, hence
    truthy; any other name is [undefined] and the code itself is
    returned. *)
Definition getCountryName (countryCode : string) : Value :=
  match Dict.get countryCode COUNTRY_NAMES with
  | Some name => if truthy name then StringValue name else StringValue countryCode
  | None =>
      if mem countryCode objectPrototypeNames
      then InheritedMember countryCode
      else StringValue countryCode
  end.

Definition normalizeText (text : string) : string :=
  trim (collapseWhitespace (removeDiacritics (normalizeNFD (toLowerCase text)))).

Definition STOP_WORDS : list string :=
  [ "the"; "and"; "or"; "but"; "in"; "on"; "at"; "to"; "for"; "of"; "with";
    "by"; "from"; "up"; "about"; "into"; "through"; "during"; "before"; "after";
    "above"; "below"; "between"; "under"; "again"; "further"; "then"; "once";
    "january"; "february"; "march"; "april"; "may"; "june"; "july"; "august";
    "september"; "october"; "november"; "december";
    "monday"; "tuesday"; "wednesday"; "thursday"; "friday"; "saturday"; "sunday";
    "mr"; "mrs"; "ms"; "dr"; "prof"; "sir"; "lord"; "lady";
    "street"; "avenue"; "road"; "lane"; "drive"; "boulevard" ].

Definition isStopWord (word : string) : bool :=
  mem (toLowerCase word) STOP_WORDS.

(** [getContext(text, index, windowSize = 50)] *)
Definition getContext (text : string) (index : nat) : string :=
  let windowSize := 50 in
  let start := Nat.max 0 (index - windowSize) in
  let stop := Nat.min (String.length text) (index + windowSize) in
  substring start stop text.

(** [deduplicateBy(array, key)] for a numeric key. *)
Fixpoint deduplicateFrom (A : Type) (key : A -> Z) (seen : list Z)
    (array : list A) : list A :=
  match array with
  | [] => []
  | item :: rest =>
      if existsb (Z.eqb (key item)) seen
      then deduplicateFrom key seen rest
      else item :: deduplicateFrom key (key item :: seen) rest
  end.

Definition deduplicateBy (A : Type) (key : A -> Z) (array : list A) : list A :=
  deduplicateFrom key [] array.

End Format.


(* ================================================================== *)
(** * Promises *)

Module Async.

Inductive Error : Type :=
| NotInitialized      (** [new Error('Database not initialized')] *)
| OpenFailed          (** [request.error] of [indexedDB.open] *)
| TransactionFailed   (** [transaction.error] of an aborted transaction *)
| TypeError.          (** a call of a method that the value does not have *)

Inductive Promise (A : Type) : Type :=
| Resolved (value : A)
| Rejected (reason : Error).

Arguments Resolved {A} value.
Arguments Rejected {A} reason.

(** [await p; k] inside an [async] function: a rejection propagates. *)
Definition bind (A B : Type) (p : Promise A) (k : A -> Promise B) : Promise B :=
  match p with
  | Resolved v => k v
  | Rejected e => Rejected e
  end.

(** The outcome of a synchronous call: a value, or an exception. *)
Inductive Completion (A : Type) : Type :=
| Returned (value : A)
| Thrown (reason : Error).

Arguments Returned {A} value.
Arguments Thrown {A} reason.

(** [return c] at the end of an [async] function: an exception thrown on
    the way rejects the promise. *)
Definition settle (A : Type) (c : Completion A) : Promise A :=
  match c with
  | Returned v => Resolved v
  | Thrown e => Rejected e
  end.

(** [array.filter(predicate)] for a predicate that may throw: the items are
    visited in order and the first exception ends the call. *)
Fixpoint filterOrThrow (A : Type) (predicate : A -> Completion bool)
    (array : list A) : Completion (list A) :=
  match array with
  | [] => Returned []
  | item :: rest =>
      match predicate item with
      | Thrown e => Thrown e
      | Returned keep =>
          match filterOrThrow predicate rest with
          | Thrown e => Thrown e
          | Returned kept => Returned (if keep then item :: kept else kept)
          end
      end
  end.

End Async.

Notation "'await' x <- p ;; k" := (Async.bind p (fun x => k))
  (at level 61, x name, p at next level, right associativity).

(* ================================================================== *)
(** * IndexedDB object stores *)

Module ObjectStore.

Section WithKey.
Variables (K V : Type) (keyOf : V -> K) (cmp : K -> K -> comparison).

(** [store.put(v)]: insert at the key's rank, replacing a record that has
    the same key. *)
Fixpoint put (v : V) (s : list V) : list V :=
  match s with
  | [] => [v]
  | w :: s' =>
      match cmp (keyOf v) (keyOf w) with
      | Lt => v :: s
      | Eq => v :: s'
      | Gt => w :: put v s'
      end
  end.

(** [store.get(k)] *)
Fixpoint get (k : K) (s : list V) : option V :=
  match s with
  | [] => None
  | w :: s' => match cmp k (keyOf w) with Eq => Some w | _ => get k s' end
  end.

Definition putAll (vs : list V) (s : list V) : list V :=
  fold_left (fun acc v => put v acc) vs s.

(** A sequence of [store.add(v)] in one transaction: [None] when one of
    them meets an existing key (ConstraintError, the transaction aborts). *)
Fixpoint addAll (vs : list V) (s : list V) : option (list V) :=
  match vs with
  | [] => Some s
  | v :: vs' =>
      match get (keyOf v) s with
      | Some _ => None
      | None => addAll vs' (put v s)
      end
  end.

End WithKey.

(** [index.getAll(k)] for an index over a string-valued property. *)
Definition indexGetAll (V : Type) (prop : V -> string) (k : string)
    (s : list V) : list V :=
  filter (fun v => String.eqb (prop v) k) s.

(** [index.count(k)] *)
Definition indexCount (V : Type) (prop : V -> string) (k : string)
    (s : list V) : nat :=
  List.length (indexGetAll prop k s).

End ObjectStore.

(* ================================================================== *)
(** * background/database.js *)

Module Database.
Import Async.

(** A gazetteer record as produced by [scripts/prepare-data.js] and
    [parseGeoNamesData].  [asciiName] is the property [ascii] (the key of
    the index ['asciiName']). *)
Record City : Type := mkCity {
  geonameId : Z;
  name : string;
  asciiName : string;
  alternates : list string;
  country : string;
  admin1 : string;
  pop : Z;
  fclass : string;
  fcode : string
}.

(** An entry of the store ['downloadCache'] (key path ['countryCode']). *)
Record CacheEntry : Type := mkCacheEntry {
  countryCode : string;
  downloadDate : string;
  cityCount : nat
}.

(** An entry of the store ['metadata'] (key path ['key']). *)
Record MetaEntry : Type := mkMetaEntry {
  key : string;
  timestamp : Z;
  count : nat
}.

(** The wrapper object together with the contents of the database it
    opens: the three stores persist whether or not the wrapper is ready. *)
Record GeoNamesDB : Type := mkDB {
  isReady : bool;
  cities : list City;
  countryData : list City;
  downloadCache : list CacheEntry;
  metadata : list MetaEntry
}.

(** [new GeoNamesDB()] in a browser profile that holds no data yet. *)
Definition fresh : GeoNamesDB := mkDB false [] [] [] [].

Definition setReady (b : bool) (db : GeoNamesDB) : GeoNamesDB :=
  mkDB b (cities db) (countryData db) (downloadCache db) (metadata db).

(** [init()]; [opened] tells whether [indexedDB.open] succeeds. *)
Definition init (opened : bool) (db : GeoNamesDB) : GeoNamesDB * Promise unit :=
  if opened then (setReady true db, Resolved tt)
  else (db, Rejected OpenFailed).

(** [loadCities(cities)]: one read-write transaction that clears the store,
    adds every city (the batches of 100 are visited in order) and writes
    the ['citiesLoaded'] marker; [now] is [Date.now()]. *)
Definition loadCities (now : Z) (cs : list City) (db : GeoNamesDB)
    : GeoNamesDB * Promise unit :=
  if negb (isReady db) then (db, Rejected NotInitialized)
  else
    match ObjectStore.addAll geonameId Z.compare cs [] with
    | Some store =>
        (mkDB (isReady db) store (countryData db) (downloadCache db)
           (ObjectStore.put key String.compare
              (mkMetaEntry "citiesLoaded" now (List.length cs)) (metadata db)),
         Resolved tt)
    | None => (db, Rejected TransactionFailed)
    end.

Definition isCitiesLoaded (db : GeoNamesDB) : Promise bool :=
  if negb (isReady db) then Resolved false
  else
    match ObjectStore.get key String.compare "citiesLoaded" (metadata db) with
    | Some _ => Resolved true
    | None => Resolved false
    end.

Definition getCitiesCount (db : GeoNamesDB) : Promise nat :=
  if negb (isReady db) then Resolved 0
  else Resolved (List.length (cities db)).

(** [searchByName(name)]: the bundled partition. *)
Definition searchByName (db : GeoNamesDB) (nm : string) : Promise (list City) :=
  if negb (isReady db) then Rejected NotInitialized
  else Resolved (ObjectStore.indexGetAll asciiName (Str.toLowerCase nm) (cities db)).

Definition searchByCountry (db : GeoNamesDB) (code : string) : Promise (list City) :=
  if negb (isReady db) then Rejected NotInitialized
  else Resolved (ObjectStore.indexGetAll country (Str.toUpperCase code) (cities db)).

Definition getCityById (db : GeoNamesDB) (id : Z) : Promise (option City) :=
  if negb (isReady db) then Rejected NotInitialized
  else Resolved (ObjectStore.get geonameId Z.compare id (cities db)).

(** [loadCountryData(countryCode, cities)]; [now] is
    [new Date().toISOString()]. *)
Definition loadCountryData (now : string) (code : string) (cs : list City)
    (db : GeoNamesDB) : GeoNamesDB * Promise unit :=
  if negb (isReady db) then (db, Rejected NotInitialized)
  else
    (mkDB (isReady db) (cities db)
       (ObjectStore.putAll geonameId Z.compare cs (countryData db))
       (ObjectStore.put countryCode String.compare
          (mkCacheEntry code now (List.length cs)) (downloadCache db))
       (metadata db),
     Resolved tt).

(** [searchCountryData(name)]: the downloaded partition. *)
Definition searchCountryData (db : GeoNamesDB) (nm : string) : Promise (list City) :=
  if negb (isReady db) then Rejected NotInitialized
  else Resolved (ObjectStore.indexGetAll asciiName (Str.toLowerCase nm) (countryData db)).

(** The de-duplication loop of [searchAllSources]; [seen] is the [Set] of
    ids met so far. *)
Fixpoint dedupeById (seen : list Z) (combined : list City) : list City :=
  match combined with
  | [] => []
  | city :: rest =>
      if negb (existsb (Z.eqb (geonameId city)) seen)
      then city :: dedupeById (geonameId city :: seen) rest
      else dedupeById seen rest
  end.

(** [searchAllSources(name)]: [Promise.all] of the two searches, then the
    de-duplication of [[...citiesResults, ...countryResults]]. *)
Definition searchAllSources (db : GeoNamesDB) (nm : string) : Promise (list City) :=
  await citiesResults <- searchByName db nm ;;
  await countryResults <- searchCountryData db nm ;;
  Resolved (dedupeById [] (citiesResults ++ countryResults)).

(** [isCountryDownloaded(countryCode)] *)
Definition isCountryDownloaded (db : GeoNamesDB) (code : string) : Promise bool :=
  if negb (isReady db) then Resolved false
  else
    match ObjectStore.get countryCode String.compare code (downloadCache db) with
    | None => Resolved false
    | Some _ =>
        let cnt := ObjectStore.indexCount country code (countryData db) in
        if cnt =? 0 then Resolved false else Resolved true
    end.

Definition getDownloadedCountries (db : GeoNamesDB) : Promise (list CacheEntry) :=
  if negb (isReady db) then Resolved []
  else Resolved (downloadCache db).

Definition getCountryDownloadInfo (db : GeoNamesDB) (code : string)
    : Promise (option CacheEntry) :=
  if negb (isReady db) then Resolved None
  else Resolved (ObjectStore.get countryCode String.compare code (downloadCache db)).

Definition getCountryDataCount (db : GeoNamesDB) : Promise nat :=
  if negb (isReady db) then Resolved 0
  else Resolved (List.length (countryData db)).

(** [close()] *)
Definition close (db : GeoNamesDB) : GeoNamesDB := setReady false db.

End Database.


(* ================================================================== *)
(** * Regular expressions

    The backtracking matcher of ECMAScript (continuation-passing, greedy
    quantifiers, captures), for the constructs the two patterns of the
    geocoder are written with.  No flag other than [g] is in use. *)

Module RegExp.
Import Chars.

Inductive regex : Type :=
| CharClass (p : ascii -> bool)                    (** [[...]], [\s], a literal *)
| Seq (r1 r2 : regex)                              (** [r1 r2] *)
| Repeat (min : nat) (max : option nat) (r : regex) (** greedy [r{min,max}] *)
| Group (n : nat) (r : regex)                      (** capturing group number [n] *)
| WordBoundary.                                    (** [\b] *)

(** [r*], [r+] and [(?:r)] are the usual abbreviations. *)
Definition Star (r : regex) : regex := Repeat 0 None r.
Definition Plus (r : regex) : regex := Repeat 1 None r.
Definition Char (c : ascii) : regex := CharClass (Ascii.eqb c).

Record MatchState : Type := mkState {
  endIndex : nat;
  captures : list (nat * (nat * nat))
}.

Definition Continuation : Type := MatchState -> option MatchState.
Definition Matcher : Type := MatchState -> Continuation -> option MatchState.

(** [IsWordChar(e)] *)
Definition isWordCharAt (input : string) (e : nat) : bool :=
  match String.get e input with
  | Some c => isWordChar c
  | None => false
  end.

(** The assertion [\b] at position [e]: [IsWordChar(e - 1)] and
    [IsWordChar(e)] differ. *)
Definition atWordBoundary (input : string) (e : nat) : bool :=
  let a := match e with 0 => false | S e' => isWordCharAt input e' end in
  let b := isWordCharAt input e in
  xorb a b.

Definition predMax (max : option nat) : option nat :=
  match max with
  | Some n => Some (Nat.pred n)
  | None => None
  end.

(** [RepeatMatcher(m, min, max, greedy = true, x, c)].  Every round either
    lowers [min] or, by the empty check, moves [endIndex] forward, so
    [min + (length input - endIndex x)] rounds are all there can be;
    [fuel] counts them. *)
Fixpoint repeatMatcher (m : Matcher) (fuel : nat) (min : nat) (max : option nat)
    (x : MatchState) (c : Continuation) : option MatchState :=
  match max with
  | Some 0 => c x
  | _ =>
      match fuel with
      | 0 => c x
      | S fuel' =>
          let d : Continuation := fun y =>
            if (min =? 0) && (endIndex y =? endIndex x) then None
            else repeatMatcher m fuel' (Nat.pred min) (predMax max) y c in
          if negb (min =? 0) then m x d
          else
            match m x d with
            | Some z => Some z
            | None => c x
            end
      end
  end.

Fixpoint matcher (input : string) (r : regex) (x : MatchState)
    (c : Continuation) {struct r} : option MatchState :=
  match r with
  | CharClass p =>
      match String.get (endIndex x) input with
      | Some ch =>
          if p ch then c (mkState (S (endIndex x)) (captures x)) else None
      | None => None
      end
  | Seq r1 r2 => matcher input r1 x (fun y => matcher input r2 y c)
  | Repeat min max r' =>
      repeatMatcher (matcher input r')
        (min + (String.length input - endIndex x)) min max x c
  | Group n r' =>
      matcher input r' x
        (fun y => c (mkState (endIndex y)
                       ((n, (endIndex x, endIndex y)) :: captures y)))
  | WordBoundary =>
      if atWordBoundary input (endIndex x) then c x else None
  end.

(** The array returned by [exec]: [index], the new [lastIndex] of the
    pattern, element [0] and the capture spans. *)
Record MatchResult : Type := mkMatch {
  index : nat;
  lastIndex : nat;
  matched : string;
  spans : list (nat * (nat * nat))
}.

Fixpoint lookupSpan (n : nat) (l : list (nat * (nat * nat))) : option (nat * nat) :=
  match l with
  | [] => None
  | (k, sp) :: l' => if k =? n then Some sp else lookupSpan n l'
  end.

(** [match[n]] for a group that took part in the match (every group of the
    two patterns does: none sits under a quantifier or an alternative);
    the empty string otherwise. *)
Definition group (input : string) (m : MatchResult) (n : nat) : string :=
  match lookupSpan n (spans m) with
  | Some (s, e) => Str.substring s e input
  | None => EmptyString
  end.

(** [RegExpBuiltinExec] for a global pattern: try [lastIndex],
    [lastIndex + 1], ... up to the length of the input. *)
Fixpoint execFrom (r : regex) (input : string) (tries : nat) (i : nat)
    : option MatchResult :=
  match tries with
  | 0 => None
  | S tries' =>
      match matcher input r (mkState i []) (fun y => Some y) with
      | Some y =>
          Some (mkMatch i (endIndex y) (Str.substring i (endIndex y) input)
                  (captures y))
      | None => execFrom r input tries' (S i)
      end
  end.

Definition exec (r : regex) (input : string) (lastIdx : nat) : option MatchResult :=
  execFrom r input (S (String.length input) - lastIdx) lastIdx.

End RegExp.


(* ================================================================== *)
(** * Array.prototype.sort

    The sort of the language is stable; for a consistent comparator its
    result is the unique stable arrangement, computed here by insertion. *)

Module ArraySort.

Section WithComparator.
Variables (A : Type) (compareFn : A -> A -> Z).

(** [x] stood before every element of [l] in the source array: it goes
    before the first [y] with [compareFn x y <= 0]. *)
Fixpoint insert (x : A) (l : list A) : list A :=
  match l with
  | [] => [x]
  | y :: l' =>
      if (compareFn x y <=? 0)%Z then x :: l else y :: insert x l'
  end.

Fixpoint sort (l : list A) : list A :=
  match l with
  | [] => []
  | x :: l' => insert x (sort l')
  end.

End WithComparator.

(** The order of strings by code units, as a comparator: what the
    default [sort()] uses. *)
Definition compareCodeUnits (a b : string) : Z :=
  match String.compare a b with
  | Lt => (-1)%Z
  | Eq => 0%Z
  | Gt => 1%Z
  end.

End ArraySort.

(* ================================================================== *)
(** * background/geocoder.js *)

Module Geocoder.
Import Chars Str Format Async RegExp.
Module DB := Database.

Inductive PatternKind : Type := CityQualifier | CapitalizedWord.
Inductive Confidence : Type := High | Medium.

Record Candidate : Type := mkCandidate {
  name : string;
  qualifier : option string;      (** [None] is [null] *)
  pattern : PatternKind;
  confidence : Confidence;
  context : string;
  index : nat
}.

(** [[A-Z][a-zA-Z]+(?:\s+[A-Z][a-zA-Z]+)*] *)
Definition capitalizedWords : regex :=
  Seq (CharClass isUpper)
    (Seq (Plus (CharClass isAlpha))
       (Star (Seq (Plus (CharClass isWhiteSpace))
                (Seq (CharClass isUpper) (Plus (CharClass isAlpha)))))).

(** [/\b(W),\s*(W)\b/g], where both occurrences of [W] are the
    sub-pattern [capitalizedWords]. *)
Definition pattern1 : regex :=
  Seq WordBoundary
    (Seq (Group 1 capitalizedWords)
       (Seq (Char ",")
          (Seq (Star (CharClass isWhiteSpace))
             (Seq (Group 2 capitalizedWords) WordBoundary)))).

(** [/\b([A-Z][a-z]+(?:\s+[A-Z][a-z]+){0,2})\b/g] *)
Definition pattern2 : regex :=
  Seq WordBoundary
    (Seq (Group 1
            (Seq (CharClass isUpper)
               (Seq (Plus (CharClass isLower))
                  (Repeat 0 (Some 2)
                     (Seq (Plus (CharClass isWhiteSpace))
                        (Seq (CharClass isUpper) (Plus (CharClass isLower))))))))
       WordBoundary).

(** The [while ((match = pattern1.exec(text)) !== null)] loop of
    [extractCandidates]; [lastIdx] is [pattern1.lastIndex]. *)
Fixpoint extractCandidatesLoop (fuel : nat) (text : string) (lastIdx : nat)
    (candidates : list Candidate) : list Candidate :=
  match fuel with
  | 0 => candidates
  | S fuel' =>
      match exec pattern1 text lastIdx with
      | None => candidates
      | Some m =>
          let cityName := trim (group text m 1) in
          let qual := trim (group text m 2) in
          if isStopWord cityName
          then extractCandidatesLoop fuel' text (lastIndex m) candidates
          else
            extractCandidatesLoop fuel' text (lastIndex m)
              (candidates ++
               [mkCandidate cityName (Some qual) CityQualifier High
                  (getContext text (RegExp.index m)) (RegExp.index m)])
      end
  end.

(** Pass A.  A match is at least one character long, so the loop body runs
    at most [length text] times before [exec] returns [null]. *)
Definition extractCandidates (text : string) : list Candidate :=
  extractCandidatesLoop (S (String.length text)) text 0 [].

Definition falsePositives : list string :=
  [ "Monday"; "Tuesday"; "Wednesday"; "Thursday"; "Friday"; "Saturday"; "Sunday";
    "January"; "February"; "March"; "April"; "May"; "June";
    "July"; "August"; "September"; "October"; "November"; "December";
    "Reading"; "Bath"; "Nice"; "Mobile"; "China"; "Jordan";
    "Hope"; "Liberty"; "America"; "Europe"; "Asia"; "Africa";
    "North"; "South"; "East"; "West";
    "King"; "Queen"; "Prince"; "Princess"; "Lord"; "Lady";
    "Saint"; "Roman"; "Greek"; "English"; "French"; "German";
    "First"; "Second"; "Third"; "Last"; "Great"; "Little";
    "New"; "Old"; "Early"; "Late"; "Modern"; "Ancient";
    "Time"; "Date"; "Pop"; "Anthem"; "Alba" ].

Definition isCommonFalsePositive (word : string) : bool :=
  mem word falsePositives.

(** [nextChar && nextChar.match(/[a-z]/)] for
    [nextChar = text[match.index + match[0].length]]. *)
Definition followedByLowercase (text : string) (m : MatchResult) : bool :=
  match charAt text (RegExp.index m + String.length (matched m)) with
  | Some nextChar => isLower nextChar
  | None => false
  end.

(** The loop of [extractCapitalizedWords]; [seen] is the [Set] of
    lower-cased words already emitted. *)
Fixpoint extractCapitalizedWordsLoop (fuel : nat) (text : string) (lastIdx : nat)
    (seen : list string) (candidates : list Candidate) : list Candidate :=
  match fuel with
  | 0 => candidates
  | S fuel' =>
      match exec pattern2 text lastIdx with
      | None => candidates
      | Some m =>
          let word := trim (group text m 1) in
          if mem (toLowerCase word) seen
          then extractCapitalizedWordsLoop fuel' text (lastIndex m) seen candidates
          else if isStopWord word || isCommonFalsePositive word
          then extractCapitalizedWordsLoop fuel' text (lastIndex m) seen candidates
          else if followedByLowercase text m
          then extractCapitalizedWordsLoop fuel' text (lastIndex m) seen candidates
          else
            extractCapitalizedWordsLoop fuel' text (lastIndex m)
              (toLowerCase word :: seen)
              (candidates ++
               [mkCandidate word None CapitalizedWord Medium
                  (getContext text (RegExp.index m)) (RegExp.index m)])
      end
  end.

(** Pass B. *)
Definition extractCapitalizedWords (text : string) : list Candidate :=
  extractCapitalizedWordsLoop (S (String.length text)) text 0 [] [].

(** Pass B with the "lowercase after" test taken out of the loop body. *)
Fixpoint extractCapitalizedWordsLoop_noNextChar (fuel : nat) (text : string)
    (lastIdx : nat) (seen : list string) (candidates : list Candidate)
    : list Candidate :=
  match fuel with
  | 0 => candidates
  | S fuel' =>
      match exec pattern2 text lastIdx with
      | None => candidates
      | Some m =>
          let word := trim (group text m 1) in
          if mem (toLowerCase word) seen
          then extractCapitalizedWordsLoop_noNextChar fuel' text (lastIndex m)
                 seen candidates
          else if isStopWord word || isCommonFalsePositive word
          then extractCapitalizedWordsLoop_noNextChar fuel' text (lastIndex m)
                 seen candidates
          else
            extractCapitalizedWordsLoop_noNextChar fuel' text (lastIndex m)
              (toLowerCase word :: seen)
              (candidates ++
               [mkCandidate word None CapitalizedWord Medium
                  (getContext text (RegExp.index m)) (RegExp.index m)])
      end
  end.

Definition extractCapitalizedWords_noNextChar (text : string) : list Candidate :=
  extractCapitalizedWordsLoop_noNextChar (S (String.length text)) text 0 [] [].

(** An element of the array returned by [detectCountriesFromCandidates]. *)
Record CountryCount : Type := mkCountryCount {
  code : string;
  count : nat
}.

(** One round of [for (const match of matches)]:
    [if (match.country) countryCounts.set(match.country,
       (countryCounts.get(match.country) || 0) + 1)]. *)
Definition tally (countryCounts : Dict.t nat) (m : DB.City) : Dict.t nat :=
  if truthy (DB.country m)
  then
    Dict.set (DB.country m)
      (match Dict.get (DB.country m) countryCounts with
       | Some n => n
       | None => 0
       end + 1)
      countryCounts
  else countryCounts.

(** One round of [for (const candidate of candidates)]; a rejected search
    is caught and leaves the map as it was. *)
Definition tallyCandidate (db : DB.GeoNamesDB) (countryCounts : Dict.t nat)
    (candidate : Candidate) : Dict.t nat :=
  match DB.searchByName db (name candidate) with
  | Resolved matches => fold_left tally matches countryCounts
  | Rejected _ => countryCounts
  end.

(** The comparator handed to [sort]:
    [if (b[1] !== a[1]) return b[1] - a[1]; return a[0].localeCompare(b[0])].
    [String.prototype.localeCompare] compares by the collation of the
    default locale of the runtime, which is not fixed by the program: it is
    the parameter [localeCompare], negative, zero or positive as [a] sorts
    before, with or after [b]. *)
Definition byFrequency (localeCompare : string -> string -> Z)
    (a b : string * nat) : Z :=
  if negb (snd b =? snd a) then (Z.of_nat (snd b) - Z.of_nat (snd a))%Z
  else localeCompare (fst a) (fst b).

Definition detectCountriesFromCandidates (localeCompare : string -> string -> Z)
    (candidates : list Candidate) (db : DB.GeoNamesDB) : list CountryCount :=
  let countryCounts := fold_left (tallyCandidate db) candidates [] in
  map (fun e => mkCountryCount (fst e) (snd e))
    (firstn 10 (ArraySort.sort (byFrequency localeCompare) countryCounts)).

(** The loop over [Object.entries(COUNTRY_NAMES)] in [filterByQualifier]. *)
Definition matchesNameVariant (normalizedQualifier : string) (ctry : string) : bool :=
  existsb
    (fun e => String.eqb (toLowerCase (snd e)) normalizedQualifier
              && String.eqb (fst e) ctry)
    COUNTRY_NAMES.

(** The predicate passed to [matches.filter] in [filterByQualifier].
    [countryName.toLowerCase()] is a TypeError when [getCountryName] has
    returned a member of [Object.prototype]. *)
Definition qualifierAccepts (normalizedQualifier : string) (m : DB.City)
    : Completion bool :=
  if String.eqb (toLowerCase (DB.country m)) normalizedQualifier
  then Returned true
  else
    match getCountryName (DB.country m) with
    | InheritedMember _ => Thrown TypeError
    | StringValue countryName =>
        if String.eqb (toLowerCase countryName) normalizedQualifier
        then Returned true
        else if matchesNameVariant normalizedQualifier (DB.country m)
        then Returned true
        else if truthy (DB.admin1 m)
                && String.eqb (toLowerCase (DB.admin1 m)) normalizedQualifier
        then Returned true
        else Returned false
    end.

Definition filterByQualifier (matches : list DB.City) (qual : string)
    : Completion (list DB.City) :=
  let normalizedQualifier := toLowerCase qual in
  filterOrThrow (qualifierAccepts normalizedQualifier) matches.

(** [(b.pop || 0) - (a.pop || 0)]; populations are integers. *)
Definition orZero (n : Z) : Z := if (n =? 0)%Z then 0%Z else n.

Definition byPopulation (a b : DB.City) : Z :=
  (orZero (DB.pop b) - orZero (DB.pop a))%Z.

(** The condition [filterCountries && filterCountries.length > 0]. *)
Definition filterRequested (filterCountries : option (list string)) : bool :=
  match filterCountries with
  | Some l => 0 <? List.length l
  | None => false
  end.

(** The end of [findMatches], from [if (candidate.qualifier)] on: the
    qualifier filter for a candidate whose qualifier is truthy (neither
    [null] nor the empty string), else the most populous of [cityMatches]
    ([sort], then [slice(0, 1)]). *)
Definition selectMatches (candidate : Candidate) (cityMatches : list DB.City)
    : Promise (list DB.City) :=
  match qualifier candidate with
  | Some q =>
      if truthy q then settle (filterByQualifier cityMatches q)
      else Resolved (firstn 1 (ArraySort.sort byPopulation cityMatches))
  | None => Resolved (firstn 1 (ArraySort.sort byPopulation cityMatches))
  end.

(** [new Set(filterCountries)], then
    [cityMatches.filter(match => countrySet.has(match.country))]. *)
Definition restrictToCountries (filterCountries : option (list string))
    (cityMatches : list DB.City) : list DB.City :=
  let countrySet := match filterCountries with Some l => l | None => [] end in
  filter (fun m => mem (DB.country m) countrySet) cityMatches.

Definition findMatches (candidate : Candidate) (db : DB.GeoNamesDB)
    (useCountryDataOnly : bool) (filterCountries : option (list string))
    : Promise (list DB.City) :=
  await cityMatches <-
    (if useCountryDataOnly then DB.searchCountryData db (name candidate)
     else DB.searchAllSources db (name candidate)) ;;
  if List.length cityMatches =? 0 then Resolved []
  else if filterRequested filterCountries
  then
    let cityMatches' := restrictToCountries filterCountries cityMatches in
    if List.length cityMatches' =? 0 then Resolved []
    else selectMatches candidate cityMatches'
  else selectMatches candidate cityMatches.

(** [matchCandidates]: the first match of every candidate that has one; a
    rejection is logged and the candidate skipped. *)
Fixpoint matchCandidates (candidates : list Candidate) (db : DB.GeoNamesDB)
    (useCountryDataOnly : bool) (filterCountries : option (list string))
    : list DB.City :=
  match candidates with
  | [] => []
  | candidate :: rest =>
      match findMatches candidate db useCountryDataOnly filterCountries with
      | Resolved (first :: _) =>
          first :: matchCandidates rest db useCountryDataOnly filterCountries
      | Resolved [] =>
          matchCandidates rest db useCountryDataOnly filterCountries
      | Rejected _ =>
          matchCandidates rest db useCountryDataOnly filterCountries
      end
  end.

(** The default [Array.prototype.sort()] on strings: code-unit order. *)
Definition byCodeUnits (a b : string) : Z := ArraySort.compareCodeUnits a b.

Fixpoint collectCountries (seen : list string) (locations : list DB.City)
    : list string :=
  match locations with
  | [] => []
  | l :: rest =>
      if truthy (DB.country l) && negb (mem (DB.country l) seen)
      then DB.country l :: collectCountries (DB.country l :: seen) rest
      else collectCountries seen rest
  end.

Definition extractDetectedCountries (locations : list DB.City) : list string :=
  ArraySort.sort byCodeUnits (collectCountries [] locations).

Record Options : Type := mkOptions {
  detectionOnly : bool;
  useCountryDataOnly : bool;
  filterCountries : option (list string)
}.

(** [options = {}] *)
Definition defaultOptions : Options := mkOptions false false None.

(** What [geocodeText] resolves to: in detection mode [locations] is empty
    and [detectedCountries] carries hit counts; in full-scan mode
    [detectedCountries] lists the codes of the locations. *)
Inductive GeocodeResult : Type :=
| Detection (detectedCountries : list CountryCount)
| FullScan (locations : list DB.City) (detectedCountries : list string).

Definition geocodeText (localeCompare : string -> string -> Z)
    (text : string) (db : DB.GeoNamesDB) (options : Options)
    : GeocodeResult :=
  let patternCandidates := extractCandidates text in
  let wordCandidates := extractCapitalizedWords text in
  let allCandidates := patternCandidates ++ wordCandidates in
  if List.length allCandidates =? 0
  then (if detectionOnly options then Detection [] else FullScan [] [])
  else if detectionOnly options
  then Detection (detectCountriesFromCandidates localeCompare allCandidates db)
  else
    let matches :=
      matchCandidates allCandidates db (useCountryDataOnly options)
        (filterCountries options) in
    let deduplicated := deduplicateBy DB.geonameId matches in
    FullScan deduplicated (extractDetectedCountries deduplicated).

End Geocoder.

(* ================================================================== *)
(** * background/geocoder.js: countries named in the text *)

Module Inference.
Import Chars Str Format.

(** A pattern character under the [i] flag: it matches the characters
    that have its canonical (upper-case) form. *)
Definition sameLetter (c ch : ascii) : bool :=
  Ascii.eqb (toUpper ch) (toUpper c).

(** The characters of [name], then [k].  The names of the country table
    are made of letters and spaces, which stand for themselves in a
    pattern. *)
Fixpoint literalThen (name : string) (k : RegExp.regex) : RegExp.regex :=
  match name with
  | EmptyString => k
  | String c name' =>
      RegExp.Seq (RegExp.CharClass (sameLetter c)) (literalThen name' k)
  end.

(** [new RegExp(`\\b${name}\\b`, 'i')] *)
Definition namePattern (name : string) : RegExp.regex :=
  RegExp.Seq RegExp.WordBoundary (literalThen name RegExp.WordBoundary).

(** [regex.test(text)] for a pattern without the [g] flag: the search
    starts at index 0. *)
Definition test (r : RegExp.regex) (text : string) : bool :=
  match RegExp.exec r text 0 with
  | Some _ => true
  | None => false
  end.

(** The loop over [Object.entries(COUNTRY_NAMES)]; [detectedCodes] is the
    [Set]. *)
Fixpoint collectNamed (entries : list (string * string)) (text : string)
    (detectedCodes : list string) : list string :=
  match entries with
  | [] => detectedCodes
  | (code, name) :: rest =>
      if test (namePattern name) text
      then collectNamed rest text
             (if mem code detectedCodes then detectedCodes
              else detectedCodes ++ [code])
      else collectNamed rest text detectedCodes
  end.

(** [inferCountriesFromContext(text)] *)
Definition inferCountriesFromContext (text : string) : list string :=
  ArraySort.sort Geocoder.byCodeUnits (collectNamed COUNTRY_NAMES text []).

End Inference.

(* ================================================================== *)
(** * More of the String built-ins *)

Module Text.
Import Chars Str.

Definition lineFeed : ascii := "010"%char.
Definition tab : ascii := "009"%char.
Definition comma : ascii := ","%char.

(** [s.split(sep)] for a separator of one character: the pieces between
    the occurrences of [sep]; always at least one piece. *)
Fixpoint split (sep : ascii) (s : string) : list string :=
  match s with
  | EmptyString => [EmptyString]
  | String c s' =>
      if Ascii.eqb c sep then EmptyString :: split sep s'
      else
        match split sep s' with
        | [] => [String c EmptyString]
        | piece :: pieces => String c piece :: pieces
        end
  end.

(** [parts.join(sep)] *)
Fixpoint join (sep : string) (parts : list string) : string :=
  match parts with
  | [] => EmptyString
  | [part] => part
  | part :: rest => part ++ sep ++ join sep rest
  end.

(** [s.startsWith(p)] *)
Definition startsWith (p s : string) : bool := String.prefix p s.

(** A Number that holds an integer or [NaN].  [Int z] stands for the
    Number nearest to [z], which is [z] itself up to 2^53; the sign of a
    zero is not kept. *)
Inductive Number : Type :=
| NaN
| Int (z : Z).

(** The value of a digit of [parseInt]: [0-9], [a-z], [A-Z]. *)
Definition digitValue (c : ascii) : option nat :=
  if isDigit c then Some (code c - 48)
  else if isLower c then Some (code c - 87)
  else if isUpper c then Some (code c - 55)
  else None.

(** The value of the longest prefix of [s] made of digits of the radix;
    [acc] is the value read so far, [None] before the first digit. *)
Fixpoint parseDigits (radix : nat) (s : string) (acc : option Z) : option Z :=
  match s with
  | EmptyString => acc
  | String c s' =>
      match digitValue c with
      | Some d =>
          if d <? radix
          then parseDigits radix s'
                 (Some (Z.of_nat radix
                        * match acc with Some n => n | None => 0 end
                        + Z.of_nat d)%Z)
          else acc
      | None => acc
      end
  end.

(** [parseInt(s)] without a radix: leading whitespace is skipped, then an
    optional sign, then an optional [0x] or [0X] that selects radix 16,
    then the digits; [NaN] when there is no digit. *)
Definition parseInt (s : string) : Number :=
  let s1 := trimStart s in
  let negative :=
    match s1 with
    | String c _ => Ascii.eqb c "-"
    | EmptyString => false
    end in
  let s2 :=
    match s1 with
    | String c rest => if Ascii.eqb c "-" || Ascii.eqb c "+" then rest else s1
    | EmptyString => s1
    end in
  let hex :=
    match s2 with
    | String c0 (String c1 _) =>
        Ascii.eqb c0 "0" && (Ascii.eqb c1 "x" || Ascii.eqb c1 "X")
    | _ => false
    end in
  let s3 :=
    match s2 with
    | String _ (String _ rest) => if hex then rest else s2
    | _ => s2
    end in
  match parseDigits (if hex then 16 else 10) s3 None with
  | None => NaN
  | Some n => Int (if negative then (- n)%Z else n)
  end.

(** [x || 0] for a Number [x] *)
Definition numberOrZero (x : Number) : Z :=
  match x with
  | NaN => 0%Z
  | Int z => z
  end.

(** [text.replace(pattern, replacement)] for a global pattern and a
    replacement without [$]: the matches are collected by repeated [exec]
    (after an empty match [lastIndex] moves on by one), and the text
    between them is copied.  [nextPos] is [nextSourcePosition], [acc] the
    accumulated result. *)
Fixpoint replaceLoop (fuel : nat) (r : RegExp.regex) (replacement text : string)
    (lastIdx nextPos : nat) (acc : string) : string :=
  match fuel with
  | 0 => acc ++ substring nextPos (String.length text) text
  | S fuel' =>
      match RegExp.exec r text lastIdx with
      | None => acc ++ substring nextPos (String.length text) text
      | Some m =>
          let lastIdx' :=
            if String.eqb (RegExp.matched m) EmptyString
            then S (RegExp.lastIndex m) else RegExp.lastIndex m in
          if nextPos <=? RegExp.index m
          then replaceLoop fuel' r replacement text lastIdx'
                 (RegExp.index m + String.length (RegExp.matched m))
                 (acc ++ substring nextPos (RegExp.index m) text ++ replacement)
          else replaceLoop fuel' r replacement text lastIdx' nextPos acc
      end
  end.

(** Every round moves [lastIndex] forward, and [exec] fails once it has
    passed the end of the text. *)
Definition replaceAll (r : RegExp.regex) (replacement text : string) : string :=
  replaceLoop (S (S (String.length text))) r replacement text 0 0 EmptyString.

End Text.

(* ================================================================== *)
(** * content/content.js *)

Module ContentScript.
Import Chars Str Text.

(** [/\n\s*\n/g] *)
Definition blankLines : RegExp.regex :=
  RegExp.Seq (RegExp.Char lineFeed)
    (RegExp.Seq (RegExp.Star (RegExp.CharClass isWhiteSpace))
       (RegExp.Char lineFeed)).

(** [cleanText(text)] *)
Definition cleanText (text : string) : string :=
  let text1 := collapseWhitespace text in
  let text2 := replaceAll blankLines (String lineFeed EmptyString) text1 in
  trim text2.

End ContentScript.

(* ================================================================== *)
(** * background/background.js: the parser of the GeoNames dumps *)

Module Background.
Import Chars Str Text.

(** A parsed row.  [geonameId] may be [NaN]; [pop] went through [|| 0]. *)
Record Place : Type := mkPlace {
  geonameId : Number;
  name : string;
  asciiName : string;
  alternates : list string;
  country : string;
  admin1 : string;
  pop : Z;
  fclass : string;
  fcode : string
}.

(** [fields[i]] for [i] below [fields.length] *)
Definition field (fields : list string) (i : nat) : string :=
  nth i fields EmptyString.

(** The object literal pushed for a row of at least 15 fields. *)
Definition placeOfFields (fields : list string) : Place :=
  mkPlace
    (parseInt (field fields 0))
    (field fields 1)
    (toLowerCase (field fields 2))
    (if truthy (field fields 3)
     then firstn 5 (split comma (field fields 3)) else [])
    (field fields 8)
    (field fields 10)
    (numberOrZero (parseInt (field fields 14)))
    (field fields 6)
    (field fields 7).

(** The [for (const line of lines)] loop of [parseGeoNamesData]. *)
Fixpoint parseLines (lines : list string) (cities : list Place) : list Place :=
  match lines with
  | [] => cities
  | line :: rest =>
      if negb (truthy (trim line)) then parseLines rest cities
      else
        let fields := split tab line in
        if List.length fields <? 15 then parseLines rest cities
        else if negb (String.eqb (field fields 6) "P")
        then parseLines rest cities
        else parseLines rest (cities ++ [placeOfFields fields])
  end.

(** [parseGeoNamesData(text, countryCode)]; the country code is only
    logged. *)
Definition parseGeoNamesData (text countryCode : string) : list Place :=
  parseLines (split lineFeed text) [].

End Background.

(* ================================================================== *)
(** * background/background.js: the reader of ZIP archives *)

Module Zip.

(** The bytes of an [ArrayBuffer]. *)
Definition ArrayBuffer : Type := list Byte.byte.

(** The little-endian value of a run of bytes. *)
Fixpoint littleEndian (bytes : list Byte.byte) : N :=
  match bytes with
  | [] => 0%N
  | b :: rest => (Byte.to_N b + 256 * littleEndian rest)%N
  end.

(** [new Uint8Array(buffer, byteOffset, length)]: [None] is the RangeError
    of a view that does not fit in the buffer. *)
Definition uint8Array (buffer : ArrayBuffer) (byteOffset length : nat)
    : option (list Byte.byte) :=
  if byteOffset + length <=? List.length buffer
  then Some (firstn length (skipn byteOffset buffer))
  else None.

(** [view.getUint16(byteOffset, true)] and [view.getUint32(byteOffset,
    true)]: [None] is the RangeError of a read past the end. *)
Definition getUint (width : nat) (view : ArrayBuffer) (byteOffset : nat)
    : option N :=
  option_map littleEndian (uint8Array view byteOffset width).

Definition getUint16 : ArrayBuffer -> nat -> option N := getUint 2.
Definition getUint32 : ArrayBuffer -> nat -> option N := getUint 4.

(** What is thrown inside [unzipCountryFile]; the [catch] wraps each of
    them in ['Failed to extract <code>.zip: ...']. *)
Inductive Failure : Type :=
| OutOfRange               (** a RangeError of [DataView] or [Uint8Array] *)
| NoEndOfCentralDirectory  (** ['... End of central directory not found'] *)
| NoCentralSignature       (** ['... Central directory signature not found'] *)
| FileNotFound             (** ['File <code>.txt not found in ZIP archive'] *)
| NoLocalSignature         (** ['... Local file header signature not found'] *)
| UnsupportedMethod (method : N)  (** ['Unsupported compression method: ...'] *)
| StreamFailed.            (** the error of the decompression stream *)

(** A read that may throw a RangeError, followed by the rest. *)
Definition reading (A B : Type) (r : option A) (k : A -> Failure + B)
    : Failure + B :=
  match r with
  | Some a => k a
  | None => inl OutOfRange
  end.

Notation "'read' x <- r ;; k" := (reading r (fun x => k))
  (at level 61, x name, r at next level, right associativity).

(** [targetEntry] *)
Record Entry : Type := mkEntry {
  compressionMethod : N;
  compressedSize : N;
  uncompressedSize : N;
  localHeaderOffset : N
}.

(** The backward scan for the signature [0x06054b50], from offset [i] down
    to 0; [None] is [eocdOffset === -1]. *)
Fixpoint scanBack (view : ArrayBuffer) (i : nat) : Failure + option nat :=
  read signature <- getUint32 view i ;;
  if (signature =? 0x06054b50)%N then inr (Some i)
  else
    match i with
    | 0 => inr None
    | S i' => scanBack view i'
    end.

(** The loop starts at [byteLength - 22] and does not run at all for a
    buffer of fewer than 22 bytes. *)
Definition findEndOfCentralDirectory (view : ArrayBuffer)
    : Failure + option nat :=
  if List.length view <? 22 then inr None
  else scanBack view (List.length view - 22).

Section WithDecoders.

(** [new TextDecoder('utf-8').decode(bytes)] *)
Variable decode : list Byte.byte -> string.

(** The text read from [bytes] piped through
    [new DecompressionStream('deflate-raw')]; [None] when the stream
    fails. *)
Variable inflate : list Byte.byte -> option string.

(** The loop over the central directory: [remaining] entries are still to
    be visited, the next one at [currentOffset]. *)
Fixpoint findTarget (view : ArrayBuffer) (targetFilename : string)
    (remaining : nat) (currentOffset : nat) : Failure + option Entry :=
  match remaining with
  | 0 => inr None
  | S remaining' =>
      read signature <- getUint32 view currentOffset ;;
      if negb (signature =? 0x02014b50)%N then inl NoCentralSignature
      else
        read fileNameLength <- getUint16 view (currentOffset + 28) ;;
        read extraFieldLength <- getUint16 view (currentOffset + 30) ;;
        read fileCommentLength <- getUint16 view (currentOffset + 32) ;;
        read filenameBytes <-
          uint8Array view (currentOffset + 46) (N.to_nat fileNameLength) ;;
        if String.eqb (decode filenameBytes) targetFilename
        then
          read method <- getUint16 view (currentOffset + 10) ;;
          read compressed <- getUint32 view (currentOffset + 20) ;;
          read uncompressed <- getUint32 view (currentOffset + 24) ;;
          read localOffset <- getUint32 view (currentOffset + 42) ;;
          inr (Some (mkEntry method compressed uncompressed localOffset))
        else
          findTarget view targetFilename remaining'
            (currentOffset + 46 + N.to_nat fileNameLength
             + N.to_nat extraFieldLength + N.to_nat fileCommentLength)
  end.

(** [unzipCountryFile(arrayBuffer, countryCode)]: the text of
    [<countryCode>.txt], or what made the promise reject. *)
Definition unzipCountryFile (arrayBuffer : ArrayBuffer) (countryCode : string)
    : Failure + string :=
  match findEndOfCentralDirectory arrayBuffer with
  | inl failure => inl failure
  | inr None => inl NoEndOfCentralDirectory
  | inr (Some eocdOffset) =>
      read totalEntries <- getUint16 arrayBuffer (eocdOffset + 10) ;;
      read centralDirOffset <- getUint32 arrayBuffer (eocdOffset + 16) ;;
      match findTarget arrayBuffer (countryCode ++ ".txt")
              (N.to_nat totalEntries) (N.to_nat centralDirOffset) with
      | inl failure => inl failure
      | inr None => inl FileNotFound
      | inr (Some targetEntry) =>
          let localOffset := N.to_nat (localHeaderOffset targetEntry) in
          read signature <- getUint32 arrayBuffer localOffset ;;
          if negb (signature =? 0x04034b50)%N then inl NoLocalSignature
          else
            read localFileNameLength <-
              getUint16 arrayBuffer (localOffset + 26) ;;
            read localExtraFieldLength <-
              getUint16 arrayBuffer (localOffset + 28) ;;
            let dataOffset :=
              localOffset + 30 + N.to_nat localFileNameLength
              + N.to_nat localExtraFieldLength in
            read compressedData <-
              uint8Array arrayBuffer dataOffset
                (N.to_nat (compressedSize targetEntry)) ;;
            if (compressionMethod targetEntry =? 0)%N
            then inr (decode compressedData)
            else if (compressionMethod targetEntry =? 8)%N
            then
              match inflate compressedData with
              | Some text => inr text
              | None => inl StreamFailed
              end
            else inl (UnsupportedMethod (compressionMethod targetEntry))
      end
  end.

End WithDecoders.

End Zip.

(* ================================================================== *)
(** * sidepanel/sidepanel.js: the check of the API key *)

Module SidePanel.
Import Str Text.

(** The three messages of [validateApiKey]. *)
Inductive KeyError : Type :=
| KeyRequired   (** ['API key is required'] *)
| KeyFormat     (** ['Invalid API key format. ...'] *)
| KeyTooShort.  (** ['API key is too short. Please check your key.'] *)

(** [{ valid: true }] or [{ valid: false, error }] *)
Inductive Validation : Type :=
| Valid
| Invalid (error : KeyError).

(** [validateApiKey(key)]; [None] is a missing key ([null] or
    [undefined]). *)
Definition validateApiKey (key : option string) : Validation :=
  match key with
  | None => Invalid KeyRequired
  | Some k =>
      if negb (truthy k) || String.eqb (trim k) EmptyString
      then Invalid KeyRequired
      else if negb (startsWith "AIza" k) then Invalid KeyFormat
      else if String.length k <? 30 then Invalid KeyTooShort
      else Valid
  end.

End SidePanel.

(* ================================================================== *)
(** * Specification predicates and sample data *)

Import Chars Str Format Async Geocoder.

Unset Implicit Arguments.

(** A DownloadRecord for [code] exists. *)
Definition hasDownloadRecord (db : DB.GeoNamesDB) (code : string) : Prop :=
  exists e, In e (DB.downloadCache db) /\ DB.countryCode e = code.

(** The country partition holds at least one record of country [code]. *)
Definition hasCountryRecords (db : DB.GeoNamesDB) (code : string) : Prop :=
  exists c, In c (DB.countryData db) /\ DB.country c = code.

(** Sample gazetteer records. *)
Definition sampleCity (id : Z) (nm ctry adm : string) (population : Z) : DB.City :=
  DB.mkCity id nm (toLowerCase nm) [] ctry adm population "P" "PPL".

Definition parisFR : DB.City := sampleCity 2988507 "Paris" "FR" "11" 2138551.
Definition parisTX : DB.City := sampleCity 4717560 "Paris" "US" "TX" 24782.
Definition berlinDE : DB.City := sampleCity 2950159 "Berlin" "DE" "16" 3426354.
Definition tokyoJP : DB.City := sampleCity 1850147 "Tokyo" "JP" "40" 8336599.
Definition newYorkUS : DB.City := sampleCity 5128581 "New York" "US" "NY" 8804190.

(** An initialised store over the given partitions. *)
Definition openStore (global downloaded : list DB.City)
    (cache : list DB.CacheEntry) : DB.GeoNamesDB :=
  DB.mkDB true global downloaded cache [].

(** A store whose download cache names FR although no FR record was ever
    stored: [init], then [loadCountryData('FR', [])]. *)
Definition staleStore : DB.GeoNamesDB :=
  fst (DB.loadCountryData "2024-01-01T00:00:00.000Z" "FR" []
         (fst (DB.init true DB.fresh))).

(** The ids of a partition are pairwise distinct and listed in ascending
    order: the representation invariant of an object store whose key path
    is [geonameId]. *)
Definition keysAscending (s : list DB.City) : Prop :=
  StronglySorted (fun a b => (DB.geonameId a < DB.geonameId b)%Z) s.

(** No two records of a partition share an id. *)
Definition uniqueIds (s : list DB.City) : Prop :=
  NoDup (List.map DB.geonameId s).

Definition storeInvariant (db : DB.GeoNamesDB) : Prop :=
  uniqueIds (DB.cities db) /\ uniqueIds (DB.countryData db).

(** The stores that the wrapper's operations build from an empty profile. *)
Inductive reachable : DB.GeoNamesDB -> Prop :=
| reach_fresh : reachable DB.fresh
| reach_init opened db :
    reachable db -> reachable (fst (DB.init opened db))
| reach_loadCities now cs db :
    reachable db -> reachable (fst (DB.loadCities now cs db))
| reach_loadCountryData now code cs db :
    reachable db -> reachable (fst (DB.loadCountryData now code cs db))
| reach_close db :
    reachable db -> reachable (DB.close db).

(** [r] is not among the records of [g], by id. *)
Definition notAmong (g : list DB.City) (r : DB.City) : bool :=
  negb (existsb (Z.eqb (DB.geonameId r)) (List.map DB.geonameId g)).

(** A global partition holding New York only. *)
Definition newYorkStore : DB.GeoNamesDB := openStore [newYorkUS] [] [].

(** [seen.has(r.geonameId)] *)
Definition seenId (seen : list Z) (r : DB.City) : bool :=
  existsb (Z.eqb (DB.geonameId r)) seen.

(** A store whose two partitions overlap on Paris (FR). *)
Definition overlapStore : DB.GeoNamesDB :=
  openStore [tokyoJP; parisFR] [parisFR; parisTX] [].

(** ** The matcher *)

Definition caseInsensitiveEq (a b : string) : Prop :=
  toLowerCase a = toLowerCase b.



(** The predicate of [filterByQualifier] has returned [true]. *)
Definition accepted (c : Completion bool) : bool :=
  match c with
  | Returned keep => keep
  | Thrown _ => false
  end.

(** A record whose country code names a member of [Object.prototype], and
    a store that holds it beside Paris (FR). *)
Definition parisOdd : DB.City :=
  sampleCity 4717561 "Paris" "constructor" "" 10.
Definition oddStore : DB.GeoNamesDB := openStore [] [parisFR; parisOdd] [].

(** The search [findMatches] starts from. *)
Definition searchScope (db : DB.GeoNamesDB) (useCountryDataOnly : bool)
    (nm : string) : Promise (list DB.City) :=
  if useCountryDataOnly then DB.searchCountryData db nm
  else DB.searchAllSources db nm.

(** The records left once the country restriction, if one is in force, has
    been applied. *)
Definition survivors (filterCountries : option (list string))
    (records : list DB.City) : list DB.City :=
  if filterRequested filterCountries
  then restrictToCountries filterCountries records
  else records.

(** [best] is the first record of maximal population in [records]. *)
Definition firstMostPopulous (records : list DB.City) (best : DB.City) : Prop :=
  exists before after,
    records = before ++ best :: after
    /\ (forall r, In r before -> (DB.pop r < DB.pop best)%Z)
    /\ (forall r, In r after -> (DB.pop r <= DB.pop best)%Z).

Definition candidateOf (nm : string) (q : option string) : Candidate :=
  match q with
  | Some _ => mkCandidate nm q CityQualifier High nm 0
  | None => mkCandidate nm q CapitalizedWord Medium nm 0
  end.

(** The country partition of the qualifier example. *)
Definition parisStore : DB.GeoNamesDB := openStore [] [parisFR; parisTX] [].

Definition georgetownGY : DB.City :=
  sampleCity 3378644 "Georgetown" "GY" "12" 200000.
Definition georgetownAlt : DB.City :=
  sampleCity 3378645 "Georgetown" "guyana-alt" "" 50.
Definition georgetownStore : DB.GeoNamesDB :=
  openStore [georgetownGY; georgetownAlt] [] [].

(** The store of the end-to-end example: Paris (FR) and Tokyo (JP) in the
    downloaded partition. *)
Definition parisTokyoStore : DB.GeoNamesDB :=
  openStore [] [tokyoJP; parisFR] [].

Definition visitText : string := "I visited Paris, France and later Tokyo.".

(** ** The country detector *)





(** [a] may stand before [b] in an array sorted with [cmp]. *)
Definition precedes {A : Type} (cmp : A -> A -> Z) (a b : A) : Prop :=
  (cmp a b <= 0)%Z.






(** A sample collation: the order of the code units. *)
Definition codeUnitCollation : string -> string -> Z :=
  ArraySort.compareCodeUnits.








(** ** Regular expressions, declaratively

    [Matches input r x y]: some run of the matcher for [r] started in state
    [x] hands state [y] to its continuation (the order in which the runs
    are tried is left out). *)
Inductive Matches (input : string)
    : RegExp.regex -> RegExp.MatchState -> RegExp.MatchState -> Prop :=
| M_class p x ch :
    String.get (RegExp.endIndex x) input = Some ch ->
    p ch = true ->
    Matches input (RegExp.CharClass p) x
      (RegExp.mkState (S (RegExp.endIndex x)) (RegExp.captures x))
| M_seq r1 r2 x y z :
    Matches input r1 x y ->
    Matches input r2 y z ->
    Matches input (RegExp.Seq r1 r2) x z
| M_repeat_done min max r x :
    min = 0 \/ max = Some 0 ->
    Matches input (RegExp.Repeat min max r) x x
| M_repeat_step min max r x y z :
    Matches input r x y ->
    Matches input (RegExp.Repeat (Nat.pred min) (RegExp.predMax max) r) y z ->
    Matches input (RegExp.Repeat min max r) x z
| M_group n r x y :
    Matches input r x y ->
    Matches input (RegExp.Group n r) x
      (RegExp.mkState (RegExp.endIndex y)
         ((n, (RegExp.endIndex x, RegExp.endIndex y)) :: RegExp.captures y))
| M_boundary x :
    RegExp.atWordBoundary input (RegExp.endIndex x) = true ->
    Matches input RegExp.WordBoundary x x.

(** The character just before the end of the match is a lower-case
    letter. *)
Definition endsInLowercase (input : string) (y : RegExp.MatchState) : Prop :=
  exists k ch,
    RegExp.endIndex y = S k
    /\ String.get k input = Some ch
    /\ isLower ch = true.

(** Two continuations agree on every state the matcher can hand them when
    it is started in [x]. *)
Definition agreeFrom (input : string) (x : RegExp.MatchState)
    (c1 c2 : RegExp.Continuation) : Prop :=
  forall y,
    RegExp.endIndex x <= RegExp.endIndex y ->
    RegExp.endIndex y <= String.length input ->
    c1 y = c2 y.

(** The continuation that [RepeatMatcher] passes to the body. *)
Definition repeatContinuation (m : RegExp.Matcher) (fuel min : nat)
    (max : option nat) (x : RegExp.MatchState) (c : RegExp.Continuation)
    : RegExp.Continuation :=
  fun y =>
    if (min =? 0) && (RegExp.endIndex y =? RegExp.endIndex x) then None
    else RegExp.repeatMatcher m fuel (Nat.pred min) (RegExp.predMax max) y c.


(* ================================================================== *)
(** * Further specification predicates *)

(** [s] is in the form [replace(/\s+/g, ' ')] leaves strings in: every
    whitespace character is a single space that follows a non-whitespace
    character; [prevWs] tells that the character before [s] is
    whitespace. *)
Fixpoint collapsedFrom (prevWs : bool) (s : string) : bool :=
  match s with
  | EmptyString => true
  | String c s' =>
      if isWhiteSpace c
      then negb prevWs && Ascii.eqb c " " && collapsedFrom true s'
      else collapsedFrom false s'
  end.

(** [s] does not start with a whitespace character. *)
Definition noLeadingSpace (s : string) : bool :=
  match s with
  | EmptyString => true
  | String c _ => negb (isWhiteSpace c)
  end.


(** What every candidate that Pass A extracts from [text] looks like. *)
Definition passACandidate (text : string) (c : Candidate) : Prop :=
  isStopWord (name c) = false
  /\ pattern c = CityQualifier
  /\ confidence c = High
  /\ qualifier c <> None
  /\ context c = getContext text (index c).

(** What every candidate that Pass B extracts from [text] looks like. *)
Definition passBCandidate (text : string) (c : Candidate) : Prop :=
  isStopWord (name c) = false
  /\ isCommonFalsePositive (name c) = false
  /\ pattern c = CapitalizedWord
  /\ confidence c = Medium
  /\ qualifier c = None
  /\ context c = getContext text (index c).


(** [s] is ASCII text: every code unit is below 128. *)
Fixpoint isAscii (s : string) : bool :=
  match s with
  | EmptyString => true
  | String c s' => (Chars.code c <? 128) && isAscii s'
  end.

(** Strict code-unit order on strings. *)
Definition codeUnitLt (a b : string) : Prop := String.compare a b = Lt.

(** A wrapper that was closed after Paris and Tokyo were stored. *)
Definition closedStore : DB.GeoNamesDB := DB.close parisTokyoStore.

(** The character just before the end of the match satisfies [p]. *)
Definition endsWith (p : ascii -> bool) (input : string)
    (y : RegExp.MatchState) : Prop :=
  exists k ch,
    RegExp.endIndex y = S k
    /\ String.get k input = Some ch
    /\ p ch = true.

(** The pattern contains no capturing group. *)
Fixpoint groupFree (r : RegExp.regex) : bool :=
  match r with
  | RegExp.CharClass _ => true
  | RegExp.Seq r1 r2 => groupFree r1 && groupFree r2
  | RegExp.Repeat _ _ r' => groupFree r'
  | RegExp.Group _ _ => false
  | RegExp.WordBoundary => true
  end.

(** The non-empty string [w] stands in [text] at offset [i]. *)
Definition occursAt (text : string) (i : nat) (w : string) : Prop :=
  0 < String.length w
  /\ Str.substring i (i + String.length w) text = w.

(** Candidate [b] starts where the name of candidate [a] has ended, or
    later. *)
Definition follows (a b : Candidate) : Prop :=
  index a + String.length (name a) <= index b.

(** The name of the candidate is the non-empty piece of [text] that starts
    at the candidate's index. *)
Definition nameInText (text : string) (c : Candidate) : Prop :=
  occursAt text (index c) (name c).

(** The candidate has a qualifier, which stands in [text] somewhere after
    the end of the name. *)
Definition qualifierInText (text : string) (c : Candidate) : Prop :=
  exists q j,
    qualifier c = Some q
    /\ index c + String.length (name c) < j
    /\ occursAt text j q.

(** ** The store wrapper *)

(** [r] is the last record of the batch [cs] that carries its id: the one
    that a sequence of [put] leaves in the store. *)
Definition lastWithId (cs : list DB.City) (r : DB.City) : Prop :=
  exists before after,
    cs = before ++ r :: after
    /\ ~ In (DB.geonameId r) (List.map DB.geonameId after).

(** The entries of the download cache are listed by ascending country
    code, one per code. *)
Definition cacheAscending (l : list DB.CacheEntry) : Prop :=
  StronglySorted
    (fun a b => codeUnitLt (DB.countryCode a) (DB.countryCode b)) l.

(** The [metadata] store agrees with the [cities] store: either nothing was
    loaded yet, or the only entry is the ['citiesLoaded'] marker and its
    count is the number of stored cities. *)
Definition markerAgrees (db : DB.GeoNamesDB) : Prop :=
  (DB.metadata db = [] /\ DB.cities db = [])
  \/ (exists e, DB.metadata db = [e]
                /\ DB.key e = "citiesLoaded"
                /\ DB.count e = List.length (DB.cities db)).

(** A profile in which the bundled gazetteer (Paris and Tokyo) was loaded
    by a first session. *)
Definition loadedStore : DB.GeoNamesDB :=
  fst (DB.loadCities 1700000000000 [parisFR; tokyoJP]
         (fst (DB.init true DB.fresh))).

(** The same profile after the FR and then the US download. *)
Definition downloadedStore : DB.GeoNamesDB :=
  fst (DB.loadCountryData "2024-01-02T00:00:00.000Z" "US" [parisTX; newYorkUS]
         (fst (DB.loadCountryData "2024-01-01T00:00:00.000Z" "FR" [parisFR]
                loadedStore))).

(** A profile in which the US download came before the FR one. *)
Definition usFirstStore : DB.GeoNamesDB :=
  fst (DB.loadCountryData "2024-01-02T00:00:00.000Z" "FR" [parisFR]
         (fst (DB.loadCountryData "2024-01-01T00:00:00.000Z" "US"
                 [parisTX; newYorkUS] loadedStore))).

(** ** Text helpers *)

(** The character [c] occurs in [s]. *)
Fixpoint hasChar (c : ascii) (s : string) : bool :=
  match s with
  | EmptyString => false
  | String a s' => Ascii.eqb a c || hasChar c s'
  end.

(** [s] consists of whitespace only. *)
Fixpoint blank (s : string) : bool :=
  match s with
  | EmptyString => true
  | String a s' => isWhiteSpace a && blank s'
  end.

(** ** The GeoNames dump *)

(** A row of a dump: at least 15 fields, none of which holds a TAB or a
    line feed. *)
Definition wellFormedRow (row : list string) : Prop :=
  15 <= List.length row
  /\ forall f, In f row ->
       hasChar Text.tab f = false /\ hasChar Text.lineFeed f = false.

(** The text of a dump: rows separated by line feeds, fields by TABs. *)
Definition dumpText (rows : list (list string)) : string :=
  Text.join (String Text.lineFeed EmptyString)
    (List.map (Text.join (String Text.tab EmptyString)) rows).

(** The row describes a populated place: its feature class is [P]. *)
Definition isPopulatedPlace (row : list string) : bool :=
  String.eqb (Background.field row 6) "P".

(** A sample row of the FR dump (19 columns), and a row of another
    feature class. *)
Definition lyonRow : list string :=
  [ "2996944"; "Lyon"; "Lyon"; "Lugdunum,Lyons"; "45.74846"; "4.84671";
    "P"; "PPLA"; "FR"; ""; "84"; "69"; "691"; "69123"; "522250"; "173";
    "175"; "Europe/Paris"; "2024-01-01" ].
Definition rhoneRow : list string :=
  [ "2983752"; "Rhone"; "Rhone"; ""; "43.33"; "4.84"; "H"; "STM"; "FR";
    ""; "00"; ""; ""; ""; "0"; ""; "1"; "Europe/Paris"; "2024-01-01" ].

(** ** ZIP archives *)

(** The byte of value [n mod 256]. *)
Definition byteOf (n : N) : Byte.byte :=
  match Byte.of_N (n mod 256) with
  | Some b => b
  | None => Byte.x00
  end.

(** The [width] low bytes of [v], least significant first. *)
Fixpoint littleEndianBytes (width : nat) (v : N) : list Byte.byte :=
  match width with
  | 0 => []
  | S width' => byteOf v :: littleEndianBytes width' (v / 256)
  end.

(** A header: its fields in order, each a width in bytes and a value. *)
Definition fieldBytes (fields : list (nat * N)) : list Byte.byte :=
  flat_map (fun f => littleEndianBytes (fst f) (snd f)) fields.

Definition widths (fields : list (nat * N)) : nat :=
  list_sum (List.map fst fields).

(** A file kept in an archive without compression, with the checksum and
    the time stamps that go into its headers. *)
Record StoredFile : Type := mkStoredFile {
  fileName : list Byte.byte;
  content : list Byte.byte;
  crc32 : N;
  modTime : N;
  modDate : N
}.

(** The local file header (30 bytes): signature, version needed, flags,
    method 0, time, date, checksum, the two sizes, the length of the name
    and of the extra field. *)
Definition localHeader (f : StoredFile) : list (nat * N) :=
  [ (4, 0x04034b50%N); (2, 20%N); (2, 0%N); (2, 0%N);
    (2, modTime f); (2, modDate f); (4, crc32 f);
    (4, N.of_nat (List.length (content f)));
    (4, N.of_nat (List.length (content f)));
    (2, N.of_nat (List.length (fileName f))); (2, 0%N) ].

Definition localRecord (f : StoredFile) : list Byte.byte :=
  fieldBytes (localHeader f) ++ fileName f ++ content f.

(** The central directory header (46 bytes) of a file whose local record
    starts at [offset]. *)
Definition centralHeader (offset : nat) (f : StoredFile) : list (nat * N) :=
  [ (4, 0x02014b50%N); (2, 20%N); (2, 20%N); (2, 0%N); (2, 0%N);
    (2, modTime f); (2, modDate f); (4, crc32 f);
    (4, N.of_nat (List.length (content f)));
    (4, N.of_nat (List.length (content f)));
    (2, N.of_nat (List.length (fileName f))); (2, 0%N); (2, 0%N);
    (2, 0%N); (2, 0%N); (4, 0%N); (4, N.of_nat offset) ].

Definition centralRecord (offset : nat) (f : StoredFile) : list Byte.byte :=
  fieldBytes (centralHeader offset f) ++ fileName f.

Definition localRecords (files : list StoredFile) : list Byte.byte :=
  flat_map localRecord files.

(** The central directory of [files], the first of which has its local
    record at [offset]. *)
Fixpoint centralDirectory (offset : nat) (files : list StoredFile)
    : list Byte.byte :=
  match files with
  | [] => []
  | f :: rest =>
      centralRecord offset f
      ++ centralDirectory (offset + List.length (localRecord f)) rest
  end.

(** The end-of-central-directory record (22 bytes, no comment). *)
Definition endRecord (files : list StoredFile) : list Byte.byte :=
  fieldBytes
    [ (4, 0x06054b50%N); (2, 0%N); (2, 0%N);
      (2, N.of_nat (List.length files)); (2, N.of_nat (List.length files));
      (4, N.of_nat (List.length (centralDirectory 0 files)));
      (4, N.of_nat (List.length (localRecords files))); (2, 0%N) ].

(** The archive that stores [files]: the local records, the central
    directory, the end record. *)
Definition storedArchive (files : list StoredFile) : Zip.ArrayBuffer :=
  localRecords files ++ centralDirectory 0 files ++ endRecord files.

(** The counts, lengths and offsets of the archive fit the fields that hold
    them. *)
Definition fitsArchive (files : list StoredFile) : Prop :=
  (N.of_nat (List.length files) < 65536)%N
  /\ (forall f, In f files ->
        (N.of_nat (List.length (fileName f)) < 65536)%N)
  /\ (N.of_nat (List.length (storedArchive files)) < 4294967296)%N.

(** A stored file given by its name and its text, both in ASCII. *)
Definition asciiFile (nm text : string) : StoredFile :=
  mkStoredFile (list_byte_of_string nm) (list_byte_of_string text) 0 0 0.

(** ** Country names in running text *)

(** The characters of [text] from index [i] on are those of [name], up to
    case. *)
Fixpoint agreesAt (name text : string) (i : nat) : bool :=
  match name with
  | EmptyString => true
  | String c name' =>
      match String.get i text with
      | Some ch => Inference.sameLetter c ch && agreesAt name' text (S i)
      | None => false
      end
  end.

(** [name] stands at index [i] of [text] as a whole word, in any case. *)
Definition mentionedAt (name text : string) (i : nat) : bool :=
  RegExp.atWordBoundary text i
  && agreesAt name text i
  && RegExp.atWordBoundary text (i + String.length name).

(* ================================================================== *)
(** * Properties of the gazetteer store *)

Lemma string_compare_refl (s : string) : String.compare s s = Eq.
Proof.
  pose proof (String.compare_antisym s s) as H.
  destruct (String.compare s s); simpl in H; congruence.
Qed.

Lemma string_compare_eq (a b : string) : String.compare a b = Eq <-> a = b.
Proof.
  split.
  - apply String.compare_eq_iff.
  - intros ->. apply string_compare_refl.
Qed.

(** [store.get(k)] on a string-keyed store finds a record exactly when one
    with that key is stored. *)
Lemma get_string_key_some {V : Type} (keyOf : V -> string) (k : string)
    (s : list V) :
  (exists v, ObjectStore.get keyOf String.compare k s = Some v)
  <-> (exists v, In v s /\ keyOf v = k).
Proof.
  induction s as [|w s IH]; simpl.
  - split; intros [v H]; [discriminate | destruct H as [[] _]].
  - destruct (String.compare k (keyOf w)) eqn:E.
    + apply string_compare_eq in E. split; intros _; eauto.
    + rewrite IH. split; intros [v [Hin Hk]]; eauto.
      destruct Hin as [->|Hin]; eauto.
      rewrite Hk, string_compare_refl in E. discriminate.
    + rewrite IH. split; intros [v [Hin Hk]]; eauto.
      destruct Hin as [->|Hin]; eauto.
      rewrite Hk, string_compare_refl in E. discriminate.
Qed.

Lemma get_string_key_none {V : Type} (keyOf : V -> string) (k : string)
    (s : list V) :
  ObjectStore.get keyOf String.compare k s = None
  <-> (forall v, In v s -> keyOf v <> k).
Proof.
  split.
  - intros Hn v Hin Hk.
    assert (exists v', ObjectStore.get keyOf String.compare k s = Some v') as [v' Hv'].
    { apply get_string_key_some. eauto. }
    congruence.
  - intros Hall.
    destruct (ObjectStore.get keyOf String.compare k s) eqn:E; [|reflexivity].
    assert (exists v', In v' s /\ keyOf v' = k) as [v' [Hin Hk]].
    { apply get_string_key_some. eauto. }
    exfalso. eapply Hall; eauto.
Qed.

Lemma indexGetAll_In {V : Type} (prop : V -> string) (k : string) (s : list V)
    (v : V) :
  In v (ObjectStore.indexGetAll prop k s) <-> In v s /\ prop v = k.
Proof.
  unfold ObjectStore.indexGetAll. rewrite filter_In, String.eqb_eq. tauto.
Qed.

Lemma indexCount_zero {V : Type} (prop : V -> string) (k : string) (s : list V) :
  ObjectStore.indexCount prop k s = 0 <-> (forall v, In v s -> prop v <> k).
Proof.
  unfold ObjectStore.indexCount. split.
  - intros H v Hin Hk.
    assert (In v (ObjectStore.indexGetAll prop k s)) as Hv
      by (apply indexGetAll_In; auto).
    destruct (ObjectStore.indexGetAll prop k s); [contradiction | discriminate].
  - intros H.
    destruct (ObjectStore.indexGetAll prop k s) as [|v l] eqn:E; [reflexivity|].
    assert (In v (ObjectStore.indexGetAll prop k s)) as Hv by (rewrite E; left; auto).
    apply indexGetAll_In in Hv. destruct Hv as [Hin Hk].
    exfalso. eapply H; eauto.
Qed.

(** C7.  On an initialised store, [isCountryDownloaded(code)] resolves to
    [true] exactly when a DownloadRecord exists for [code] and the country
    partition holds at least one record with that country code; when the
    DownloadRecord exists but the partition holds no such record it resolves
    to [false].  It never rejects. *)
Theorem isCountryDownloaded_iff (db : DB.GeoNamesDB) (code : string) :
  DB.isReady db = true ->
  (DB.isCountryDownloaded db code = Resolved true
   <-> hasDownloadRecord db code /\ hasCountryRecords db code)
  /\ (hasDownloadRecord db code -> ~ hasCountryRecords db code ->
      DB.isCountryDownloaded db code = Resolved false)
  /\ (DB.isCountryDownloaded db code = Resolved true
      \/ DB.isCountryDownloaded db code = Resolved false).
Proof.
  intros Hready.
  assert ((DB.isCountryDownloaded db code = Resolved true
           <-> hasDownloadRecord db code /\ hasCountryRecords db code)
          /\ (hasDownloadRecord db code -> ~ hasCountryRecords db code ->
              DB.isCountryDownloaded db code = Resolved false)) as [H1 H2];
    [|split; [exact H1|split; [exact H2|]];
      unfold DB.isCountryDownloaded; rewrite Hready; simpl;
      destruct (ObjectStore.get DB.countryCode String.compare code
                  (DB.downloadCache db)); auto;
      destruct (ObjectStore.indexCount DB.country code (DB.countryData db) =? 0);
      auto].
  revert Hready.
  intros Hready. unfold DB.isCountryDownloaded, hasDownloadRecord, hasCountryRecords.
  rewrite Hready. simpl.
  destruct (ObjectStore.get DB.countryCode String.compare code (DB.downloadCache db))
    as [e|] eqn:Hget.
  - assert (exists e', In e' (DB.downloadCache db) /\ DB.countryCode e' = code) as Hrec.
    { apply get_string_key_some. eauto. }
    destruct (ObjectStore.indexCount DB.country code (DB.countryData db) =? 0) eqn:Hcnt.
    + apply Nat.eqb_eq in Hcnt.
      pose proof (proj1 (indexCount_zero _ _ _) Hcnt) as Hnone.
      split; [split|]; try discriminate; auto.
      intros [_ [c [Hin Hc]]]. exfalso. eapply Hnone; eauto.
    + apply Nat.eqb_neq in Hcnt.
      split; [split; auto|].
      * intros _. split; auto.
        destruct (ObjectStore.indexGetAll DB.country code (DB.countryData db))
          as [|c l] eqn:E.
        { unfold ObjectStore.indexCount in Hcnt. rewrite E in Hcnt. contradiction. }
        exists c. apply indexGetAll_In. rewrite E. left; auto.
      * intros _ Hno. exfalso. apply Hcnt. apply indexCount_zero.
        intros v Hin Hk. apply Hno. eauto.
  - pose proof (proj1 (get_string_key_none _ _ _) Hget) as Hnone.
    split; [split|]; try discriminate.
    + intros [[e [Hin Hk]] _]. exfalso. eapply Hnone; eauto.
    + intros [e [Hin Hk]]. exfalso. eapply Hnone; eauto.
Qed.

Lemma isCountryDownloaded_iff_witness :
  DB.isReady staleStore = true
  /\ ((DB.isCountryDownloaded staleStore "FR" = Resolved true
       <-> hasDownloadRecord staleStore "FR" /\ hasCountryRecords staleStore "FR")
      /\ (hasDownloadRecord staleStore "FR" -> ~ hasCountryRecords staleStore "FR" ->
          DB.isCountryDownloaded staleStore "FR" = Resolved false)
      /\ (DB.isCountryDownloaded staleStore "FR" = Resolved true
          \/ DB.isCountryDownloaded staleStore "FR" = Resolved false)).
Proof.
  split; [reflexivity | apply (isCountryDownloaded_iff staleStore "FR"); reflexivity].
Defined.

(** The stale store of the example: the cache entry is there, the records
    are not, and the country is reported as not downloaded. *)
Example staleStore_not_downloaded :
  hasDownloadRecord staleStore "FR"
  /\ ~ hasCountryRecords staleStore "FR"
  /\ DB.isCountryDownloaded staleStore "FR" = Resolved false.
Proof.
  split; [|split].
  - eexists. split; [left; reflexivity | reflexivity].
  - intros [c [[] _]].
  - reflexivity.
Qed.

(* ------------------------------------------------------------------ *)
(** ** Access before initialisation *)

(** C8 (as stated, refuted).  On a wrapper that was never initialised,
    [isCountryDownloaded], the two counts and [getDownloadedCountries]
    resolve to a normal value instead of being rejected. *)
Lemma not_ready_queries_resolve :
  DB.isReady DB.fresh = false
  /\ DB.isCountryDownloaded DB.fresh "FR" = Resolved false
  /\ DB.getCitiesCount DB.fresh = Resolved 0
  /\ DB.getCountryDataCount DB.fresh = Resolved 0
  /\ DB.getDownloadedCountries DB.fresh = Resolved [].
Proof. repeat split. Qed.

(** C8 (amended).  While the wrapper is not ready, the searches and the two
    bulk loads are rejected with "Database not initialized" and leave the
    store untouched, whereas the status queries resolve to a neutral value:
    [0] for the counts, [false] for [isCountryDownloaded] and
    [isCitiesLoaded], the empty list for [getDownloadedCountries]. *)
Theorem not_ready_behaviour (db : DB.GeoNamesDB) :
  DB.isReady db = false ->
  (forall nm, DB.searchByName db nm = Rejected NotInitialized)
  /\ (forall nm, DB.searchCountryData db nm = Rejected NotInitialized)
  /\ (forall nm, DB.searchAllSources db nm = Rejected NotInitialized)
  /\ (forall c, DB.searchByCountry db c = Rejected NotInitialized)
  /\ (forall id, DB.getCityById db id = Rejected NotInitialized)
  /\ (forall now cs, DB.loadCities now cs db = (db, Rejected NotInitialized))
  /\ (forall now c cs, DB.loadCountryData now c cs db = (db, Rejected NotInitialized))
  /\ DB.getCitiesCount db = Resolved 0
  /\ DB.getCountryDataCount db = Resolved 0
  /\ (forall c, DB.isCountryDownloaded db c = Resolved false)
  /\ DB.isCitiesLoaded db = Resolved false
  /\ DB.getDownloadedCountries db = Resolved []
  /\ (forall c, DB.getCountryDownloadInfo db c = Resolved None).
Proof.
  intros Hr.
  unfold DB.searchAllSources, DB.searchByName, DB.searchCountryData,
    DB.searchByCountry, DB.getCityById, DB.loadCities, DB.loadCountryData,
    DB.getCitiesCount, DB.getCountryDataCount, DB.isCountryDownloaded,
    DB.isCitiesLoaded, DB.getDownloadedCountries, DB.getCountryDownloadInfo.
  rewrite Hr. simpl. repeat split.
Qed.

Lemma not_ready_behaviour_witness :
  DB.isReady (DB.close staleStore) = false
  /\ DB.searchByName (DB.close staleStore) "Paris" = Rejected NotInitialized
  /\ DB.isCountryDownloaded (DB.close staleStore) "FR" = Resolved false.
Proof.
  split; [reflexivity|].
  pose proof (not_ready_behaviour (DB.close staleStore) eq_refl) as H.
  split.
  - apply (proj1 H).
  - apply H.
Defined.

(* ------------------------------------------------------------------ *)
(** ** Name lookup *)

(** C9 (as stated, refuted).  The name "New  York", written with two
    spaces, normalises to the key of the New York record, yet
    [searchByName] does not return that record. *)
Lemma searchByName_not_normalized :
  normalizeText "New  York" = DB.asciiName newYorkUS
  /\ In newYorkUS (DB.cities newYorkStore)
  /\ DB.searchByName newYorkStore "New  York" = Resolved [].
Proof. repeat split. left; reflexivity. Qed.

(** C9 (amended).  On an initialised store [searchByName(name)] returns, in
    store order, exactly the records of the bundled partition whose
    [ascii] key equals [name.toLowerCase()]; the name is neither stripped of
    diacritics nor whitespace-collapsed nor trimmed. *)
Theorem searchByName_lowercase (db : DB.GeoNamesDB) (nm : string) :
  DB.isReady db = true ->
  exists found,
    DB.searchByName db nm = Resolved found
    /\ found = filter (fun r => String.eqb (DB.asciiName r) (toLowerCase nm))
                 (DB.cities db)
    /\ (forall r, In r found <->
                  In r (DB.cities db) /\ DB.asciiName r = toLowerCase nm).
Proof.
  intros Hr. unfold DB.searchByName. rewrite Hr. simpl.
  eexists. split; [reflexivity|]. split; [reflexivity|].
  intros r. apply indexGetAll_In.
Qed.

Lemma searchByName_lowercase_witness :
  DB.isReady newYorkStore = true
  /\ exists found,
       DB.searchByName newYorkStore "NEW YORK" = Resolved found
       /\ found = filter (fun r => String.eqb (DB.asciiName r) (toLowerCase "NEW YORK"))
                    (DB.cities newYorkStore)
       /\ (forall r, In r found <->
                     In r (DB.cities newYorkStore)
                     /\ DB.asciiName r = toLowerCase "NEW YORK").
Proof.
  split; [reflexivity | apply (searchByName_lowercase newYorkStore "NEW YORK"); reflexivity].
Defined.

(* ------------------------------------------------------------------ *)
(** ** The representation invariant of the partitions *)

Lemma keysAscending_NoDup (s : list DB.City) :
  keysAscending s -> NoDup (List.map DB.geonameId s).
Proof.
  induction 1 as [|a l Hs IH Hall]; simpl; constructor; auto.
  intros Hin. apply in_map_iff in Hin. destruct Hin as [b [Hb Hin]].
  rewrite Forall_forall in Hall. specialize (Hall b Hin). lia.
Qed.

Lemma put_In (v w : DB.City) (s : list DB.City) :
  In w (ObjectStore.put DB.geonameId Z.compare v s) -> w = v \/ In w s.
Proof.
  induction s as [|a s IH]; simpl.
  - intros [<-|[]]; auto.
  - destruct (Z.compare_spec (DB.geonameId v) (DB.geonameId a)); simpl.
    + intros [<-|H']; auto.
    + intros [<-|H']; auto.
    + intros [<-|H']; auto. destruct (IH H'); auto.
Qed.

Lemma put_keysAscending (v : DB.City) (s : list DB.City) :
  keysAscending s -> keysAscending (ObjectStore.put DB.geonameId Z.compare v s).
Proof.
  unfold keysAscending.
  induction 1 as [|a l Hs IH Hall]; simpl.
  - repeat constructor.
  - destruct (Z.compare_spec (DB.geonameId v) (DB.geonameId a)) as [E|L|G].
    + constructor; auto. rewrite E. exact Hall.
    + constructor; [constructor; auto|].
      constructor; auto.
      eapply Forall_impl; [|exact Hall]. simpl. intros; lia.
    + constructor; auto.
      apply Forall_forall. intros w Hw. apply put_In in Hw.
      destruct Hw as [->|Hw]; [lia|].
      rewrite Forall_forall in Hall. auto.
Qed.

Lemma putAll_keysAscending (vs s : list DB.City) :
  keysAscending s -> keysAscending (ObjectStore.putAll DB.geonameId Z.compare vs s).
Proof.
  unfold ObjectStore.putAll. revert s.
  induction vs as [|v vs IH]; simpl; intros s Hs; auto.
  apply IH. apply put_keysAscending. exact Hs.
Qed.

Lemma addAll_keysAscending (vs s s' : list DB.City) :
  keysAscending s ->
  ObjectStore.addAll DB.geonameId Z.compare vs s = Some s' ->
  keysAscending s'.
Proof.
  revert s. induction vs as [|v vs IH]; simpl; intros s Hs H.
  - congruence.
  - destruct (ObjectStore.get DB.geonameId Z.compare (DB.geonameId v) s);
      [discriminate|].
    eapply IH; [|exact H]. apply put_keysAscending. exact Hs.
Qed.

Lemma reachable_keysAscending (db : DB.GeoNamesDB) :
  reachable db ->
  keysAscending (DB.cities db) /\ keysAscending (DB.countryData db).
Proof.
  induction 1 as [|opened db _ IH|now cs db _ IH|now code cs db _ IH|db _ IH].
  - split; constructor.
  - destruct opened; simpl; exact IH.
  - unfold DB.loadCities. destruct (negb (DB.isReady db)); simpl; [exact IH|].
    destruct (ObjectStore.addAll DB.geonameId Z.compare cs []) as [store|] eqn:E;
      simpl; [|exact IH].
    split; [|apply IH].
    eapply addAll_keysAscending; [|exact E]. constructor.
  - unfold DB.loadCountryData. destruct (negb (DB.isReady db)); simpl; [exact IH|].
    split; [apply IH|]. apply putAll_keysAscending. apply IH.
  - simpl. exact IH.
Qed.

(** Every store built by the wrapper's own operations satisfies the
    invariant. *)
Lemma reachable_storeInvariant (db : DB.GeoNamesDB) :
  reachable db -> storeInvariant db.
Proof.
  intros H. apply reachable_keysAscending in H. destruct H as [H1 H2].
  split; apply keysAscending_NoDup; assumption.
Qed.

Lemma NoDup_map_filter {A B : Type} (f : A -> B) (p : A -> bool) (l : list A) :
  NoDup (List.map f l) -> NoDup (List.map f (filter p l)).
Proof.
  induction l as [|a l IH]; simpl; intros H; auto.
  inversion H as [|x xs Hnin Hnd]; subst.
  destruct (p a); simpl; auto.
  constructor; auto.
  intros Hin. apply Hnin. apply in_map_iff in Hin.
  destruct Hin as [b [Hb Hin]]. apply filter_In in Hin.
  apply in_map_iff. exists b. tauto.
Qed.

(* ------------------------------------------------------------------ *)
(** ** De-duplication in [searchAllSources] *)

Lemma seenId_In (seen : list Z) (r : DB.City) :
  seenId seen r = true <-> In (DB.geonameId r) seen.
Proof.
  unfold seenId. rewrite existsb_exists. split.
  - intros [z [Hin Heq]]. apply Z.eqb_eq in Heq. congruence.
  - intros Hin. exists (DB.geonameId r). split; auto. apply Z.eqb_refl.
Qed.

Lemma dedupeById_In (seen : list Z) (l : list DB.City) (r : DB.City) :
  In r (DB.dedupeById seen l) -> In r l /\ ~ In (DB.geonameId r) seen.
Proof.
  revert seen. induction l as [|a l IH]; simpl; intros seen; [tauto|].
  fold (seenId seen a). destruct (seenId seen a) eqn:E; simpl.
  - intros H. destruct (IH _ H). auto.
  - intros [<-|H].
    + split; auto. rewrite <- seenId_In. congruence.
    + destruct (IH _ H) as [Hin Hns]. split; auto.
      intros Hs. apply Hns. right. exact Hs.
Qed.

Lemma dedupeById_covers (seen : list Z) (l : list DB.City) (r : DB.City) :
  In r l ->
  In (DB.geonameId r) seen
  \/ In (DB.geonameId r) (List.map DB.geonameId (DB.dedupeById seen l)).
Proof.
  revert seen. induction l as [|a l IH]; simpl; intros seen; [tauto|].
  fold (seenId seen a). intros [->|Hin].
  - destruct (seenId seen r) eqn:E; simpl; [left; apply seenId_In; auto | right; left; auto].
  - destruct (seenId seen a) eqn:E; simpl.
    + apply IH. exact Hin.
    + destruct (IH (DB.geonameId a :: seen) Hin) as [[<-|H]|H]; auto.
Qed.

Lemma dedupeById_NoDup (seen : list Z) (l : list DB.City) :
  NoDup (List.map DB.geonameId (DB.dedupeById seen l)).
Proof.
  revert seen. induction l as [|a l IH]; simpl; intros seen; [constructor|].
  fold (seenId seen a). destruct (seenId seen a) eqn:E; simpl; auto.
  constructor; auto.
  intros Hin. apply in_map_iff in Hin. destruct Hin as [b [Hb Hin]].
  apply dedupeById_In in Hin. destruct Hin as [_ Hns].
  apply Hns. left. congruence.
Qed.

Lemma dedupeById_seen_ext (seen seen' : list Z) (l : list DB.City) :
  (forall z, In z seen <-> In z seen') ->
  DB.dedupeById seen l = DB.dedupeById seen' l.
Proof.
  revert seen seen'. induction l as [|a l IH]; simpl; intros seen seen' Hext; auto.
  fold (seenId seen a) (seenId seen' a).
  assert (seenId seen a = seenId seen' a) as ->.
  { destruct (seenId seen a) eqn:E, (seenId seen' a) eqn:E'; auto.
    - apply seenId_In, Hext, seenId_In in E. congruence.
    - apply seenId_In, Hext, seenId_In in E'. congruence. }
  destruct (seenId seen' a); simpl; [apply IH; auto|].
  f_equal. apply IH. intros z. simpl. rewrite Hext. tauto.
Qed.

Lemma dedupeById_app (seen : list Z) (l1 l2 : list DB.City) :
  DB.dedupeById seen (l1 ++ l2)
  = DB.dedupeById seen l1
    ++ DB.dedupeById (List.map DB.geonameId (DB.dedupeById seen l1) ++ seen) l2.
Proof.
  revert seen. induction l1 as [|a l1 IH]; simpl; intros seen; auto.
  fold (seenId seen a). destruct (seenId seen a); simpl; auto.
  f_equal. rewrite IH. f_equal.
  apply dedupeById_seen_ext. intros z. simpl. rewrite !in_app_iff. simpl. tauto.
Qed.

Lemma dedupeById_unique (seen : list Z) (l : list DB.City) :
  NoDup (List.map DB.geonameId l) ->
  DB.dedupeById seen l = filter (fun r => negb (seenId seen r)) l.
Proof.
  revert seen. induction l as [|a l IH]; simpl; intros seen Hnd; auto.
  inversion Hnd as [|x xs Hnin Hnd']; subst.
  fold (seenId seen a). destruct (seenId seen a) eqn:E; simpl; auto.
  f_equal. rewrite IH by assumption.
  apply filter_ext_in. intros b Hb. f_equal.
  unfold seenId. simpl.
  destruct (Z.eqb_spec (DB.geonameId b) (DB.geonameId a)) as [Heq|]; auto.
  exfalso. apply Hnin. rewrite <- Heq. apply in_map. exact Hb.
Qed.

(** C6.  On an initialised store in which ids are unique within each
    partition, [searchAllSources(name)] resolves to the records of
    [searchByName(name)] followed by those records of
    [searchCountryData(name)] whose id the bundled partition did not already
    supply.  The returned ids are pairwise distinct and include the ids of
    either partition search, and every returned record comes from one of
    the two searches. *)
Theorem searchAllSources_union (db : DB.GeoNamesDB) (nm : string) :
  DB.isReady db = true ->
  storeInvariant db ->
  exists g c all,
    DB.searchByName db nm = Resolved g
    /\ DB.searchCountryData db nm = Resolved c
    /\ DB.searchAllSources db nm = Resolved all
    /\ all = g ++ filter (notAmong g) c
    /\ NoDup (List.map DB.geonameId all)
    /\ (forall r, In r g -> In (DB.geonameId r) (List.map DB.geonameId all))
    /\ (forall r, In r c -> In (DB.geonameId r) (List.map DB.geonameId all))
    /\ (forall r, In r all -> In r g \/ In r c).
Proof.
  intros Hr [Hg Hc].
  unfold DB.searchAllSources, DB.searchByName, DB.searchCountryData.
  rewrite Hr. simpl.
  set (g := ObjectStore.indexGetAll DB.asciiName (toLowerCase nm) (DB.cities db)).
  set (c := ObjectStore.indexGetAll DB.asciiName (toLowerCase nm) (DB.countryData db)).
  assert (NoDup (List.map DB.geonameId g)) as Hndg.
  { apply NoDup_map_filter. exact Hg. }
  assert (NoDup (List.map DB.geonameId c)) as Hndc.
  { apply NoDup_map_filter. exact Hc. }
  assert (DB.dedupeById [] g = g) as Hdg.
  { rewrite dedupeById_unique by assumption.
    rewrite <- (filter_ext (fun _ => true)) by reflexivity.
    clear. induction g; simpl; congruence. }
  assert (DB.dedupeById [] (g ++ c) = g ++ filter (notAmong g) c) as Hall.
  { rewrite dedupeById_app, Hdg. f_equal.
    rewrite dedupeById_unique by assumption.
    apply filter_ext. intros r. unfold notAmong, seenId.
    rewrite app_nil_r. reflexivity. }
  exists g, c, (DB.dedupeById [] (g ++ c)).
  repeat split; auto.
  - apply dedupeById_NoDup.
  - intros r Hin.
    destruct (dedupeById_covers [] (g ++ c) r) as [[]|H]; auto.
    apply in_or_app. auto.
  - intros r Hin.
    destruct (dedupeById_covers [] (g ++ c) r) as [[]|H]; auto.
    apply in_or_app. auto.
  - intros r Hin. apply dedupeById_In in Hin. destruct Hin as [Hin _].
    apply in_app_or. exact Hin.
Qed.

Lemma overlapStore_invariant : storeInvariant overlapStore.
Proof.
  split; unfold uniqueIds; simpl; repeat constructor; simpl; intuition discriminate.
Qed.

Lemma searchAllSources_union_witness :
  DB.isReady overlapStore = true
  /\ storeInvariant overlapStore
  /\ exists g c all,
       DB.searchByName overlapStore "Paris" = Resolved g
       /\ DB.searchCountryData overlapStore "Paris" = Resolved c
       /\ DB.searchAllSources overlapStore "Paris" = Resolved all
       /\ all = g ++ filter (notAmong g) c
       /\ NoDup (List.map DB.geonameId all)
       /\ (forall r, In r g -> In (DB.geonameId r) (List.map DB.geonameId all))
       /\ (forall r, In r c -> In (DB.geonameId r) (List.map DB.geonameId all))
       /\ (forall r, In r all -> In r g \/ In r c).
Proof.
  split; [reflexivity|]. split; [exact overlapStore_invariant|].
  apply (searchAllSources_union overlapStore "Paris").
  - reflexivity.
  - exact overlapStore_invariant.
Defined.

(** The overlapping store of the example: Paris (FR) is found in both
    partitions and returned once, ahead of the record only the country
    partition has. *)
Example searchAllSources_overlap :
  DB.searchAllSources overlapStore "Paris" = Resolved [parisFR; parisTX].
Proof. reflexivity. Qed.

(* ------------------------------------------------------------------ *)
(** ** Sorting by population *)

Lemma orZero_id (n : Z) : orZero n = n.
Proof. unfold orZero. destruct (Z.eqb_spec n 0); congruence. Qed.

Lemma sort_nonempty {A : Type} (cmp : A -> A -> Z) (l : list A) :
  l <> [] -> ArraySort.sort cmp l <> [].
Proof.
  destruct l as [|x l]; [congruence|]. intros _. simpl.
  destruct (ArraySort.sort cmp l) as [|y ys]; simpl; [discriminate|].
  destruct (cmp x y <=? 0)%Z; discriminate.
Qed.

(** The head of the population sort is the first record of maximal
    population: later records never overtake an equally populous one. *)
Lemma sort_byPopulation_head (l : list DB.City) :
  l <> [] ->
  exists best, firstn 1 (ArraySort.sort byPopulation l) = [best]
               /\ firstMostPopulous l best.
Proof.
  induction l as [|x l IH]; [congruence|]. intros _.
  destruct l as [|y l'].
  - exists x. split; [reflexivity|].
    exists [], []. simpl. repeat split; intros r [].
  - destruct IH as [best [Hhd [before [after [Hl [Hb Ha]]]]]]; [discriminate|].
    change (ArraySort.sort byPopulation (x :: y :: l'))
      with (ArraySort.insert byPopulation x (ArraySort.sort byPopulation (y :: l'))).
    destruct (ArraySort.sort byPopulation (y :: l')) as [|h t] eqn:Es.
    { exfalso. eapply (sort_nonempty byPopulation (y :: l')); [discriminate|exact Es]. }
    simpl in Hhd. injection Hhd as ->.
    simpl. unfold byPopulation at 1. rewrite !orZero_id.
    destruct (Z.leb_spec (DB.pop best - DB.pop x) 0) as [Hle|Hgt].
    + exists x. split; [reflexivity|].
      exists [], (y :: l'). split; [reflexivity|].
      split; [intros r []|].
      intros r Hr. rewrite Hl in Hr. apply in_app_or in Hr.
      destruct Hr as [Hr|[<-|Hr]].
      * specialize (Hb r Hr). lia.
      * lia.
      * specialize (Ha r Hr). lia.
    + exists best. split; [reflexivity|].
      exists (x :: before), after. rewrite Hl. simpl. split; [reflexivity|].
      split; auto.
      intros r [<-|Hr]; auto. lia.
Qed.

(* ------------------------------------------------------------------ *)
(** ** The matcher *)


Lemma truthy_nonempty (s : string) : truthy s = true <-> s <> EmptyString.
Proof. destruct s; simpl; split; congruence. Qed.




Lemma filterOrThrow_returned {A : Type} (p : A -> Completion bool)
    (l kept : list A) :
  filterOrThrow p l = Returned kept ->
  kept = filter (fun x => accepted (p x)) l.
Proof.
  revert kept. induction l as [|x l IH]; simpl; intros kept.
  - intros [= <-]. reflexivity.
  - destruct (p x) as [keep|e]; [|discriminate].
    destruct (filterOrThrow p l) as [kept'|e]; [|discriminate].
    intros [= <-]. rewrite (IH kept' eq_refl). simpl.
    destruct keep; reflexivity.
Qed.



(** [findMatches] in terms of the scope and the country restriction. *)
Lemma findMatches_unfold (c : Candidate) (db : DB.GeoNamesDB) (uco : bool)
    (fc : option (list string)) (records : list DB.City) :
  searchScope db uco (name c) = Resolved records ->
  findMatches c db uco fc
  = if List.length (survivors fc records) =? 0 then Resolved []
    else selectMatches c (survivors fc records).
Proof.
  unfold searchScope, findMatches, survivors. intros ->. simpl.
  destruct records as [|r records]; simpl.
  - destruct (filterRequested fc); reflexivity.
  - destruct (filterRequested fc); reflexivity.
Qed.

Lemma findMatches_rejected (c : Candidate) (db : DB.GeoNamesDB) (uco : bool)
    (fc : option (list string)) (e : Error) :
  searchScope db uco (name c) = Rejected e ->
  findMatches c db uco fc = Rejected e.
Proof. unfold searchScope, findMatches. intros ->. reflexivity. Qed.

Lemma mem_In (s : string) (l : list string) : mem s l = true <-> In s l.
Proof.
  unfold mem. rewrite existsb_exists. split.
  - intros [x [Hin Heq]]. apply String.eqb_eq in Heq. congruence.
  - intros Hin. exists s. split; auto. apply String.eqb_refl.
Qed.

Lemma insert_In {A : Type} (cmp : A -> A -> Z) (x y : A) (l : list A) :
  In y (ArraySort.insert cmp x l) <-> y = x \/ In y l.
Proof.
  induction l as [|a l IH]; simpl.
  - intuition.
  - destruct (cmp x a <=? 0)%Z; simpl; [intuition|].
    rewrite IH. intuition.
Qed.

Lemma sort_In {A : Type} (cmp : A -> A -> Z) (y : A) (l : list A) :
  In y (ArraySort.sort cmp l) <-> In y l.
Proof.
  induction l as [|a l IH]; simpl; [tauto|].
  rewrite insert_In, IH. intuition.
Qed.

Lemma firstn_In {A : Type} (n : nat) (x : A) (l : list A) :
  In x (firstn n l) -> In x l.
Proof.
  intros H. rewrite <- (firstn_skipn n l). apply in_or_app. left. exact H.
Qed.

Lemma selectMatches_In (c : Candidate) (records found : list DB.City)
    (r : DB.City) :
  selectMatches c records = Resolved found -> In r found -> In r records.
Proof.
  unfold selectMatches, filterByQualifier.
  assert (Resolved (firstn 1 (ArraySort.sort byPopulation records))
          = Resolved found -> In r found -> In r records) as Hs.
  { intros [= <-] H. apply (firstn_In 1) in H. apply sort_In in H. exact H. }
  destruct (qualifier c) as [q|]; auto.
  destruct (truthy q); auto.
  destruct (filterOrThrow (qualifierAccepts (toLowerCase q)) records)
    as [kept|e] eqn:E; simpl; [|discriminate].
  intros [= <-] H. rewrite (filterOrThrow_returned _ _ _ E) in H.
  apply filter_In in H. tauto.
Qed.

Lemma length_zero_nil {A : Type} (l : list A) : (List.length l =? 0) = true <-> l = [].
Proof. destruct l; simpl; split; congruence. Qed.


(** The empty string is the one qualifier value that [findMatches] does not
    filter by: [if (candidate.qualifier)] takes it for a missing qualifier
    and the most populous record is returned. *)
Remark empty_qualifier_unqualified :
  findMatches (candidateOf "Paris" (Some "")) parisStore true None
  = findMatches (candidateOf "Paris" None) parisStore true None.
Proof. reflexivity. Qed.

(** The qualifier example: of Paris (FR) and Paris (US, TX), the candidate
    "Paris, France" keeps the French record only. *)
Example findMatches_paris_france :
  findMatches (candidateOf "Paris" (Some "France")) parisStore true None
  = Resolved [parisFR].
Proof. reflexivity. Qed.

(** C2.  For every candidate without a qualifier whose scope, after the
    country restriction if any, yields at least one record, the matcher
    returns exactly one record: the first record of maximal population
    among the survivors (no survivor is more populous, and every survivor
    listed before it is strictly less populous). *)
Theorem findMatches_most_populous (c : Candidate) (db : DB.GeoNamesDB)
    (uco : bool) (fc : option (list string)) (records : list DB.City) :
  qualifier c = None ->
  searchScope db uco (name c) = Resolved records ->
  survivors fc records <> [] ->
  exists best,
    findMatches c db uco fc = Resolved [best]
    /\ In best (survivors fc records)
    /\ (forall r, In r (survivors fc records) -> (DB.pop r <= DB.pop best)%Z)
    /\ firstMostPopulous (survivors fc records) best.
Proof.
  intros Hq Hscope Hne.
  destruct (sort_byPopulation_head (survivors fc records) Hne)
    as [best [Hhd Hfirst]].
  exists best. split; [|split; [|split]]; auto.
  - rewrite (findMatches_unfold c db uco fc records Hscope).
    destruct (List.length (survivors fc records) =? 0) eqn:E.
    + apply length_zero_nil in E. contradiction.
    + unfold selectMatches. rewrite Hq, Hhd. reflexivity.
  - destruct Hfirst as [before [after [-> _]]].
    apply in_or_app. right. left. reflexivity.
  - destruct Hfirst as [before [after [Heq [Hb Ha]]]].
    intros r Hr. rewrite Heq in Hr. apply in_app_or in Hr.
    destruct Hr as [Hr|[<-|Hr]].
    + specialize (Hb r Hr). lia.
    + lia.
    + auto.
Qed.

Lemma findMatches_most_populous_witness :
  qualifier (candidateOf "Georgetown" None) = None
  /\ searchScope georgetownStore false (name (candidateOf "Georgetown" None))
     = Resolved [georgetownGY; georgetownAlt]
  /\ survivors None [georgetownGY; georgetownAlt] <> []
  /\ exists best,
       findMatches (candidateOf "Georgetown" None) georgetownStore false None
       = Resolved [best]
       /\ In best (survivors None [georgetownGY; georgetownAlt])
       /\ (forall r, In r (survivors None [georgetownGY; georgetownAlt]) ->
                     (DB.pop r <= DB.pop best)%Z)
       /\ firstMostPopulous (survivors None [georgetownGY; georgetownAlt]) best.
Proof.
  split; [reflexivity|]. split; [reflexivity|]. split; [discriminate|].
  apply (findMatches_most_populous (candidateOf "Georgetown" None) georgetownStore
           false None [georgetownGY; georgetownAlt]).
  - reflexivity.
  - reflexivity.
  - discriminate.
Defined.

(** The Georgetown example: of the records with populations 200000 and 50,
    only the former is returned. *)
Example findMatches_georgetown :
  findMatches (candidateOf "Georgetown" None) georgetownStore false None
  = Resolved [georgetownGY].
Proof. reflexivity. Qed.

(* ------------------------------------------------------------------ *)
(** ** The country restriction *)

Lemma matchCandidates_In (cs : list Candidate) (db : DB.GeoNamesDB) (uco : bool)
    (fc : option (list string)) (r : DB.City) :
  In r (matchCandidates cs db uco fc) ->
  exists c found,
    In c cs /\ findMatches c db uco fc = Resolved found /\ In r found.
Proof.
  induction cs as [|c cs IH]; simpl; [tauto|].
  destruct (findMatches c db uco fc) as [[|first rest]|e] eqn:E.
  - intros H. destruct (IH H) as [c' [found [Hc [Hf Hr]]]].
    exists c', found. auto.
  - intros [->|H].
    + exists c, (r :: rest). repeat split; auto. left; reflexivity.
    + destruct (IH H) as [c' [found [Hc [Hf Hr]]]].
      exists c', found. auto.
  - intros H. destruct (IH H) as [c' [found [Hc [Hf Hr]]]].
    exists c', found. auto.
Qed.

Lemma deduplicateFrom_In {A : Type} (key : A -> Z) (seen : list Z)
    (l : list A) (x : A) :
  In x (deduplicateFrom key seen l) -> In x l.
Proof.
  revert seen. induction l as [|a l IH]; simpl; intros seen; [tauto|].
  destruct (existsb (Z.eqb (key a)) seen).
  - intros H. right. eapply IH; eauto.
  - intros [<-|H]; [left; reflexivity | right; eapply IH; eauto].
Qed.

Lemma filterRequested_nonempty (allowed : list string) :
  allowed <> [] -> filterRequested (Some allowed) = true.
Proof. destruct allowed; [congruence | reflexivity]. Qed.

(** An empty list is handled like a missing one: nothing is restricted. *)
Lemma findMatches_empty_list_unrestricted (c : Candidate) (db : DB.GeoNamesDB)
    (uco : bool) :
  findMatches c db uco (Some []) = findMatches c db uco None.
Proof. reflexivity. Qed.

(** C3 (as stated, refuted).  An allowed-countries list is given, namely
    the empty one, and the matcher applies no restriction: the candidate
    Tokyo is matched to a record in JP, and the full scan of the sample
    text returns both Paris and Tokyo. *)
Lemma empty_allowed_list_ignored :
  findMatches (candidateOf "Tokyo" None) parisTokyoStore true (Some [])
  = Resolved [tokyoJP]
  /\ ~ In (DB.country tokyoJP) []
  /\ (forall localeCompare,
         geocodeText localeCompare visitText parisTokyoStore
           (mkOptions false true (Some []))
         = FullScan [parisFR; tokyoJP] ["FR"; "JP"]).
Proof.
  split; [reflexivity|]. split; [intros []|].
  intros localeCompare. vm_compute. reflexivity.
Qed.

(** C3 (amended).  Whenever a non-empty allowed-countries list is given,
    the records of the chosen scope are first restricted to the countries
    of the list; qualifier or population handling sees the restricted
    records only, and when none is left the matcher returns no match.
    Hence no record returned by the matcher, and no location of a full
    scan, lies outside the list. *)
Theorem findMatches_allowedCountries (allowed : list string) :
  allowed <> [] ->
  (forall c db uco records,
      searchScope db uco (name c) = Resolved records ->
      findMatches c db uco (Some allowed)
      = if List.length (filter (fun r => mem (DB.country r) allowed) records) =? 0
        then Resolved []
        else selectMatches c
               (filter (fun r => mem (DB.country r) allowed) records))
  /\ (forall c db uco found r,
         findMatches c db uco (Some allowed) = Resolved found ->
         In r found -> In (DB.country r) allowed)
  /\ (forall localeCompare text db uco locations codes,
         geocodeText localeCompare text db (mkOptions false uco (Some allowed))
         = FullScan locations codes ->
         forall r, In r locations -> In (DB.country r) allowed).
Proof.
  intros Hne.
  assert (forall c db uco records,
      searchScope db uco (name c) = Resolved records ->
      findMatches c db uco (Some allowed)
      = if List.length (filter (fun r => mem (DB.country r) allowed) records) =? 0
        then Resolved []
        else selectMatches c
               (filter (fun r => mem (DB.country r) allowed) records)) as H1.
  { intros c db uco records Hscope.
    rewrite (findMatches_unfold c db uco (Some allowed) records Hscope).
    unfold survivors. rewrite (filterRequested_nonempty allowed Hne).
    reflexivity. }
  assert (forall c db uco found r,
         findMatches c db uco (Some allowed) = Resolved found ->
         In r found -> In (DB.country r) allowed) as H2.
  { intros c db uco found r Hf Hr.
    destruct (searchScope db uco (name c)) as [records|e] eqn:Hscope.
    - rewrite (H1 c db uco records Hscope) in Hf.
      destruct (List.length (filter (fun r0 => mem (DB.country r0) allowed) records) =? 0).
      + injection Hf as <-. destruct Hr.
      + apply (selectMatches_In _ _ _ r Hf) in Hr.
        apply filter_In in Hr. apply mem_In. tauto.
    - rewrite (findMatches_rejected c db uco (Some allowed) e Hscope) in Hf.
      discriminate. }
  split; [exact H1|]. split; [exact H2|].
  intros localeCompare text db uco locations codes Hg r Hr.
  unfold geocodeText in Hg. simpl in Hg.
  destruct (List.length (extractCandidates text ++ extractCapitalizedWords text) =? 0).
  - injection Hg as <- _. destruct Hr.
  - injection Hg as <- _.
    apply deduplicateFrom_In in Hr. apply matchCandidates_In in Hr.
    destruct Hr as [c [found [_ [Hf Hin]]]].
    eapply H2; eauto.
Qed.

Lemma findMatches_allowedCountries_witness :
  ["FR"] <> []
  /\ geocodeText codeUnitCollation visitText parisTokyoStore
       (mkOptions false true (Some ["FR"]))
     = FullScan [parisFR] ["FR"]
  /\ (forall r, In r [parisFR] -> In (DB.country r) ["FR"]).
Proof.
  assert (["FR"] <> []) as Hne by discriminate.
  assert (geocodeText codeUnitCollation visitText parisTokyoStore
            (mkOptions false true (Some ["FR"]))
          = FullScan [parisFR] ["FR"]) as Hg by (vm_compute; reflexivity).
  split; [exact Hne|]. split; [exact Hg|].
  exact (proj2 (proj2 (findMatches_allowedCountries ["FR"] Hne))
           codeUnitCollation visitText parisTokyoStore true [parisFR] ["FR"] Hg).
Defined.

(** The restricted full scan of the example: with ["FR"] allowed, only the
    Paris location is returned although Tokyo (JP) is in the store. *)
Example fullScan_restricted_to_FR :
  In tokyoJP (DB.countryData parisTokyoStore)
  /\ (forall localeCompare,
         geocodeText localeCompare visitText parisTokyoStore
           (mkOptions false true (Some ["FR"]))
         = FullScan [parisFR] ["FR"]).
Proof.
  split; [left; reflexivity | intros localeCompare; vm_compute; reflexivity].
Qed.

(* ------------------------------------------------------------------ *)
(** ** Insertion-ordered maps *)

Section DictFacts.
Context {V : Type}.







End DictFacts.

(* ------------------------------------------------------------------ *)
(** ** Tallying hits *)






(* ------------------------------------------------------------------ *)
(** ** The sort, for a total and transitive comparator *)

Section SortFacts.
Context {A : Type} (cmp : A -> A -> Z).
Hypothesis le_total : forall a b, precedes cmp a b \/ precedes cmp b a.
Hypothesis le_trans :
  forall a b c, precedes cmp a b -> precedes cmp b c -> precedes cmp a c.

Lemma insert_Permutation (x : A) (l : list A) :
  Permutation (x :: l) (ArraySort.insert cmp x l).
Proof.
  induction l as [|y l IH]; simpl; [reflexivity|].
  destruct (cmp x y <=? 0)%Z; [reflexivity|].
  rewrite perm_swap. constructor. exact IH.
Qed.

Lemma sort_Permutation (l : list A) : Permutation l (ArraySort.sort cmp l).
Proof.
  induction l as [|x l IH]; simpl; [constructor|].
  rewrite <- insert_Permutation. constructor. exact IH.
Qed.

Lemma insert_StronglySorted (x : A) (l : list A) :
  StronglySorted (precedes cmp) l ->
  StronglySorted (precedes cmp) (ArraySort.insert cmp x l).
Proof.
  induction 1 as [|y l Hs IH Hall]; simpl.
  - repeat constructor.
  - destruct (Z.leb_spec (cmp x y) 0) as [Hle|Hgt].
    + constructor; [constructor; assumption|].
      constructor; [exact Hle|].
      eapply Forall_impl; [|exact Hall]. intros z Hz. eapply le_trans; eauto.
    + constructor; [exact IH|].
      apply Forall_forall. intros z Hz.
      apply (insert_In cmp) in Hz. destruct Hz as [->|Hz].
      * destruct (le_total x y) as [H|H]; [unfold precedes in H; lia | exact H].
      * rewrite Forall_forall in Hall. auto.
Qed.

Lemma sort_StronglySorted (l : list A) :
  StronglySorted (precedes cmp) (ArraySort.sort cmp l).
Proof.
  induction l as [|x l IH]; simpl; [constructor|].
  apply insert_StronglySorted. exact IH.
Qed.

End SortFacts.

(* ------------------------------------------------------------------ *)
(** ** Ranking countries *)

Lemma compare_Lt_trans (a b c : string) :
  String.compare a b = Lt -> String.compare b c = Lt -> String.compare a c = Lt.
Proof.
  intros H1 H2. apply String_as_OT.cmp_lt.
  apply String_as_OT.cmp_lt in H1, H2.
  eapply String_as_OT.lt_trans; eauto.
Qed.

Section Collation.
Variable collate : string -> string -> Z.








End Collation.






(* ------------------------------------------------------------------ *)
(** ** Pass B emits every name once *)

Lemma mem_false_not_In (s : string) (l : list string) :
  mem s l = false -> ~ In s l.
Proof.
  intros H Hin. apply mem_In in Hin. congruence.
Qed.






(* ------------------------------------------------------------------ *)
(** ** Soundness of the matcher *)

Lemma repeatMatcher_sound (input : string) (r : RegExp.regex) (m : RegExp.Matcher) :
  (forall x c z, m x c = Some z ->
                 exists y, Matches input r x y /\ c y = Some z) ->
  forall fuel min max x c z,
    min <= fuel ->
    RegExp.repeatMatcher m fuel min max x c = Some z ->
    exists y, Matches input (RegExp.Repeat min max r) x y /\ c y = Some z.
Proof.
  intros Hm. induction fuel as [|fuel IH]; intros min max x c z Hfuel H.
  - assert (c x = Some z) as Hc by (destruct max as [[|n]|]; exact H).
    exists x. split; [|exact Hc]. apply M_repeat_done. left. lia.
  - assert (max = Some 0 \/ max <> Some 0) as [->|Hmax]
      by (destruct max as [[|n]|]; auto; right; discriminate).
    { exists x. split; [apply M_repeat_done; auto | exact H]. }
    assert (forall y,
               (if (min =? 0) && (RegExp.endIndex y =? RegExp.endIndex x)
                then None
                else RegExp.repeatMatcher m fuel (Nat.pred min)
                       (RegExp.predMax max) y c) = Some z ->
               exists y', Matches input
                            (RegExp.Repeat (Nat.pred min) (RegExp.predMax max) r)
                            y y' /\ c y' = Some z) as Hd.
    { intros y Hy.
      destruct ((min =? 0) && (RegExp.endIndex y =? RegExp.endIndex x));
        [discriminate|].
      apply IH in Hy; [exact Hy | lia]. }
    assert (RegExp.repeatMatcher m (S fuel) min max x c
            = let d := fun y =>
                if (min =? 0) && (RegExp.endIndex y =? RegExp.endIndex x)
                then None
                else RegExp.repeatMatcher m fuel (Nat.pred min)
                       (RegExp.predMax max) y c in
              if negb (min =? 0) then m x d
              else match m x d with Some z' => Some z' | None => c x end) as Hunf.
    { destruct max as [[|n]|]; try reflexivity. congruence. }
    rewrite Hunf in H. clear Hunf. simpl in H.
    destruct (min =? 0) eqn:Emin; simpl in H.
    + match type of H with
      | match ?e with _ => _ end = _ => destruct e as [z'|] eqn:Em
      end.
      * injection H as ->. apply Hm in Em. destruct Em as [y [Hxy Hy]].
        apply Hd in Hy. destruct Hy as [y' [Hyy' Hc]].
        exists y'. split; [|exact Hc]. eapply M_repeat_step; eauto.
      * exists x. split; [|exact H]. apply M_repeat_done. left.
        apply Nat.eqb_eq. exact Emin.
    + apply Hm in H. destruct H as [y [Hxy Hy]].
      apply Hd in Hy. destruct Hy as [y' [Hyy' Hc]].
      exists y'. split; [|exact Hc]. eapply M_repeat_step; eauto.
Qed.

(** Whatever the matcher returns, it obtained from its continuation, at a
    state that the pattern reaches. *)
Lemma matcher_sound (input : string) (r : RegExp.regex) :
  forall x c z,
    RegExp.matcher input r x c = Some z ->
    exists y, Matches input r x y /\ c y = Some z.
Proof.
  induction r as [p|r1 IH1 r2 IH2|min max r IH|n r IH|]; intros x c z H; simpl in H.
  - destruct (String.get (RegExp.endIndex x) input) as [ch|] eqn:Eg; [|discriminate].
    destruct (p ch) eqn:Ep; [|discriminate].
    eexists. split; [eapply M_class; eauto | exact H].
  - apply IH1 in H. destruct H as [y [Hxy H]].
    apply IH2 in H. destruct H as [y' [Hyy' H]].
    exists y'. split; [eapply M_seq; eauto | exact H].
  - eapply repeatMatcher_sound; [exact IH| |exact H]. lia.
  - apply IH in H. destruct H as [y [Hxy H]].
    eexists. split; [apply M_group; exact Hxy | exact H].
  - destruct (RegExp.atWordBoundary input (RegExp.endIndex x)) eqn:Eb; [|discriminate].
    exists x. split; [apply M_boundary; exact Eb | exact H].
Qed.

Lemma Matches_endIndex_le (input : string) (r : RegExp.regex)
    (x y : RegExp.MatchState) :
  Matches input r x y -> RegExp.endIndex x <= RegExp.endIndex y.
Proof.
  induction 1; simpl; lia.
Qed.

(** A greedy repetition stops either where it started or at the end of a
    round of its body. *)
Lemma repeat_ends (input : string) (r : RegExp.regex)
    (Q : RegExp.MatchState -> Prop) :
  (forall a b, Matches input r a b -> Q b) ->
  forall lo hi x y,
    Matches input (RegExp.Repeat lo hi r) x y -> y = x \/ Q y.
Proof.
  intros HQ lo hi x y H.
  remember (RegExp.Repeat lo hi r) as R eqn:ER.
  revert lo hi ER.
  induction H as [| | |lo' hi' r' x y z Hbody _ Hrest IHrest| |];
    intros lo hi ER; try discriminate.
  - left. reflexivity.
  - injection ER as -> -> ->.
    destruct (IHrest _ _ eq_refl) as [->|Hz]; right; [eapply HQ; eauto | exact Hz].
Qed.

Lemma plus_ends (input : string) (r : RegExp.regex)
    (Q : RegExp.MatchState -> Prop) (x y : RegExp.MatchState) :
  (forall a b, Matches input r a b -> Q b) ->
  Matches input (RegExp.Plus r) x y -> Q y.
Proof.
  intros HQ H. unfold RegExp.Plus in H.
  inversion H as [| |? ? ? ? Hdone| ? ? ? ? y1 ? Hbody Hrest| |]; subst.
  - destruct Hdone; discriminate.
  - simpl in Hrest.
    destruct (repeat_ends input r Q HQ _ _ _ _ Hrest) as [->|Hy];
      [eapply HQ; eauto | exact Hy].
Qed.

Lemma lowercase_class_ends (input : string) (a b : RegExp.MatchState) :
  Matches input (RegExp.CharClass isLower) a b -> endsInLowercase input b.
Proof.
  intros H. inversion H as [p x ch Hget Hp| | | | |]; subst.
  exists (RegExp.endIndex a), ch. simpl. auto.
Qed.

Lemma lowercase_run_ends (input : string) (a b : RegExp.MatchState) :
  Matches input (RegExp.Plus (RegExp.CharClass isLower)) a b ->
  endsInLowercase input b.
Proof.
  apply plus_ends. apply lowercase_class_ends.
Qed.

Lemma next_word_ends (input : string) (a b : RegExp.MatchState) :
  Matches input
    (RegExp.Seq (RegExp.Plus (RegExp.CharClass isWhiteSpace))
       (RegExp.Seq (RegExp.CharClass isUpper)
          (RegExp.Plus (RegExp.CharClass isLower)))) a b ->
  endsInLowercase input b.
Proof.
  intros H.
  inversion H as [|? ? ? a1 ? Hspace Hword| | | |]; subst.
  inversion Hword as [|? ? ? a2 ? Hupper Hrun| | | |]; subst.
  eapply lowercase_run_ends; eauto.
Qed.

(** Every match of the capitalised-word pattern ends at a word boundary,
    right after a lower-case letter. *)
Lemma pattern2_end (input : string) (x y : RegExp.MatchState) :
  Matches input pattern2 x y ->
  RegExp.atWordBoundary input (RegExp.endIndex y) = true
  /\ endsInLowercase input y
  /\ RegExp.endIndex x <= RegExp.endIndex y.
Proof.
  intros H. pose proof (Matches_endIndex_le _ _ _ _ H) as Hle.
  unfold pattern2 in H.
  inversion H as [|? ? ? x0 ? Hb1 Hrest| | | |]; subst. clear H.
  inversion Hb1; subst. clear Hb1.
  inversion Hrest as [|? ? ? y1 ? Hgroup Hb2| | | |]; subst. clear Hrest.
  inversion Hb2 as [| | | | |? Hboundary]; subst. clear Hb2.
  inversion Hgroup as [| | | |? ? ? yb Hbody|]; subst. clear Hgroup.
  simpl in *. split; [exact Hboundary|]. split; [|exact Hle].
  assert (endsInLowercase input yb) as [k [ch [Hk [Hget Hlow]]]].
  { inversion Hbody as [|? ? ? x1 ? Hupper Htail| | | |]; subst. clear Hbody.
    inversion Htail as [|? ? ? x2 ? Hrun Hmore| | | |]; subst. clear Htail.
    pose proof (lowercase_run_ends _ _ _ Hrun) as Hx2.
    destruct (repeat_ends input _ (endsInLowercase input)
                (next_word_ends input) _ _ _ _ Hmore) as [->|Hyb]; assumption. }
  exists k, ch. simpl. auto.
Qed.

(* ------------------------------------------------------------------ *)
(** ** The character after a Pass-B match *)

Lemma get_Some_lt (s : string) (n : nat) (c : ascii) :
  String.get n s = Some c -> n < String.length s.
Proof.
  revert n. induction s as [|a s IH]; intros n H; simpl in *; [discriminate|].
  destruct n as [|n]; [lia|]. apply IH in H. lia.
Qed.

Lemma substring_length (s : string) (n m : nat) :
  n + m <= String.length s -> String.length (String.substring n m s) = m.
Proof.
  revert n m. induction s as [|a s IH]; intros n m H; simpl in *.
  - assert (n = 0) by lia. assert (m = 0) by lia. subst. reflexivity.
  - destruct n as [|n].
    + destruct m as [|m]; simpl; [reflexivity|].
      f_equal. apply IH. simpl. lia.
    + apply IH. lia.
Qed.

Lemma isLower_isWordChar (c : ascii) : isLower c = true -> isWordChar c = true.
Proof.
  intros H. unfold isWordChar, isAlpha. rewrite H.
  rewrite orb_true_r. reflexivity.
Qed.

(** What [exec] returns for the capitalised-word pattern: a match that
    starts at or after [lastIndex], ends after a lower-case letter where a
    word boundary is, and whose element [0] spans it. *)
Lemma exec_pattern2_shape (text : string) (i : nat) (m : RegExp.MatchResult) :
  RegExp.exec pattern2 text i = Some m ->
  i <= RegExp.index m
  /\ RegExp.index m < RegExp.lastIndex m
  /\ RegExp.lastIndex m <= String.length text
  /\ RegExp.matched m
     = Str.substring (RegExp.index m) (RegExp.lastIndex m) text
  /\ RegExp.atWordBoundary text (RegExp.lastIndex m) = true
  /\ endsInLowercase text (RegExp.mkState (RegExp.lastIndex m) []).
Proof.
  unfold RegExp.exec. generalize (S (String.length text) - i) as tries.
  intros tries. revert i.
  remember pattern2 as r eqn:Er.
  induction tries as [|tries IH]; intros i H; simpl in H; [discriminate|].
  destruct (RegExp.matcher text r (RegExp.mkState i []) (fun y => Some y))
    as [y|] eqn:Em.
  - injection H as <-. simpl. subst r.
    apply matcher_sound in Em. destruct Em as [y0 [Hm [= ->]]].
    pose proof Hm as Hm'. apply pattern2_end in Hm'.
    destruct Hm' as [Hb [[k [ch [Hk [Hget Hlow]]]] Hle]]. simpl in Hle.
    assert (i < RegExp.endIndex y) as Hlt.
    { unfold pattern2 in Hm.
      inversion Hm as [|? ? ? x0 ? Hb1 Hrest| | | |]; subst.
      inversion Hb1; subst.
      inversion Hrest as [|? ? ? y1 ? Hgroup Hb2| | | |]; subst.
      inversion Hb2; subst.
      inversion Hgroup as [| | | |? ? ? yb Hbody|]; subst.
      inversion Hbody as [|? ? ? x1 ? Hupper Htail| | | |]; subst.
      inversion Hupper; subst.
      apply Matches_endIndex_le in Htail. simpl in *. lia. }
    repeat split; auto; try lia.
    + apply get_Some_lt in Hget. lia.
    + exists k, ch. simpl. auto.
  - apply IH in H. destruct H as [H1 H2]. split; [lia | exact H2].
Qed.

Lemma exec_pattern2_next (text : string) (i : nat) (m : RegExp.MatchResult) :
  RegExp.exec pattern2 text i = Some m ->
  followedByLowercase text m = false.
Proof.
  intros H. apply exec_pattern2_shape in H.
  destruct H as [_ [Hlt [Hlen [Hmatched [Hb [k [ch [Hk [Hget Hlow]]]]]]]]].
  simpl in Hk.
  unfold followedByLowercase, charAt. rewrite Hmatched. unfold Str.substring.
  rewrite substring_length by lia.
  replace (RegExp.index m + (RegExp.lastIndex m - RegExp.index m))
    with (RegExp.lastIndex m) by lia.
  destruct (String.get (RegExp.lastIndex m) text) as [next|] eqn:Enext;
    [|reflexivity].
  destruct (isLower next) eqn:Elow; [|reflexivity].
  exfalso. unfold RegExp.atWordBoundary in Hb. rewrite Hk in Hb.
  unfold RegExp.isWordCharAt in Hb. rewrite Hget in Hb.
  rewrite <- Hk, Enext in Hb.
  rewrite (isLower_isWordChar ch Hlow), (isLower_isWordChar next Elow) in Hb.
  discriminate.
Qed.

Lemma extractCapitalizedWordsLoop_same (fuel : nat) (text : string) (i : nat)
    (seen : list string) (candidates : list Candidate) :
  extractCapitalizedWordsLoop fuel text i seen candidates
  = extractCapitalizedWordsLoop_noNextChar fuel text i seen candidates.
Proof.
  revert i seen candidates.
  induction fuel as [|fuel IH]; intros i seen candidates; simpl; [reflexivity|].
  destruct (RegExp.exec pattern2 text i) as [m|] eqn:Em; [|reflexivity].
  rewrite (exec_pattern2_next text i m Em).
  destruct (mem (toLowerCase (trim (RegExp.group text m 1))) seen); [apply IH|].
  destruct (isStopWord (trim (RegExp.group text m 1))
            || isCommonFalsePositive (trim (RegExp.group text m 1)));
    apply IH.
Qed.

(** C10.  No match of the capitalised-word pattern is immediately followed
    by a lower-case ASCII letter: the match ends in [[a-z]] and [\b] holds
    right after it.  The test "lowercase after" of Pass B therefore never
    succeeds, and Pass B returns the same candidates, for every text, when
    that test is removed. *)
Theorem nextChar_test_never_taken :
  (forall text lastIdx m,
      RegExp.exec pattern2 text lastIdx = Some m ->
      followedByLowercase text m = false)
  /\ (forall text,
         extractCapitalizedWords text = extractCapitalizedWords_noNextChar text).
Proof.
  split.
  - exact exec_pattern2_next.
  - intros text. apply extractCapitalizedWordsLoop_same.
Qed.

(** "Paris" inside "Parisian": the pattern matches the whole word, so the
    character after the match is not a lower-case letter. *)
Example parisian_matched_whole :
  option_map RegExp.matched (RegExp.exec pattern2 "a Parisian cafe" 0)
  = Some "Parisian"
  /\ option_map (followedByLowercase "a Parisian cafe")
       (RegExp.exec pattern2 "a Parisian cafe" 0)
     = Some false.
Proof. split; reflexivity. Qed.

(* ------------------------------------------------------------------ *)
(** ** The round counter of [repeatMatcher] never runs out *)

Lemma Matches_in_bounds (input : string) (r : RegExp.regex)
    (x y : RegExp.MatchState) :
  Matches input r x y ->
  RegExp.endIndex x <= String.length input ->
  RegExp.endIndex y <= String.length input.
Proof.
  induction 1 as [p x ch Hget Hp| | | | |]; simpl; intros Hx; auto.
  apply get_Some_lt in Hget. lia.
Qed.

Lemma matcher_progress (input : string) (r : RegExp.regex)
    (x : RegExp.MatchState) (c : RegExp.Continuation) (z : RegExp.MatchState) :
  RegExp.endIndex x <= String.length input ->
  RegExp.matcher input r x c = Some z ->
  exists y,
    RegExp.endIndex x <= RegExp.endIndex y
    /\ RegExp.endIndex y <= String.length input
    /\ c y = Some z.
Proof.
  intros Hx H. apply matcher_sound in H. destruct H as [y [Hm Hc]].
  exists y. split; [eapply Matches_endIndex_le; eauto|].
  split; [eapply Matches_in_bounds; eauto | exact Hc].
Qed.

Lemma repeatMatcher_unfold (m : RegExp.Matcher) (fuel min : nat)
    (max : option nat) (x : RegExp.MatchState) (c : RegExp.Continuation) :
  max <> Some 0 ->
  RegExp.repeatMatcher m (S fuel) min max x c
  = if negb (min =? 0) then m x (repeatContinuation m fuel min max x c)
    else match m x (repeatContinuation m fuel min max x c) with
         | Some z => Some z
         | None => c x
         end.
Proof.
  intros Hmax. destruct max as [[|n]|]; try reflexivity. congruence.
Qed.

Lemma repeatMatcher_stop (m : RegExp.Matcher) (fuel min : nat)
    (max : option nat) (x : RegExp.MatchState) (c : RegExp.Continuation) :
  max = Some 0 \/ fuel = 0 ->
  RegExp.repeatMatcher m fuel min max x c = c x.
Proof.
  intros [->| ->].
  - destruct fuel; reflexivity.
  - destruct max as [[|n]|]; reflexivity.
Qed.

Lemma max_cases (max : option nat) : max = Some 0 \/ max <> Some 0.
Proof. destruct max as [[|n]|]; auto; right; discriminate. Qed.

Section RepeatFuel.
Variables (input : string) (m : RegExp.Matcher).
Hypothesis m_ext :
  forall x c1 c2,
    RegExp.endIndex x <= String.length input ->
    agreeFrom input x c1 c2 -> m x c1 = m x c2.
Hypothesis m_progress :
  forall x c z,
    RegExp.endIndex x <= String.length input ->
    m x c = Some z ->
    exists y,
      RegExp.endIndex x <= RegExp.endIndex y
      /\ RegExp.endIndex y <= String.length input
      /\ c y = Some z.

Lemma repeatMatcher_ext (fuel min : nat) (max : option nat)
    (x : RegExp.MatchState) (c1 c2 : RegExp.Continuation) :
  RegExp.endIndex x <= String.length input ->
  agreeFrom input x c1 c2 ->
  RegExp.repeatMatcher m fuel min max x c1
  = RegExp.repeatMatcher m fuel min max x c2.
Proof.
  revert min max x.
  induction fuel as [|fuel IH]; intros min max x Hx Hc.
  - rewrite !repeatMatcher_stop by auto. apply Hc; lia.
  - destruct (max_cases max) as [Hmax|Hmax].
    { rewrite !repeatMatcher_stop by auto. apply Hc; lia. }
    rewrite !repeatMatcher_unfold by assumption.
    assert (m x (repeatContinuation m fuel min max x c1)
            = m x (repeatContinuation m fuel min max x c2)) as ->.
    { apply m_ext; [exact Hx|]. intros y Hy Hlen. unfold repeatContinuation.
      destruct ((min =? 0) && (RegExp.endIndex y =? RegExp.endIndex x));
        [reflexivity|].
      apply IH; [exact Hlen|].
      intros w Hw Hwl. apply Hc; lia. }
    rewrite (Hc x) by lia. reflexivity.
Qed.

Lemma repeatMatcher_one_more (fuel min : nat) (max : option nat)
    (x : RegExp.MatchState) (c : RegExp.Continuation) :
  RegExp.endIndex x <= String.length input ->
  min + (String.length input - RegExp.endIndex x) <= fuel ->
  RegExp.repeatMatcher m (S fuel) min max x c
  = RegExp.repeatMatcher m fuel min max x c.
Proof.
  revert min max x.
  induction fuel as [|fuel IH]; intros min max x Hx Hfuel.
  - destruct (max_cases max) as [Hmax|Hmax].
    { rewrite !repeatMatcher_stop by auto. reflexivity. }
    rewrite repeatMatcher_unfold by assumption.
    rewrite (repeatMatcher_stop m 0 min max x c) by auto.
    assert (min = 0) as -> by lia. simpl.
    destruct (m x (repeatContinuation m 0 0 max x c)) as [z|] eqn:Em;
      [|reflexivity].
    exfalso. apply m_progress in Em; [|exact Hx].
    destruct Em as [y [Hy [Hlen Hd]]]. unfold repeatContinuation in Hd.
    assert (RegExp.endIndex y = RegExp.endIndex x) as Heq by lia.
    destruct (Nat.eqb_spec (RegExp.endIndex y) (RegExp.endIndex x));
      [simpl in Hd; discriminate | contradiction].
  - destruct (max_cases max) as [Hmax|Hmax].
    { rewrite !repeatMatcher_stop by auto. reflexivity. }
    rewrite !repeatMatcher_unfold by assumption.
    assert (m x (repeatContinuation m (S fuel) min max x c)
            = m x (repeatContinuation m fuel min max x c)) as ->;
      [|reflexivity].
    apply m_ext; [exact Hx|]. intros y Hy Hlen. unfold repeatContinuation.
    destruct (min =? 0) eqn:Emin; simpl.
    + destruct (Nat.eqb_spec (RegExp.endIndex y) (RegExp.endIndex x));
        [reflexivity|].
      apply Nat.eqb_eq in Emin. apply IH; [exact Hlen | lia].
    + apply Nat.eqb_neq in Emin. apply IH; [exact Hlen | lia].
Qed.

Lemma repeatMatcher_more_fuel (extra fuel min : nat) (max : option nat)
    (x : RegExp.MatchState) (c : RegExp.Continuation) :
  RegExp.endIndex x <= String.length input ->
  min + (String.length input - RegExp.endIndex x) <= fuel ->
  RegExp.repeatMatcher m (fuel + extra) min max x c
  = RegExp.repeatMatcher m fuel min max x c.
Proof.
  intros Hx Hfuel. induction extra as [|extra IH].
  - rewrite Nat.add_0_r. reflexivity.
  - rewrite Nat.add_succ_r, repeatMatcher_one_more by lia. exact IH.
Qed.

End RepeatFuel.

Lemma matcher_ext (input : string) (r : RegExp.regex) :
  forall x c1 c2,
    RegExp.endIndex x <= String.length input ->
    agreeFrom input x c1 c2 ->
    RegExp.matcher input r x c1 = RegExp.matcher input r x c2.
Proof.
  induction r as [p|r1 IH1 r2 IH2|min max r IH|n r IH|];
    intros x c1 c2 Hx Hc; simpl.
  - destruct (String.get (RegExp.endIndex x) input) as [ch|] eqn:Eg; [|reflexivity].
    destruct (p ch); [|reflexivity].
    apply get_Some_lt in Eg. apply Hc; simpl; lia.
  - apply IH1; [exact Hx|]. intros y Hy Hlen.
    apply IH2; [exact Hlen|]. intros w Hw Hwl. apply Hc; lia.
  - apply (repeatMatcher_ext input (RegExp.matcher input r) IH); assumption.
  - apply IH; [exact Hx|]. intros y Hy Hlen. apply Hc; simpl; lia.
  - destruct (RegExp.atWordBoundary input (RegExp.endIndex x)); [|reflexivity].
    apply Hc; lia.
Qed.

(** The number of rounds that [matcher] grants a repetition is enough:
    granting more changes nothing. *)
Theorem repeat_fuel_adequate (input : string) (r : RegExp.regex)
    (min : nat) (max : option nat) (x : RegExp.MatchState)
    (c : RegExp.Continuation) (extra : nat) :
  RegExp.endIndex x <= String.length input ->
  RegExp.repeatMatcher (RegExp.matcher input r)
    (min + (String.length input - RegExp.endIndex x) + extra) min max x c
  = RegExp.matcher input (RegExp.Repeat min max r) x c.
Proof.
  intros Hx. simpl.
  apply (repeatMatcher_more_fuel input (RegExp.matcher input r)).
  - intros x0 c1 c2. apply matcher_ext.
  - intros x0 c0 z Hx0. apply matcher_progress. exact Hx0.
  - exact Hx.
  - lia.
Qed.

(* ------------------------------------------------------------------ *)
(** ** The extraction loops terminate within their fuel *)

Lemma execFrom_Matches (r : RegExp.regex) (text : string) (tries i : nat)
    (m : RegExp.MatchResult) :
  RegExp.execFrom r text tries i = Some m ->
  exists y,
    i <= RegExp.index m
    /\ RegExp.index m < i + tries
    /\ Matches text r (RegExp.mkState (RegExp.index m) []) y
    /\ RegExp.lastIndex m = RegExp.endIndex y
    /\ RegExp.matched m
       = Str.substring (RegExp.index m) (RegExp.endIndex y) text
    /\ RegExp.spans m = RegExp.captures y.
Proof.
  revert i. induction tries as [|tries IH]; intros i H; simpl in H; [discriminate|].
  destruct (RegExp.matcher text r (RegExp.mkState i []) (fun y => Some y))
    as [y|] eqn:Em.
  - injection H as <-. simpl.
    apply matcher_sound in Em. destruct Em as [y0 [Hm [= ->]]].
    exists y. repeat split; auto; lia.
  - apply IH in H. destruct H as [y [H1 [H2 H3]]].
    exists y. repeat split; try tauto; lia.
Qed.

Lemma exec_Matches (r : RegExp.regex) (text : string) (i : nat)
    (m : RegExp.MatchResult) :
  RegExp.exec r text i = Some m ->
  exists y,
    i <= RegExp.index m
    /\ RegExp.index m <= String.length text
    /\ Matches text r (RegExp.mkState (RegExp.index m) []) y
    /\ RegExp.lastIndex m = RegExp.endIndex y
    /\ RegExp.lastIndex m <= String.length text
    /\ RegExp.matched m
       = Str.substring (RegExp.index m) (RegExp.endIndex y) text
    /\ RegExp.spans m = RegExp.captures y.
Proof.
  unfold RegExp.exec. intros H. apply execFrom_Matches in H.
  destruct H as [y [H1 [H2 [H3 [H4 [H5 H6]]]]]].
  assert (RegExp.index m <= String.length text) as Hidx by lia.
  exists y. repeat split; auto.
  rewrite H4. eapply Matches_in_bounds; eauto.
Qed.

Lemma capitalizedWords_starts (text : string) (x y : RegExp.MatchState) :
  Matches text capitalizedWords x y ->
  RegExp.endIndex x < RegExp.endIndex y
  /\ exists ch, String.get (RegExp.endIndex x) text = Some ch
                /\ isUpper ch = true.
Proof.
  intros H. unfold capitalizedWords in H.
  inversion H as [|? ? ? x1 ? Hupper Htail| | | |]; subst.
  inversion Hupper as [p x' ch Hget Hp| | | | |]; subst.
  apply Matches_endIndex_le in Htail. simpl in Htail.
  split; [lia | eauto].
Qed.

Lemma pattern1_progress (text : string) (x y : RegExp.MatchState) :
  Matches text pattern1 x y -> RegExp.endIndex x < RegExp.endIndex y.
Proof.
  intros H. unfold pattern1 in H.
  inversion H as [|? ? ? x0 ? Hb1 Hrest| | | |]; subst.
  inversion Hb1; subst.
  inversion Hrest as [|? ? ? y1 ? Hgroup Hafter| | | |]; subst.
  inversion Hgroup as [| | | |? ? ? yb Hbody|]; subst.
  apply capitalizedWords_starts in Hbody. destruct Hbody as [Hlt _].
  apply Matches_endIndex_le in Hafter. simpl in Hafter. lia.
Qed.

Lemma exec_pattern1_advances (text : string) (i : nat) (m : RegExp.MatchResult) :
  RegExp.exec pattern1 text i = Some m ->
  i < RegExp.lastIndex m /\ RegExp.lastIndex m <= String.length text.
Proof.
  intros H. apply exec_Matches in H.
  destruct H as [y [H1 [H2 [H3 [H4 [H5 _]]]]]].
  apply pattern1_progress in H3. simpl in H3. lia.
Qed.

Lemma exec_pattern2_advances (text : string) (i : nat) (m : RegExp.MatchResult) :
  RegExp.exec pattern2 text i = Some m ->
  i < RegExp.lastIndex m /\ RegExp.lastIndex m <= String.length text.
Proof.
  intros H. apply exec_pattern2_shape in H. lia.
Qed.

Lemma extractCandidatesLoop_more_fuel (extra fuel : nat) (text : string)
    (i : nat) (candidates : list Candidate) :
  String.length text - i < fuel ->
  extractCandidatesLoop (fuel + extra) text i candidates
  = extractCandidatesLoop fuel text i candidates.
Proof.
  revert i candidates.
  induction fuel as [|fuel IH]; intros i candidates Hfuel; [lia|]. simpl.
  destruct (RegExp.exec pattern1 text i) as [m|] eqn:Em; [|reflexivity].
  apply exec_pattern1_advances in Em.
  destruct (isStopWord (trim (RegExp.group text m 1))); apply IH; lia.
Qed.

Lemma extractCapitalizedWordsLoop_more_fuel (extra fuel : nat) (text : string)
    (i : nat) (seen : list string) (candidates : list Candidate) :
  String.length text - i < fuel ->
  extractCapitalizedWordsLoop (fuel + extra) text i seen candidates
  = extractCapitalizedWordsLoop fuel text i seen candidates.
Proof.
  revert i seen candidates.
  induction fuel as [|fuel IH]; intros i seen candidates Hfuel; [lia|]. simpl.
  destruct (RegExp.exec pattern2 text i) as [m|] eqn:Em; [|reflexivity].
  apply exec_pattern2_advances in Em.
  destruct (mem (toLowerCase (trim (RegExp.group text m 1))) seen);
    [apply IH; lia|].
  destruct (isStopWord (trim (RegExp.group text m 1))
            || isCommonFalsePositive (trim (RegExp.group text m 1)));
    [apply IH; lia|].
  destruct (followedByLowercase text m); apply IH; lia.
Qed.

(** Both passes leave their loop because [exec] returned [null], never
    because the bound on the number of rounds was reached: a larger bound
    gives the same candidates. *)
Theorem extraction_fuel_adequate (text : string) (extra : nat) :
  extractCandidatesLoop (S (String.length text) + extra) text 0 []
  = extractCandidates text
  /\ extractCapitalizedWordsLoop (S (String.length text) + extra) text 0 [] []
     = extractCapitalizedWords text.
Proof.
  split.
  - apply extractCandidatesLoop_more_fuel. lia.
  - apply extractCapitalizedWordsLoop_more_fuel. lia.
Qed.

(* ------------------------------------------------------------------ *)
(** ** The qualifiers of extracted candidates *)


Lemma substring_head (text : string) (s e : nat) (ch : ascii) :
  String.get s text = Some ch -> s < e ->
  exists rest, Str.substring s e text = String ch rest.
Proof.
  unfold Str.substring. revert s e.
  induction text as [|a text IH]; intros s e Hget Hlt; simpl in Hget;
    [discriminate|].
  destruct s as [|s].
  - injection Hget as ->. destruct e as [|e]; [lia|].
    simpl. eauto.
  - destruct e as [|e]; [lia|].
    simpl. apply IH; [exact Hget | lia].
Qed.

Lemma isUpper_not_whitespace (ch : ascii) :
  isUpper ch = true -> isWhiteSpace ch = false.
Proof.
  unfold isUpper, isWhiteSpace, inRange. intros H.
  apply andb_true_iff in H. destruct H as [H1 H2].
  apply Nat.leb_le in H1. apply Nat.leb_le in H2.
  destruct ((9 <=? Chars.code ch) && (Chars.code ch <=? 13) || (Chars.code ch =? 32)) eqn:E;
    [|reflexivity].
  apply orb_true_iff in E. destruct E as [E|E].
  - apply andb_true_iff in E. destruct E as [_ E]. apply Nat.leb_le in E. lia.
  - apply Nat.eqb_eq in E. lia.
Qed.





(* ------------------------------------------------------------------ *)
(** ** Qualified candidates *)




(** A record whose country code names a member of [Object.prototype]
    makes the qualifier filter throw: [findMatches] rejects, and
    [matchCandidates] skips the candidate although Paris (FR) is named by
    the qualifier. *)
Example findMatches_inherited_name :
  searchScope oddStore true "Paris" = Resolved [parisFR; parisOdd]
  /\ findMatches (candidateOf "Paris" (Some "France")) oddStore true None
     = Rejected TypeError
  /\ matchCandidates [candidateOf "Paris" (Some "France")] oddStore true None = [].
Proof. repeat split. Qed.

(** The "City, Qualifier" candidate of the sample text, as extracted, is
    resolved to Paris (FR) although Paris (US, TX) has the same name. *)
Example extracted_paris_france :
  extractCandidates visitText
  = [mkCandidate "Paris" (Some "France") CityQualifier High visitText 10]
  /\ findMatches (mkCandidate "Paris" (Some "France") CityQualifier High visitText 10)
       parisStore true None
     = Resolved [parisFR].
Proof. split; vm_compute; reflexivity. Qed.

(* ------------------------------------------------------------------ *)
(** ** Instances *)


Lemma nextChar_test_never_taken_witness :
  RegExp.exec pattern2 "a Parisian cafe" 0
  = Some (RegExp.mkMatch 2 10 "Parisian" [(1, (2, 10))])
  /\ followedByLowercase "a Parisian cafe"
       (RegExp.mkMatch 2 10 "Parisian" [(1, (2, 10))]) = false.
Proof.
  assert (RegExp.exec pattern2 "a Parisian cafe" 0
          = Some (RegExp.mkMatch 2 10 "Parisian" [(1, (2, 10))])) as H
    by reflexivity.
  split; [exact H|].
  exact (proj1 nextChar_test_never_taken "a Parisian cafe" 0 _ H).
Defined.

(* ================================================================== *)
(** * Text helpers *)

Lemma code_ascii_of_nat (n : nat) : n < 256 -> Chars.code (ascii_of_nat n) = n.
Proof. intros H. unfold Chars.code. apply nat_ascii_embedding. exact H. Qed.

Lemma inRange_bounds (lo hi : nat) (c : ascii) :
  inRange lo hi c = true <-> lo <= Chars.code c <= hi.
Proof.
  unfold inRange. rewrite andb_true_iff, !Nat.leb_le. tauto.
Qed.

Lemma inRange_false (lo hi : nat) (c : ascii) :
  inRange lo hi c = false <-> Chars.code c < lo \/ hi < Chars.code c.
Proof.
  unfold inRange. rewrite andb_false_iff, !Nat.leb_gt. tauto.
Qed.

Lemma toLower_upper_code (c : ascii) :
  isUpper c = true -> Chars.code (toLower c) = Chars.code c + 32.
Proof.
  intros H. unfold toLower. rewrite H.
  apply inRange_bounds in H. apply code_ascii_of_nat. lia.
Qed.

Lemma isWhiteSpace_spec (c : ascii) :
  isWhiteSpace c = true <-> 9 <= Chars.code c <= 13 \/ Chars.code c = 32.
Proof.
  unfold isWhiteSpace. rewrite orb_true_iff, inRange_bounds, Nat.eqb_eq. tauto.
Qed.

Lemma isWhiteSpace_toLower (c : ascii) :
  isWhiteSpace (toLower c) = isWhiteSpace c.
Proof.
  destruct (isUpper c) eqn:Hup.
  - pose proof (toLower_upper_code c Hup) as Hc.
    apply inRange_bounds in Hup.
    destruct (isWhiteSpace (toLower c)) eqn:E1, (isWhiteSpace c) eqn:E2;
      try reflexivity.
    + apply isWhiteSpace_spec in E1. lia.
    + apply isWhiteSpace_spec in E2. lia.
  - unfold toLower. rewrite Hup. reflexivity.
Qed.

Lemma toLower_not_upper (c : ascii) : isUpper (toLower c) = false.
Proof.
  destruct (isUpper c) eqn:Hup.
  - pose proof (toLower_upper_code c Hup) as Hc.
    apply inRange_bounds in Hup.
    apply inRange_false. lia.
  - unfold toLower. rewrite Hup. exact Hup.
Qed.

Lemma toLower_idempotent (c : ascii) : toLower (toLower c) = toLower c.
Proof.
  unfold toLower at 1. rewrite toLower_not_upper. reflexivity.
Qed.

Lemma toLowerCase_idempotent (s : string) :
  toLowerCase (toLowerCase s) = toLowerCase s.
Proof.
  unfold toLowerCase. induction s as [|c s IH]; simpl; [reflexivity|].
  rewrite toLower_idempotent, IH. reflexivity.
Qed.

Lemma toLower_space_fixed (c : ascii) : isWhiteSpace c = true -> toLower c = c.
Proof.
  intros H. unfold toLower.
  destruct (isUpper c) eqn:Hup; [|reflexivity].
  apply isWhiteSpace_spec in H. apply inRange_bounds in Hup. lia.
Qed.

Lemma toLowerCase_collapseFrom (b : bool) (s : string) :
  toLowerCase (collapseFrom b s) = collapseFrom b (toLowerCase s).
Proof.
  unfold toLowerCase. revert b. induction s as [|c s IH]; intros b; simpl;
    [reflexivity|].
  rewrite isWhiteSpace_toLower.
  destruct (isWhiteSpace c); [destruct b|]; simpl; rewrite ?IH; reflexivity.
Qed.

Lemma toLowerCase_trimStart (s : string) :
  toLowerCase (trimStart s) = trimStart (toLowerCase s).
Proof.
  unfold toLowerCase. induction s as [|c s IH]; simpl; [reflexivity|].
  rewrite isWhiteSpace_toLower. destruct (isWhiteSpace c); [exact IH|reflexivity].
Qed.

Lemma toLowerCase_trimEnd (s : string) :
  toLowerCase (trimEnd s) = trimEnd (toLowerCase s).
Proof.
  unfold toLowerCase. induction s as [|c s IH]; simpl; [reflexivity|].
  rewrite <- IH, isWhiteSpace_toLower.
  destruct (trimEnd s); simpl; [destruct (isWhiteSpace c)|]; reflexivity.
Qed.

Lemma toLowerCase_normalizeText (s : string) :
  toLowerCase (normalizeText s) = normalizeText s.
Proof.
  unfold normalizeText, trim, collapseWhitespace, removeDiacritics, normalizeNFD.
  rewrite toLowerCase_trimEnd, toLowerCase_trimStart, toLowerCase_collapseFrom,
    toLowerCase_idempotent.
  reflexivity.
Qed.

Lemma collapseFrom_collapsed (b : bool) (s : string) :
  collapsedFrom b (collapseFrom b s) = true.
Proof.
  revert b. induction s as [|c s IH]; intros b; simpl; [reflexivity|].
  destruct (isWhiteSpace c) eqn:E.
  - destruct b; [apply IH|]. simpl. apply IH.
  - simpl. rewrite E. apply IH.
Qed.

Lemma collapsed_fixed (b : bool) (s : string) :
  collapsedFrom b s = true -> collapseFrom b s = s.
Proof.
  revert b. induction s as [|c s IH]; intros b H; simpl in *; [reflexivity|].
  destruct (isWhiteSpace c).
  - apply andb_true_iff in H. destruct H as [H H3].
    apply andb_true_iff in H. destruct H as [H1 H2].
    destruct b; [discriminate|].
    apply Ascii.eqb_eq in H2. subst c. rewrite (IH true H3). reflexivity.
  - rewrite (IH false H). reflexivity.
Qed.

Lemma trimStart_collapsed (b : bool) (s : string) :
  collapsedFrom b s = true -> collapsedFrom false (trimStart s) = true.
Proof.
  revert b. induction s as [|c s IH]; intros b H; simpl in *; [reflexivity|].
  destruct (isWhiteSpace c) eqn:E.
  - apply andb_true_iff in H. destruct H as [_ H]. eapply IH; eauto.
  - simpl. rewrite E. exact H.
Qed.

Lemma trimEnd_collapsed (b : bool) (s : string) :
  collapsedFrom b s = true -> collapsedFrom b (trimEnd s) = true.
Proof.
  revert b. induction s as [|c s IH]; intros b H; simpl in *; [reflexivity|].
  destruct (isWhiteSpace c) eqn:E.
  - apply andb_true_iff in H. destruct H as [H12 H3].
    specialize (IH true H3).
    destruct (trimEnd s) as [|a t]; [reflexivity|].
    simpl in *. rewrite E, H12. exact IH.
  - specialize (IH false H).
    destruct (trimEnd s) as [|a t]; simpl in *; rewrite E; [reflexivity | exact IH].
Qed.

Lemma trimStart_noLeadingSpace (s : string) : noLeadingSpace (trimStart s) = true.
Proof.
  induction s as [|c s IH]; simpl; [reflexivity|].
  destruct (isWhiteSpace c) eqn:E; [exact IH|]. simpl. rewrite E. reflexivity.
Qed.

Lemma trimEnd_noLeadingSpace (s : string) :
  noLeadingSpace s = true -> noLeadingSpace (trimEnd s) = true.
Proof.
  destruct s as [|c s]; simpl; [reflexivity|]. intros H.
  apply negb_true_iff in H.
  destruct (trimEnd s); simpl; rewrite ?H; simpl; rewrite ?H; reflexivity.
Qed.

Lemma noLeadingSpace_trimStart (s : string) :
  noLeadingSpace s = true -> trimStart s = s.
Proof.
  destruct s as [|c s]; simpl; [reflexivity|]. intros H.
  apply negb_true_iff in H. rewrite H. reflexivity.
Qed.

Lemma trimEnd_idempotent (s : string) : trimEnd (trimEnd s) = trimEnd s.
Proof.
  induction s as [|c s IH]; simpl; [reflexivity|].
  destruct (trimEnd s) as [|a t] eqn:E.
  - destruct (isWhiteSpace c) eqn:Ews; simpl; [reflexivity|].
    rewrite Ews. reflexivity.
  - change (trimEnd (String c (String a t)))
      with (match trimEnd (String a t) with
            | EmptyString =>
                if isWhiteSpace c then EmptyString else String c EmptyString
            | t' => String c t'
            end).
    rewrite IH. reflexivity.
Qed.

Lemma trim_idempotent (s : string) : trim (trim s) = trim s.
Proof.
  unfold trim.
  rewrite (noLeadingSpace_trimStart (trimEnd (trimStart s))).
  - apply trimEnd_idempotent.
  - apply trimEnd_noLeadingSpace. apply trimStart_noLeadingSpace.
Qed.

Lemma isAscii_toLowerCase (s : string) :
  isAscii s = true -> isAscii (toLowerCase s) = true.
Proof.
  unfold toLowerCase. induction s as [|c s IH]; simpl; [reflexivity|].
  intros H. apply andb_true_iff in H. destruct H as [Hc Hs].
  rewrite (IH Hs), andb_true_r. unfold toLower.
  destruct (isUpper c) eqn:E; [|exact Hc].
  apply inRange_bounds in E.
  rewrite code_ascii_of_nat by lia. apply Nat.ltb_lt. lia.
Qed.

Lemma isAscii_collapseFrom (b : bool) (s : string) :
  isAscii s = true -> isAscii (collapseFrom b s) = true.
Proof.
  revert b. induction s as [|c s IH]; intros b; simpl; [reflexivity|].
  intros H. apply andb_true_iff in H. destruct H as [Hc Hs].
  destruct (isWhiteSpace c); [destruct b|]; simpl; rewrite ?Hc; simpl; auto.
Qed.

Lemma isAscii_trimStart (s : string) :
  isAscii s = true -> isAscii (trimStart s) = true.
Proof.
  induction s as [|c s IH]; simpl; [reflexivity|].
  intros H. destruct (isWhiteSpace c); [|exact H].
  apply andb_true_iff in H. apply IH. tauto.
Qed.

Lemma isAscii_trimEnd (s : string) :
  isAscii s = true -> isAscii (trimEnd s) = true.
Proof.
  induction s as [|c s IH]; simpl; [reflexivity|].
  intros H. apply andb_true_iff in H. destruct H as [Hc Hs].
  specialize (IH Hs).
  destruct (trimEnd s) as [|a t].
  - destruct (isWhiteSpace c); simpl; rewrite ?Hc; reflexivity.
  - change (isAscii (String c (String a t)))
      with ((Chars.code c <? 128) && isAscii (String a t)).
    rewrite Hc, IH. reflexivity.
Qed.

(** X1.  On ASCII text, where lower-casing touches the letters A-Z only
    and the Unicode normalisation and the removal of combining marks change
    nothing, [normalizeText] is idempotent, and its result is ASCII text in
    normal form: lower-cased, without leading or trailing whitespace, and
    with single spaces as its only whitespace. *)
Theorem normalizeText_idempotent (text : string) :
  isAscii text = true ->
  normalizeText (normalizeText text) = normalizeText text
  /\ isAscii (normalizeText text) = true
  /\ toLowerCase (normalizeText text) = normalizeText text
  /\ trim (normalizeText text) = normalizeText text
  /\ collapsedFrom false (normalizeText text) = true.
Proof.
  intros Hascii.
  assert (isAscii (normalizeText text) = true) as Ha.
  { unfold normalizeText, trim, collapseWhitespace, removeDiacritics,
      normalizeNFD.
    apply isAscii_trimEnd, isAscii_trimStart, isAscii_collapseFrom,
      isAscii_toLowerCase.
    exact Hascii. }
  assert (collapsedFrom false (normalizeText text) = true) as Hc.
  { unfold normalizeText, trim, collapseWhitespace.
    apply trimEnd_collapsed. eapply trimStart_collapsed.
    apply collapseFrom_collapsed. }
  assert (trim (normalizeText text) = normalizeText text) as Ht.
  { unfold normalizeText at 1 2. apply trim_idempotent. }
  split; [|split; [exact Ha|]];
    [|split; [apply toLowerCase_normalizeText | split; assumption]].
  unfold normalizeText at 1.
  unfold removeDiacritics, normalizeNFD, collapseWhitespace.
  rewrite toLowerCase_normalizeText, (collapsed_fixed false _ Hc).
  exact Ht.
Qed.

Lemma normalizeText_idempotent_witness :
  isAscii "  New   YORK City " = true
  /\ normalizeText "  New   YORK City " = "new york city"
  /\ normalizeText (normalizeText "  New   YORK City ")
     = normalizeText "  New   YORK City ".
Proof.
  split; [reflexivity|]. split; [reflexivity|].
  exact (proj1 (normalizeText_idempotent "  New   YORK City " eq_refl)).
Defined.

Lemma deduplicateFrom_first {A : Type} (key : A -> Z) (seen : list Z)
    (l : list A) (x : A) :
  In x (deduplicateFrom key seen l) ->
  ~ In (key x) seen
  /\ exists before after,
       l = before ++ x :: after /\ ~ In (key x) (List.map key before).
Proof.
  revert seen. induction l as [|a l IH]; simpl; intros seen; [tauto|].
  destruct (existsb (Z.eqb (key a)) seen) eqn:E.
  - intros H. destruct (IH _ H) as [Hns [before [after [Hl Hb]]]].
    split; [exact Hns|].
    exists (a :: before), after. rewrite Hl. split; [reflexivity|].
    simpl. intros [Heq|Hin]; [|contradiction].
    apply Hns. rewrite <- Heq.
    apply existsb_exists in E. destruct E as [z [Hz Hk]].
    apply Z.eqb_eq in Hk. congruence.
  - intros [<-|H].
    + split.
      * intros Hin. assert (existsb (Z.eqb (key a)) seen = true); [|congruence].
        apply existsb_exists. exists (key a). split; [exact Hin | apply Z.eqb_refl].
      * exists [], l. split; [reflexivity | intros []].
    + destruct (IH _ H) as [Hns [before [after [Hl Hb]]]].
      split; [intros Hin; apply Hns; right; exact Hin|].
      exists (a :: before), after. rewrite Hl. split; [reflexivity|].
      simpl. intros [Heq|Hin]; [|contradiction].
      apply Hns. left. exact Heq.
Qed.

Lemma deduplicateFrom_NoDup {A : Type} (key : A -> Z) (seen : list Z)
    (l : list A) :
  NoDup (List.map key (deduplicateFrom key seen l)).
Proof.
  revert seen. induction l as [|a l IH]; simpl; intros seen; [constructor|].
  destruct (existsb (Z.eqb (key a)) seen); [apply IH|].
  simpl. constructor; [|apply IH].
  intros Hin. apply in_map_iff in Hin. destruct Hin as [b [Hb Hin]].
  apply deduplicateFrom_first in Hin. destruct Hin as [Hns _].
  apply Hns. left. congruence.
Qed.





Lemma get_substring (s : string) (n m p : nat) :
  p < m -> String.get p (String.substring n m s) = String.get (p + n) s.
Proof. intros H. apply String.substring_correct1. exact H. Qed.

(** X3.  [getContext] returns at most 100 characters; for an index inside
    the text it returns the whole window from [index - 50] (or the start of
    the text) up to [index + 50] (or its end), and the character at
    [index] sits in it at offset [min index 50]. *)
Theorem getContext_window (text : string) (index : nat) :
  String.length (getContext text index) <= 100
  /\ (index <= String.length text ->
      String.length (getContext text index)
      = Nat.min (String.length text) (index + 50) - (index - 50))
  /\ (forall c, String.get index text = Some c ->
                String.get (Nat.min index 50) (getContext text index) = Some c).
Proof.
  unfold getContext, Str.substring. simpl Nat.max.
  assert (index <= String.length text ->
          String.length
            (String.substring (index - 50)
               (Nat.min (String.length text) (index + 50) - (index - 50)) text)
          = Nat.min (String.length text) (index + 50) - (index - 50)) as Hlen.
  { intros Hi. apply substring_length. lia. }
  split; [|split].
  - destruct (Nat.le_gt_cases index (String.length text)) as [Hi|Hi].
    + rewrite (Hlen Hi). lia.
    + assert (forall s n m, String.length (String.substring n m s) <= m) as Hle.
      { induction s as [|a s IH]; intros n m; simpl.
        - destruct n, m; simpl; lia.
        - destruct n as [|n]; [destruct m as [|m]; simpl; [lia|]|apply IH].
          specialize (IH 0 m). lia. }
      eapply Nat.le_trans; [apply Hle|]. lia.
  - exact Hlen.
  - intros c Hget. pose proof (get_Some_lt _ _ _ Hget) as Hlt.
    rewrite get_substring by lia.
    replace (Nat.min index 50 + (index - 50)) with index by lia.
    exact Hget.
Qed.

(* ================================================================== *)
(** * The extraction passes *)

Lemma extractCandidatesLoop_shape (fuel : nat) (text : string) (i : nat)
    (candidates : list Candidate) :
  Forall (passACandidate text) candidates ->
  Forall (passACandidate text) (extractCandidatesLoop fuel text i candidates).
Proof.
  revert i candidates.
  induction fuel as [|fuel IH]; intros i candidates Hall; simpl; [exact Hall|].
  destruct (RegExp.exec pattern1 text i) as [m|]; [|exact Hall].
  destruct (isStopWord (trim (RegExp.group text m 1))) eqn:Estop;
    [apply IH; exact Hall|].
  apply IH. apply Forall_app. split; [exact Hall|].
  constructor; [|constructor].
  unfold passACandidate. simpl. repeat split; auto. discriminate.
Qed.

Lemma extractCapitalizedWordsLoop_shape (fuel : nat) (text : string) (i : nat)
    (seen : list string) (candidates : list Candidate) :
  Forall (passBCandidate text) candidates ->
  Forall (passBCandidate text)
    (extractCapitalizedWordsLoop fuel text i seen candidates).
Proof.
  revert i seen candidates.
  induction fuel as [|fuel IH]; intros i seen candidates Hall; simpl; [exact Hall|].
  destruct (RegExp.exec pattern2 text i) as [m|]; [|exact Hall].
  destruct (mem (toLowerCase (trim (RegExp.group text m 1))) seen);
    [apply IH; exact Hall|].
  destruct (isStopWord (trim (RegExp.group text m 1))
            || isCommonFalsePositive (trim (RegExp.group text m 1))) eqn:Eskip;
    [apply IH; exact Hall|].
  destruct (followedByLowercase text m); [apply IH; exact Hall|].
  apply IH. apply Forall_app. split; [exact Hall|].
  constructor; [|constructor].
  apply orb_false_iff in Eskip. destruct Eskip as [E1 E2].
  unfold passBCandidate. simpl. repeat split; auto.
Qed.

(** X4.  Pass A never emits a candidate whose name is a stop word; its
    candidates are high-confidence "city-qualifier" candidates with a
    qualifier.  Pass B never emits a stop word or one of the common false
    positives; its candidates are medium-confidence "capitalized-word"
    candidates without qualifier.  The context of a candidate of either
    pass is the context window of the text at the candidate's index. *)
Theorem extraction_filters (text : string) (c : Candidate) :
  (In c (extractCandidates text) -> passACandidate text c)
  /\ (In c (extractCapitalizedWords text) -> passBCandidate text c).
Proof.
  split; intros Hin.
  - pose proof (extractCandidatesLoop_shape
                  (S (String.length text)) text 0 [] (Forall_nil _)) as H.
    rewrite Forall_forall in H. apply H. exact Hin.
  - pose proof (extractCapitalizedWordsLoop_shape
                  (S (String.length text)) text 0 [] [] (Forall_nil _)) as H.
    rewrite Forall_forall in H. apply H. exact Hin.
Qed.

(* ================================================================== *)
(** * The geocoder on a store that is not ready *)

Lemma detect_not_ready (localeCompare : string -> string -> Z)
    (candidates : list Candidate) (db : DB.GeoNamesDB) :
  DB.isReady db = false ->
  detectCountriesFromCandidates localeCompare candidates db = [].
Proof.
  intros Hr. unfold detectCountriesFromCandidates.
  assert (forall m, fold_left (tallyCandidate db) candidates m = m) as Hfold.
  { induction candidates as [|c cs IH]; intros m; simpl; [reflexivity|].
    rewrite IH. unfold tallyCandidate, DB.searchByName. rewrite Hr. reflexivity. }
  rewrite Hfold. reflexivity.
Qed.

Lemma matchCandidates_not_ready (candidates : list Candidate)
    (db : DB.GeoNamesDB) (uco : bool) (fc : option (list string)) :
  DB.isReady db = false ->
  matchCandidates candidates db uco fc = [].
Proof.
  intros Hr. induction candidates as [|c cs IH]; simpl; [reflexivity|].
  assert (findMatches c db uco fc = Rejected NotInitialized) as ->; [|exact IH].
  unfold findMatches, DB.searchAllSources, DB.searchCountryData, DB.searchByName.
  rewrite Hr. destruct uco; reflexivity.
Qed.

(** X5.  [geocodeText] never fails.  On a wrapper that is not ready every
    search is rejected, each rejection is swallowed per candidate, and the
    scan resolves to an empty result: no detected country in detection
    mode, no location in full-scan mode. *)
Theorem geocodeText_store_not_ready (localeCompare : string -> string -> Z)
    (text : string) (db : DB.GeoNamesDB) (options : Options) :
  DB.isReady db = false ->
  geocodeText localeCompare text db options
  = if detectionOnly options then Detection [] else FullScan [] [].
Proof.
  intros Hr. unfold geocodeText.
  destruct (List.length (extractCandidates text ++ extractCapitalizedWords text)
            =? 0); [reflexivity|].
  destruct (detectionOnly options).
  - rewrite (detect_not_ready _ _ db Hr). reflexivity.
  - rewrite (matchCandidates_not_ready _ db _ _ Hr). reflexivity.
Qed.

Lemma geocodeText_store_not_ready_witness :
  DB.isReady closedStore = false
  /\ In parisFR (DB.countryData closedStore)
  /\ geocodeText codeUnitCollation visitText closedStore
       (mkOptions false true None)
     = FullScan [] [].
Proof.
  split; [reflexivity|]. split; [right; left; reflexivity|].
  apply (geocodeText_store_not_ready codeUnitCollation visitText closedStore
           (mkOptions false true None)).
  reflexivity.
Defined.

(* ================================================================== *)
(** * The result of a full scan *)

Lemma matchCandidates_length (cs : list Candidate) (db : DB.GeoNamesDB)
    (uco : bool) (fc : option (list string)) :
  List.length (matchCandidates cs db uco fc) <= List.length cs.
Proof.
  induction cs as [|c cs IH]; simpl; [lia|].
  destruct (findMatches c db uco fc) as [[|first rest]|e]; simpl; lia.
Qed.

Lemma searchScope_In (db : DB.GeoNamesDB) (uco : bool) (nm : string)
    (records : list DB.City) (r : DB.City) :
  searchScope db uco nm = Resolved records ->
  In r records ->
  DB.asciiName r = toLowerCase nm
  /\ (In r (DB.countryData db) \/ (uco = false /\ In r (DB.cities db))).
Proof.
  unfold searchScope, DB.searchAllSources, DB.searchCountryData, DB.searchByName.
  destruct (negb (DB.isReady db)); [destruct uco; discriminate|].
  destruct uco; simpl; intros [= <-] Hin.
  - apply indexGetAll_In in Hin. tauto.
  - apply dedupeById_In in Hin. destruct Hin as [Hin _].
    apply in_app_or in Hin.
    destruct Hin as [Hin|Hin]; apply indexGetAll_In in Hin; tauto.
Qed.

Lemma findMatches_In (c : Candidate) (db : DB.GeoNamesDB) (uco : bool)
    (fc : option (list string)) (found : list DB.City) (r : DB.City) :
  findMatches c db uco fc = Resolved found ->
  In r found ->
  DB.asciiName r = toLowerCase (name c)
  /\ (In r (DB.countryData db) \/ (uco = false /\ In r (DB.cities db))).
Proof.
  intros Hf Hin.
  destruct (searchScope db uco (name c)) as [records|e] eqn:Hscope.
  - rewrite (findMatches_unfold c db uco fc records Hscope) in Hf.
    apply (searchScope_In db uco (name c) records r Hscope).
    destruct (List.length (survivors fc records) =? 0);
      [injection Hf as <-; destruct Hin|].
    apply (selectMatches_In _ _ _ r Hf) in Hin. unfold survivors in Hin.
    destruct (filterRequested fc); [|exact Hin].
    unfold restrictToCountries in Hin. apply filter_In in Hin. tauto.
  - rewrite (findMatches_rejected c db uco fc e Hscope) in Hf. discriminate.
Qed.

Lemma collectCountries_spec (seen : list string) (locations : list DB.City) :
  NoDup (collectCountries seen locations)
  /\ forall k, In k (collectCountries seen locations) <->
               ~ In k seen /\ k <> EmptyString
               /\ exists r, In r locations /\ DB.country r = k.
Proof.
  revert seen. induction locations as [|l rest IH]; intros seen; simpl.
  - split; [constructor|]. intros k. split; [tauto|].
    intros [_ [_ [r [[] _]]]].
  - destruct (IH seen) as [Hnd1 Hin1].
    destruct (IH (DB.country l :: seen)) as [Hnd2 Hin2].
    destruct (truthy (DB.country l)) eqn:Et; simpl.
    + destruct (mem (DB.country l) seen) eqn:Em; simpl.
      * split; [exact Hnd1|]. intros k. rewrite Hin1. split.
        -- intros [H1 [H2 [r [Hr Hk]]]]. repeat split; eauto.
        -- intros [H1 [H2 [r [[<-|Hr] Hk]]]]; [|eauto].
           apply mem_In in Em. subst k. contradiction.
      * apply mem_false_not_In in Em.
        split.
        -- constructor; [|exact Hnd2].
           intros Hin. apply Hin2 in Hin. destruct Hin as [Hin _].
           apply Hin. left. reflexivity.
        -- intros k. simpl. rewrite Hin2. split.
           ++ intros [<-|[H1 [H2 [r [Hr Hk]]]]].
              ** repeat split; [exact Em | apply truthy_nonempty; exact Et|].
                 exists l. auto.
              ** repeat split; [intros H; apply H1; right; exact H | exact H2|].
                 exists r. auto.
           ++ intros [H1 [H2 [r [[<-|Hr] Hk]]]]; [left; exact Hk|].
              destruct (string_dec (DB.country l) k) as [Heq|Hne]; [left; exact Heq|].
              right. repeat split; [intros [H|H]; contradiction | exact H2|].
              exists r. auto.
    + split; [exact Hnd1|]. intros k. rewrite Hin1. split.
      * intros [H1 [H2 [r [Hr Hk]]]]. repeat split; eauto.
      * intros [H1 [H2 [r [[<-|Hr] Hk]]]]; [|eauto].
        exfalso. apply H2. rewrite <- Hk.
        destruct (DB.country l); [reflexivity | discriminate].
Qed.

Lemma byCodeUnits_spec (a b : string) :
  precedes byCodeUnits a b <-> String.compare a b <> Gt.
Proof.
  unfold precedes, byCodeUnits, ArraySort.compareCodeUnits.
  destruct (String.compare a b); split; intros H; try lia; try discriminate.
  congruence.
Qed.

Lemma byCodeUnits_total (a b : string) :
  precedes byCodeUnits a b \/ precedes byCodeUnits b a.
Proof.
  rewrite !byCodeUnits_spec, (String.compare_antisym a b).
  destruct (String.compare b a); simpl; [left|right|left]; discriminate.
Qed.

Lemma byCodeUnits_trans (a b c : string) :
  precedes byCodeUnits a b -> precedes byCodeUnits b c ->
  precedes byCodeUnits a c.
Proof.
  rewrite !byCodeUnits_spec. intros H1 H2.
  destruct (String.compare a b) eqn:Eab; try congruence.
  - apply String.compare_eq_iff in Eab. rewrite Eab. exact H2.
  - destruct (String.compare b c) eqn:Ebc; try congruence.
    + apply String.compare_eq_iff in Ebc. rewrite <- Ebc, Eab. discriminate.
    + rewrite (compare_Lt_trans _ _ _ Eab Ebc). discriminate.
Qed.

Lemma sorted_distinct_strict (l : list string) :
  StronglySorted (precedes byCodeUnits) l -> NoDup l ->
  StronglySorted codeUnitLt l.
Proof.
  induction 1 as [|a l Hs IH Hall]; intros Hnd; [constructor|].
  inversion Hnd as [|x xs Hnin Hnd']; subst.
  constructor; [apply IH; exact Hnd'|].
  apply Forall_forall. intros b Hb. rewrite Forall_forall in Hall.
  specialize (Hall b Hb). apply byCodeUnits_spec in Hall.
  unfold codeUnitLt.
  destruct (String.compare a b) eqn:E; [|reflexivity|congruence].
  apply String.compare_eq_iff in E. subst. contradiction.
Qed.

Lemma extractDetectedCountries_spec (locations : list DB.City) :
  StronglySorted codeUnitLt (extractDetectedCountries locations)
  /\ forall k, In k (extractDetectedCountries locations) <->
               k <> EmptyString /\ exists r, In r locations /\ DB.country r = k.
Proof.
  unfold extractDetectedCountries.
  destruct (collectCountries_spec [] locations) as [Hnd Hin].
  pose proof (sort_Permutation byCodeUnits (collectCountries [] locations)) as Hp.
  split.
  - apply sorted_distinct_strict.
    + apply (sort_StronglySorted byCodeUnits byCodeUnits_total byCodeUnits_trans).
    + eapply Permutation_NoDup; eauto.
  - intros k. rewrite <- (Permutation_in' (eq_refl k) Hp), Hin. simpl. tauto.
Qed.

(** X6.  The locations of a full scan are store records with pairwise
    distinct ids, at most one per candidate; each is indexed under the
    lower-cased name of some candidate and comes from the downloaded
    partition, or, only when the scan is not restricted to country data,
    from the bundled one.  The detected countries are the non-empty
    country codes of these locations, each once, in ascending order. *)
Theorem fullScan_result (localeCompare : string -> string -> Z)
    (text : string) (db : DB.GeoNamesDB) (uco : bool)
    (fc : option (list string)) (locations : list DB.City)
    (codes : list string) :
  geocodeText localeCompare text db (mkOptions false uco fc)
  = FullScan locations codes ->
  NoDup (List.map DB.geonameId locations)
  /\ List.length locations
     <= List.length (extractCandidates text ++ extractCapitalizedWords text)
  /\ (forall r, In r locations ->
        exists c,
          In c (extractCandidates text ++ extractCapitalizedWords text)
          /\ DB.asciiName r = toLowerCase (name c)
          /\ (In r (DB.countryData db)
              \/ (uco = false /\ In r (DB.cities db))))
  /\ StronglySorted codeUnitLt codes
  /\ (forall k, In k codes <->
                k <> EmptyString
                /\ exists r, In r locations /\ DB.country r = k).
Proof.
  unfold geocodeText. simpl.
  set (cands := extractCandidates text ++ extractCapitalizedWords text).
  destruct (List.length cands =? 0) eqn:E.
  - intros [= <- <-]. split; [constructor|]. split; [simpl; lia|].
    split; [intros r []|]. split; [constructor|].
    intros k. split; [intros [] | intros [_ [r [[] _]]]].
  - intros [= <- <-].
    split; [apply deduplicateFrom_NoDup|]. split; [|split].
    + eapply Nat.le_trans; [|apply (matchCandidates_length cands db uco fc)].
      clear. unfold deduplicateBy. generalize (@nil Z).
      induction (matchCandidates cands db uco fc) as [|a l IH]; intros seen;
        simpl; [lia|].
      destruct (existsb (Z.eqb (DB.geonameId a)) seen); simpl;
        [specialize (IH seen) | specialize (IH (DB.geonameId a :: seen))]; lia.
    + intros r Hr. apply deduplicateFrom_In in Hr.
      apply matchCandidates_In in Hr. destruct Hr as [c [found [Hc [Hf Hin]]]].
      exists c. split; [exact Hc|].
      eapply findMatches_In; eauto.
    + apply extractDetectedCountries_spec.
Qed.

Lemma fullScan_result_witness :
  geocodeText codeUnitCollation visitText parisTokyoStore
    (mkOptions false true (Some ["FR"; "JP"]))
  = FullScan [parisFR; tokyoJP] ["FR"; "JP"]
  /\ NoDup (List.map DB.geonameId [parisFR; tokyoJP])
  /\ StronglySorted codeUnitLt ["FR"; "JP"].
Proof.
  assert (geocodeText codeUnitCollation visitText parisTokyoStore
            (mkOptions false true (Some ["FR"; "JP"]))
          = FullScan [parisFR; tokyoJP] ["FR"; "JP"]) as H
    by (vm_compute; reflexivity).
  split; [exact H|].
  pose proof (fullScan_result codeUnitCollation visitText parisTokyoStore true
                (Some ["FR"; "JP"]) [parisFR; tokyoJP] ["FR"; "JP"] H) as R.
  split; [apply R | apply R].
Defined.

(* ================================================================== *)
(** * Where the candidates stand in the text *)

Lemma class_ends (p : ascii -> bool) (input : string) (a b : RegExp.MatchState) :
  Matches input (RegExp.CharClass p) a b -> endsWith p input b.
Proof.
  intros H. inversion H as [p' x ch Hget Hp| | | | |]; subst.
  exists (RegExp.endIndex a), ch. simpl. auto.
Qed.

Lemma run_ends (p : ascii -> bool) (input : string) (a b : RegExp.MatchState) :
  Matches input (RegExp.Plus (RegExp.CharClass p)) a b -> endsWith p input b.
Proof. apply plus_ends. apply class_ends. Qed.

Lemma capitalizedWords_ends (input : string) (x y : RegExp.MatchState) :
  Matches input capitalizedWords x y -> endsWith isAlpha input y.
Proof.
  intros H. unfold capitalizedWords in H.
  inversion H as [|? ? ? x1 ? Hupper Htail| | | |]; subst. clear H.
  inversion Htail as [|? ? ? x2 ? Hrun Hmore| | | |]; subst. clear Htail.
  pose proof (run_ends _ _ _ _ Hrun) as Hx2.
  unfold RegExp.Star in Hmore.
  assert (Hword : forall a b,
             Matches input
               (RegExp.Seq (RegExp.Plus (RegExp.CharClass isWhiteSpace))
                  (RegExp.Seq (RegExp.CharClass isUpper)
                     (RegExp.Plus (RegExp.CharClass isAlpha)))) a b ->
             endsWith isAlpha input b).
  { intros a b Hab.
    inversion Hab as [|? ? ? a1 ? Hs Hw| | | |]; subst.
    inversion Hw as [|? ? ? a2 ? Hu Hr| | | |]; subst.
    exact (run_ends _ _ _ _ Hr). }
  destruct (repeat_ends input _ (endsWith isAlpha input) Hword _ _ _ _ Hmore)
    as [->|Hy]; assumption.
Qed.

Lemma groupFree_captures (text : string) (r : RegExp.regex)
    (x y : RegExp.MatchState) :
  Matches text r x y -> groupFree r = true ->
  RegExp.captures y = RegExp.captures x.
Proof.
  induction 1 as [| ? ? ? ? ? _ IH1 _ IH2| |? ? ? ? ? ? _ IH1 _ IH2| |];
    simpl; intros Hg; auto; try discriminate.
  - apply andb_true_iff in Hg. destruct Hg as [Hg1 Hg2].
    rewrite (IH2 Hg2). apply IH1. exact Hg1.
  - rewrite (IH2 Hg). apply IH1. exact Hg.
Qed.

(** The parts of a match of the "City, Qualifier" pattern. *)
Lemma pattern1_parts (text : string) (x y : RegExp.MatchState) :
  Matches text pattern1 x y ->
  exists e1 s2 first1 last1 first2 last2,
    RegExp.captures y
    = (2, (s2, RegExp.endIndex y)) :: (1, (RegExp.endIndex x, e1))
        :: RegExp.captures x
    /\ RegExp.endIndex x < e1 /\ e1 < s2 /\ s2 < RegExp.endIndex y
    /\ String.get (RegExp.endIndex x) text = Some first1
    /\ isUpper first1 = true
    /\ String.get (e1 - 1) text = Some last1 /\ isAlpha last1 = true
    /\ String.get s2 text = Some first2 /\ isUpper first2 = true
    /\ String.get (RegExp.endIndex y - 1) text = Some last2
    /\ isAlpha last2 = true.
Proof.
  intros H. unfold pattern1 in H.
  inversion H as [|? ? ? x0 ? Hb1 Hrest| | | |]; subst. clear H.
  inversion Hb1; subst. clear Hb1.
  inversion Hrest as [|? ? ? y1 ? Hgroup1 Hafter| | | |]; subst. clear Hrest.
  inversion Hafter as [|? ? ? y2 ? Hcomma Hafter2| | | |]; subst. clear Hafter.
  inversion Hafter2 as [|? ? ? y3 ? Hspace Hlast| | | |]; subst. clear Hafter2.
  inversion Hlast as [|? ? ? y4 ? Hgroup2 Hb2| | | |]; subst. clear Hlast.
  inversion Hb2; subst. clear Hb2.
  inversion Hgroup1 as [| | | |? ? ? yb1 Hbody1|]; subst. clear Hgroup1.
  inversion Hgroup2 as [| | | |? ? ? yb2 Hbody2|]; subst. clear Hgroup2.
  pose proof (capitalizedWords_starts _ _ _ Hbody1) as [Hlt1 [f1 [Hf1 Hu1]]].
  pose proof (capitalizedWords_starts _ _ _ Hbody2) as [Hlt2 [f2 [Hf2 Hu2]]].
  pose proof (capitalizedWords_ends _ _ _ Hbody1) as [k1 [l1 [Hk1 [Hl1 Ha1]]]].
  pose proof (capitalizedWords_ends _ _ _ Hbody2) as [k2 [l2 [Hk2 [Hl2 Ha2]]]].
  pose proof (groupFree_captures _ _ _ _ Hbody1 eq_refl) as Hc1.
  pose proof (groupFree_captures _ _ _ _ Hbody2 eq_refl) as Hc2.
  pose proof (groupFree_captures _ _ _ _ Hcomma eq_refl) as Hc3.
  pose proof (groupFree_captures _ _ _ _ Hspace eq_refl) as Hc4.
  pose proof (Matches_endIndex_le _ _ _ _ Hspace) as Hle.
  inversion Hcomma as [p x' ch Hget Hp| | | | |]; subst. clear Hcomma.
  simpl in *.
  exists (RegExp.endIndex yb1), (RegExp.endIndex y3), f1, l1, f2, l2.
  rewrite Hc2, Hc4. simpl. rewrite Hc1.
  rewrite Hk1, Hk2. simpl. rewrite !Nat.sub_0_r.
  repeat split; auto; lia.
Qed.

(** The parts of a match of the capitalised-word pattern. *)
Lemma pattern2_parts (text : string) (x y : RegExp.MatchState) :
  Matches text pattern2 x y ->
  exists first last,
    RegExp.captures y
    = (1, (RegExp.endIndex x, RegExp.endIndex y)) :: RegExp.captures x
    /\ RegExp.endIndex x < RegExp.endIndex y
    /\ String.get (RegExp.endIndex x) text = Some first
    /\ isUpper first = true
    /\ String.get (RegExp.endIndex y - 1) text = Some last
    /\ isLower last = true.
Proof.
  intros H.
  pose proof (pattern2_end _ _ _ H) as [_ [[k [l [Hk [Hl Hlow]]]] _]].
  unfold pattern2 in H.
  inversion H as [|? ? ? x0 ? Hb1 Hrest| | | |]; subst. clear H.
  inversion Hb1; subst. clear Hb1.
  inversion Hrest as [|? ? ? y1 ? Hgroup Hb2| | | |]; subst. clear Hrest.
  inversion Hb2; subst. clear Hb2.
  inversion Hgroup as [| | | |? ? ? yb Hbody|]; subst. clear Hgroup.
  pose proof (groupFree_captures _ _ _ _ Hbody eq_refl) as Hc.
  inversion Hbody as [|? ? ? x1 ? Hupper Htail| | | |]; subst. clear Hbody.
  inversion Hupper as [p x' ch Hget Hp| | | | |]; subst. clear Hupper.
  apply Matches_endIndex_le in Htail.
  simpl in *. exists ch, l. rewrite Hc, Hk. simpl. rewrite Nat.sub_0_r.
  repeat split; auto; lia.
Qed.

Lemma isAlpha_not_whitespace (ch : ascii) :
  isAlpha ch = true -> isWhiteSpace ch = false.
Proof.
  unfold isAlpha. intros H. apply orb_true_iff in H. destruct H as [H|H].
  - apply isUpper_not_whitespace. exact H.
  - unfold isLower, isWhiteSpace, inRange in *.
    apply andb_true_iff in H. destruct H as [H1 H2].
    apply Nat.leb_le in H1.
    destruct (Nat.leb_spec (Chars.code ch) 13);
      destruct (Nat.eqb_spec (Chars.code ch) 32);
      rewrite ?andb_false_r; simpl; try reflexivity; lia.
Qed.

Lemma trimEnd_fixed (s : string) (last : ascii) :
  String.get (String.length s - 1) s = Some last ->
  isWhiteSpace last = false ->
  trimEnd s = s.
Proof.
  induction s as [|c s IH]; intros Hget Hws; [reflexivity|].
  destruct s as [|a t].
  - simpl in Hget. injection Hget as ->. simpl. rewrite Hws. reflexivity.
  - change (trimEnd (String c (String a t)))
      with (match trimEnd (String a t) with
            | EmptyString =>
                if isWhiteSpace c then EmptyString else String c EmptyString
            | t' => String c t'
            end).
    rewrite IH; [reflexivity| |exact Hws].
    simpl in Hget. simpl. rewrite Nat.sub_0_r. exact Hget.
Qed.

(** A slice that starts and ends with a character that is not whitespace
    is left alone by [trim]. *)
Lemma slice_trim_fixed (text : string) (s e : nat) (first last : ascii) :
  s < e -> e <= String.length text ->
  String.get s text = Some first -> isWhiteSpace first = false ->
  String.get (e - 1) text = Some last -> isWhiteSpace last = false ->
  trim (Str.substring s e text) = Str.substring s e text
  /\ String.length (Str.substring s e text) = e - s.
Proof.
  intros Hlt Hle Hfirst Hwf Hlast Hwl.
  assert (Hlen : String.length (Str.substring s e text) = e - s).
  { unfold Str.substring. apply substring_length. lia. }
  split; [|exact Hlen].
  destruct (substring_head text s e first Hfirst Hlt) as [rest Hrest].
  unfold trim. rewrite noLeadingSpace_trimStart.
  - apply trimEnd_fixed with (last := last); [|exact Hwl].
    rewrite Hlen. unfold Str.substring. rewrite get_substring by lia.
    replace (e - s - 1 + s) with (e - 1) by lia. exact Hlast.
  - rewrite Hrest. simpl. rewrite Hwf. reflexivity.
Qed.

Lemma slice_occursAt (text : string) (s e : nat) :
  s < e -> String.length (Str.substring s e text) = e - s ->
  occursAt text s (Str.substring s e text).
Proof.
  intros Hlt Hlen. unfold occursAt. rewrite Hlen. split; [lia|].
  replace (s + (e - s)) with e by lia. reflexivity.
Qed.

(** What one successful [pattern1.exec] yields: the two trimmed groups are
    slices of the text, the first one starting at [match.index]. *)
Lemma exec_pattern1_words (text : string) (i : nat) (m : RegExp.MatchResult) :
  RegExp.exec pattern1 text i = Some m ->
  exists e1 s2,
    i <= RegExp.index m /\ RegExp.index m < e1 /\ e1 < s2
    /\ s2 < RegExp.lastIndex m /\ i < RegExp.lastIndex m
    /\ trim (RegExp.group text m 1) = Str.substring (RegExp.index m) e1 text
    /\ String.length (Str.substring (RegExp.index m) e1 text)
       = e1 - RegExp.index m
    /\ trim (RegExp.group text m 2)
       = Str.substring s2 (RegExp.lastIndex m) text
    /\ String.length (Str.substring s2 (RegExp.lastIndex m) text)
       = RegExp.lastIndex m - s2.
Proof.
  intros H.
  destruct (exec_Matches _ _ _ _ H)
    as [y [Hi [_ [HM [Hlast [Hbound [_ Hspans]]]]]]].
  destruct (pattern1_parts _ _ _ HM)
    as [e1 [s2 [f1 [l1 [f2 [l2 [Hcap [H1 [H2 [H3
        [Hf1 [Hu1 [Hl1 [Ha1 [Hf2 [Hu2 [Hl2 Ha2]]]]]]]]]]]]]]]]].
  simpl in *. rewrite <- Hlast in *.
  exists e1, s2.
  destruct (slice_trim_fixed text (RegExp.index m) e1 f1 l1)
    as [Ht1 Hn1]; auto using isUpper_not_whitespace, isAlpha_not_whitespace;
    try lia.
  destruct (slice_trim_fixed text s2 (RegExp.lastIndex m) f2 l2)
    as [Ht2 Hn2]; auto using isUpper_not_whitespace, isAlpha_not_whitespace.
  unfold RegExp.group. rewrite Hspans, Hcap. simpl.
  repeat split; auto; lia.
Qed.

(** What one successful [pattern2.exec] yields. *)
Lemma exec_pattern2_word (text : string) (i : nat) (m : RegExp.MatchResult) :
  RegExp.exec pattern2 text i = Some m ->
  i <= RegExp.index m /\ RegExp.index m < RegExp.lastIndex m
  /\ trim (RegExp.group text m 1)
     = Str.substring (RegExp.index m) (RegExp.lastIndex m) text
  /\ String.length (Str.substring (RegExp.index m) (RegExp.lastIndex m) text)
     = RegExp.lastIndex m - RegExp.index m.
Proof.
  intros H.
  destruct (exec_Matches _ _ _ _ H)
    as [y [Hi [_ [HM [Hlast [Hbound [_ Hspans]]]]]]].
  destruct (pattern2_parts _ _ _ HM)
    as [f [l [Hcap [Hlt [Hf [Hu [Hl Hlow]]]]]]].
  simpl in *. rewrite <- Hlast in *.
  destruct (slice_trim_fixed text (RegExp.index m) (RegExp.lastIndex m) f l)
    as [Ht Hn]; auto using isUpper_not_whitespace.
  { apply isAlpha_not_whitespace. unfold isAlpha. rewrite Hlow.
    apply orb_true_r. }
  unfold RegExp.group. rewrite Hspans, Hcap. simpl.
  repeat split; auto.
Qed.

Lemma StronglySorted_snoc {A : Type} (R : A -> A -> Prop) (l : list A) (c : A) :
  StronglySorted R l -> Forall (fun a => R a c) l ->
  StronglySorted R (l ++ [c]).
Proof.
  induction 1 as [|a l Hs IH Ha]; intros Hc; simpl.
  - constructor; constructor.
  - inversion Hc as [|? ? Hac Hlc]; subst.
    constructor; [apply IH; exact Hlc|].
    apply Forall_app. split; [exact Ha|]. constructor; [exact Hac|constructor].
Qed.

Lemma extractCandidatesLoop_located (fuel : nat) (text : string) (i : nat)
    (candidates : list Candidate) :
  Forall (fun c => nameInText text c /\ qualifierInText text c
                   /\ index c + String.length (name c) <= i) candidates ->
  StronglySorted follows candidates ->
  Forall (fun c => nameInText text c /\ qualifierInText text c)
    (extractCandidatesLoop fuel text i candidates)
  /\ StronglySorted follows (extractCandidatesLoop fuel text i candidates).
Proof.
  revert i candidates.
  induction fuel as [|fuel IH]; intros i candidates Hall Hsorted; simpl.
  - split; [|exact Hsorted].
    eapply Forall_impl; [|exact Hall]. simpl. tauto.
  - destruct (RegExp.exec pattern1 text i) as [m|] eqn:Em.
    2:{ split; [|exact Hsorted].
        eapply Forall_impl; [|exact Hall]. simpl. tauto. }
    destruct (exec_pattern1_words _ _ _ Em)
      as [e1 [s2 [Hi [H1 [H2 [H3 [Hadv [Ht1 [Hn1 [Ht2 Hn2]]]]]]]]]].
    assert (Hall' : Forall (fun c => nameInText text c /\ qualifierInText text c
                     /\ index c + String.length (name c) <= RegExp.lastIndex m)
                     candidates).
    { eapply Forall_impl; [|exact Hall]. simpl.
      intros c [Hn [Hq Hb]]. split; [exact Hn|split; [exact Hq|lia]]. }
    destruct (isStopWord (trim (RegExp.group text m 1))).
    + apply IH; assumption.
    + apply IH.
      * apply Forall_app. split; [exact Hall'|]. constructor; [|constructor].
        simpl. rewrite Ht1, Ht2.
        split; [|split].
        -- unfold nameInText. simpl. apply slice_occursAt; [exact H1|exact Hn1].
        -- exists (Str.substring s2 (RegExp.lastIndex m) text), s2. simpl.
           split; [reflexivity|]. rewrite Hn1.
           split; [lia|]. apply slice_occursAt; [exact H3|exact Hn2].
        -- rewrite Hn1. lia.
      * apply StronglySorted_snoc; [exact Hsorted|].
        eapply Forall_impl; [|exact Hall]. simpl.
        intros c [_ [_ Hb]]. unfold follows. simpl. lia.
Qed.

Lemma extractCapitalizedWordsLoop_located (fuel : nat) (text : string) (i : nat)
    (seen : list string) (candidates : list Candidate) :
  Forall (fun c => nameInText text c
                   /\ index c + String.length (name c) <= i) candidates ->
  StronglySorted follows candidates ->
  Forall (nameInText text)
    (extractCapitalizedWordsLoop fuel text i seen candidates)
  /\ StronglySorted follows
       (extractCapitalizedWordsLoop fuel text i seen candidates).
Proof.
  revert i seen candidates.
  induction fuel as [|fuel IH]; intros i seen candidates Hall Hsorted; simpl.
  - split; [|exact Hsorted].
    eapply Forall_impl; [|exact Hall]. simpl. tauto.
  - destruct (RegExp.exec pattern2 text i) as [m|] eqn:Em.
    2:{ split; [|exact Hsorted].
        eapply Forall_impl; [|exact Hall]. simpl. tauto. }
    destruct (exec_pattern2_word _ _ _ Em) as [Hi [Hlt [Ht Hn]]].
    assert (Hall' : Forall (fun c => nameInText text c
                     /\ index c + String.length (name c) <= RegExp.lastIndex m)
                     candidates).
    { eapply Forall_impl; [|exact Hall]. simpl.
      intros c [Hnm Hb]. split; auto. lia. }
    destruct (mem (toLowerCase (trim (RegExp.group text m 1))) seen);
      [apply IH; assumption|].
    destruct (isStopWord (trim (RegExp.group text m 1))
              || isCommonFalsePositive (trim (RegExp.group text m 1)));
      [apply IH; assumption|].
    destruct (followedByLowercase text m); [apply IH; assumption|].
    apply IH.
    + apply Forall_app. split; [exact Hall'|]. constructor; [|constructor].
      simpl. rewrite Ht. split.
      * unfold nameInText. simpl. apply slice_occursAt; [exact Hlt|exact Hn].
      * rewrite Hn. lia.
    + apply StronglySorted_snoc; [exact Hsorted|].
      eapply Forall_impl; [|exact Hall]. simpl.
      intros c [_ Hb]. unfold follows. simpl. lia.
Qed.

(** X7.  Every candidate can be found again in the text: the name of a
    candidate of either pass is the non-empty slice of the text that starts
    at the candidate's [index], and the qualifier of a "City, Qualifier"
    candidate is a non-empty slice that starts after the end of the name. *)
Theorem candidates_located (text : string) (c : Candidate) :
  (In c (extractCandidates text) ->
   nameInText text c /\ qualifierInText text c)
  /\ (In c (extractCapitalizedWords text) -> nameInText text c).
Proof.
  split; intros Hin.
  - destruct (extractCandidatesLoop_located (S (String.length text)) text 0 [])
      as [Hall _]; [constructor|constructor|].
    rewrite Forall_forall in Hall. apply Hall. exact Hin.
  - destruct (extractCapitalizedWordsLoop_located
                (S (String.length text)) text 0 [] [])
      as [Hall _]; [constructor|constructor|].
    rewrite Forall_forall in Hall. apply Hall. exact Hin.
Qed.

(** X8.  Each pass lists its candidates in text order and without overlap:
    a candidate starts at or after the end of the name of every candidate
    listed before it. *)
Theorem candidates_in_text_order (text : string) :
  StronglySorted follows (extractCandidates text)
  /\ StronglySorted follows (extractCapitalizedWords text).
Proof.
  split.
  - apply (extractCandidatesLoop_located (S (String.length text)) text 0 []);
      constructor.
  - apply (extractCapitalizedWordsLoop_located
             (S (String.length text)) text 0 [] []); constructor.
Qed.

(* ================================================================== *)
(** * The store wrapper: loading and reading back *)

Section StoreLaws.
Context {K V : Type} (keyOf : V -> K) (cmp : K -> K -> comparison).
Hypothesis cmp_refl : forall k, cmp k k = Eq.
Hypothesis cmp_eq : forall a b, cmp a b = Eq -> a = b.

Lemma get_put_same (v : V) (s : list V) :
  ObjectStore.get keyOf cmp (keyOf v) (ObjectStore.put keyOf cmp v s) = Some v.
Proof.
  induction s as [|a s IH]; simpl.
  - rewrite cmp_refl. reflexivity.
  - destruct (cmp (keyOf v) (keyOf a)) eqn:E; simpl.
    + rewrite cmp_refl. reflexivity.
    + rewrite cmp_refl. reflexivity.
    + rewrite E. exact IH.
Qed.

Lemma get_put_other (v : V) (s : list V) (k : K) :
  k <> keyOf v ->
  ObjectStore.get keyOf cmp k (ObjectStore.put keyOf cmp v s)
  = ObjectStore.get keyOf cmp k s.
Proof.
  intros Hk.
  assert (Hv : forall X (x y : X),
             match cmp k (keyOf v) with Eq => x | _ => y end = y).
  { intros X x y. destruct (cmp k (keyOf v)) eqn:E; auto.
    apply cmp_eq in E. contradiction. }
  induction s as [|a s IH]; simpl.
  - apply Hv.
  - destruct (cmp (keyOf v) (keyOf a)) eqn:E; simpl.
    + rewrite Hv. apply cmp_eq in E. rewrite <- E, Hv. reflexivity.
    + rewrite Hv. reflexivity.
    + rewrite IH. reflexivity.
Qed.

Lemma get_Some_In (k : K) (s : list V) (r : V) :
  ObjectStore.get keyOf cmp k s = Some r -> In r s /\ keyOf r = k.
Proof.
  induction s as [|a s IH]; simpl; [discriminate|].
  destruct (cmp k (keyOf a)) eqn:E; intros H.
  - injection H as <-. apply cmp_eq in E. auto.
  - destruct (IH H); auto.
  - destruct (IH H); auto.
Qed.

Lemma get_None_keys (k : K) (s : list V) :
  ObjectStore.get keyOf cmp k s = None <-> ~ In k (List.map keyOf s).
Proof.
  induction s as [|a s IH]; simpl; [tauto|].
  destruct (cmp k (keyOf a)) eqn:E.
  - apply cmp_eq in E. split; [discriminate|]. intros H. exfalso. auto.
  - rewrite IH. split; [|tauto].
    intros H [Ha|Hin]; [|auto]. rewrite Ha, cmp_refl in E. discriminate.
  - rewrite IH. split; [|tauto].
    intros H [Ha|Hin]; [|auto]. rewrite Ha, cmp_refl in E. discriminate.
Qed.

Lemma put_length_new (v : V) (s : list V) :
  ObjectStore.get keyOf cmp (keyOf v) s = None ->
  List.length (ObjectStore.put keyOf cmp v s) = S (List.length s).
Proof.
  induction s as [|a s IH]; simpl; [reflexivity|].
  destruct (cmp (keyOf v) (keyOf a)) eqn:E; simpl; intros H.
  - discriminate.
  - reflexivity.
  - rewrite IH; auto.
Qed.

End StoreLaws.

Lemma city_get_sorted (s : list DB.City) (r : DB.City) :
  keysAscending s -> In r s ->
  ObjectStore.get DB.geonameId Z.compare (DB.geonameId r) s = Some r.
Proof.
  induction 1 as [|a l Hs IH Hall]; simpl; [tauto|].
  intros [->|Hin].
  - rewrite Z.compare_refl. reflexivity.
  - rewrite Forall_forall in Hall. specialize (Hall r Hin).
    destruct (Z.compare_spec (DB.geonameId r) (DB.geonameId a)); try lia.
    apply IH. exact Hin.
Qed.

Lemma put_In_iff (v w : DB.City) (s : list DB.City) :
  keysAscending s ->
  (In w (ObjectStore.put DB.geonameId Z.compare v s)
   <-> w = v \/ (In w s /\ DB.geonameId w <> DB.geonameId v)).
Proof.
  induction 1 as [|a l Hs IH Hall]; simpl.
  - intuition.
  - rewrite Forall_forall in Hall.
    destruct (Z.compare_spec (DB.geonameId v) (DB.geonameId a)) as [E|L|G];
      simpl.
    + split.
      * intros [<-|Hin]; auto. right. split; auto.
        specialize (Hall w Hin). lia.
      * intros [->|[[<-|Hin] Hne]]; auto. congruence.
    + split.
      * intros [<-|[<-|Hin]]; auto.
        -- right. split; auto. lia.
        -- right. split; auto. specialize (Hall w Hin). lia.
      * intros [->|[[<-|Hin] Hne]]; auto.
    + rewrite IH. split.
      * intros [<-|[->|[Hin Hne]]]; auto. right. split; auto. lia.
      * intros [->|[[<-|Hin] Hne]]; auto.
Qed.

Lemma addAll_spec (cs s s' : list DB.City) :
  keysAscending s ->
  ObjectStore.addAll DB.geonameId Z.compare cs s = Some s' ->
  NoDup (List.map DB.geonameId cs)
  /\ (forall r, In r cs -> ~ In (DB.geonameId r) (List.map DB.geonameId s))
  /\ (forall r, In r s' <-> In r cs \/ In r s)
  /\ List.length s' = List.length cs + List.length s.
Proof.
  revert s. induction cs as [|v cs IH]; simpl; intros s Hs H.
  - injection H as <-. repeat split; try constructor; tauto.
  - destruct (ObjectStore.get DB.geonameId Z.compare (DB.geonameId v) s) eqn:Eg;
      [discriminate|].
    pose proof (put_length_new DB.geonameId Z.compare v s Eg) as Hlen.
    apply (get_None_keys DB.geonameId Z.compare Z.compare_refl
             (fun a b => proj1 (Z.compare_eq_iff a b))) in Eg.
    destruct (IH _ (put_keysAscending v s Hs) H) as [Hnd [Hdis [Hin Hl]]].
    assert (Hv : In v (ObjectStore.put DB.geonameId Z.compare v s))
      by (apply put_In_iff; auto).
    split; [|split; [|split]].
    + constructor; [|exact Hnd]. intros Hc. apply in_map_iff in Hc.
      destruct Hc as [r [Hr Hrin]]. apply (Hdis r Hrin).
      rewrite Hr. apply in_map. exact Hv.
    + intros r [<-|Hr]; [exact Eg|].
      intros Hc. apply in_map_iff in Hc. destruct Hc as [w [Hw Hwin]].
      apply (Hdis r Hr).
      destruct (Z.eq_dec (DB.geonameId w) (DB.geonameId v)) as [E|E].
      * rewrite <- Hw, E. apply in_map. exact Hv.
      * rewrite <- Hw. apply in_map. apply put_In_iff; auto.
    + intros r. rewrite Hin, (put_In_iff v r s Hs). split.
      * intros [Hr|[->|[Hr _]]]; auto.
      * intros [[<-|Hr]|Hr]; auto.
        destruct (Z.eq_dec (DB.geonameId r) (DB.geonameId v)) as [E|E]; auto.
        exfalso. apply Eg. rewrite <- E. apply in_map. exact Hr.
    + rewrite Hl, Hlen. lia.
Qed.

Lemma addAll_total (cs s : list DB.City) :
  keysAscending s ->
  NoDup (List.map DB.geonameId cs) ->
  (forall r, In r cs -> ~ In (DB.geonameId r) (List.map DB.geonameId s)) ->
  exists s', ObjectStore.addAll DB.geonameId Z.compare cs s = Some s'.
Proof.
  revert s. induction cs as [|v cs IH]; simpl; intros s Hs Hnd Hdis.
  - eauto.
  - inversion Hnd as [|? ? Hv Hnd']; subst.
    assert (Eg : ObjectStore.get DB.geonameId Z.compare (DB.geonameId v) s = None).
    { apply (get_None_keys DB.geonameId Z.compare Z.compare_refl
               (fun a b => proj1 (Z.compare_eq_iff a b))).
      apply Hdis. auto. }
    rewrite Eg. apply IH; [apply put_keysAscending; exact Hs|exact Hnd'|].
    intros r Hr Hc. apply in_map_iff in Hc. destruct Hc as [w [Hw Hwin]].
    apply put_In_iff in Hwin; [|exact Hs].
    destruct Hwin as [->|[Hwin _]].
    + apply Hv. rewrite Hw. apply in_map. exact Hr.
    + apply (Hdis r); auto. rewrite <- Hw. apply in_map. exact Hwin.
Qed.

(** X9.  On an initialised store [loadCities] resolves exactly when the
    ids of the batch are pairwise distinct; otherwise it rejects with the
    transaction's error and the transaction leaves the database as it
    was, the old cities included. *)
Theorem loadCities_outcome (now : Z) (cs : list DB.City) (db : DB.GeoNamesDB) :
  DB.isReady db = true ->
  (snd (DB.loadCities now cs db) = Resolved tt
   <-> NoDup (List.map DB.geonameId cs))
  /\ (snd (DB.loadCities now cs db) = Resolved tt
      \/ DB.loadCities now cs db = (db, Rejected TransactionFailed)).
Proof.
  intros Hready. unfold DB.loadCities. rewrite Hready. simpl.
  destruct (ObjectStore.addAll DB.geonameId Z.compare cs []) as [store|] eqn:E;
    simpl.
  - split; [|auto]. split; [intros _|reflexivity].
    apply (addAll_spec cs [] store); [constructor|exact E].
  - split; [|auto]. split; [discriminate|].
    intros Hnd. destruct (addAll_total cs []) as [s' Hs'];
      [constructor|exact Hnd|intros r _ []|congruence].
Qed.

Lemma loadCities_outcome_witness :
  DB.isReady parisTokyoStore = true
  /\ (snd (DB.loadCities 0 [parisFR; parisFR] parisTokyoStore) = Resolved tt
      <-> NoDup (List.map DB.geonameId [parisFR; parisFR]))
  /\ (snd (DB.loadCities 0 [parisFR; parisFR] parisTokyoStore) = Resolved tt
      \/ DB.loadCities 0 [parisFR; parisFR] parisTokyoStore
         = (parisTokyoStore, Rejected TransactionFailed)).
Proof.
  split; [reflexivity|].
  apply (loadCities_outcome 0 [parisFR; parisFR] parisTokyoStore).
  reflexivity.
Defined.

(** X10.  What [loadCities] stores can be read back: after a load of a
    batch with distinct ids the bundled partition holds exactly the batch
    (earlier cities are gone), in ascending id order; [getCitiesCount] is
    the size of the batch, [isCitiesLoaded] is true, [getCityById] finds
    each city of the batch under its id and nothing under any other id; the
    downloaded partition and the download cache are untouched. *)
Theorem loadCities_round_trip (now : Z) (cs : list DB.City) (db : DB.GeoNamesDB) :
  DB.isReady db = true ->
  NoDup (List.map DB.geonameId cs) ->
  (forall r, In r (DB.cities (fst (DB.loadCities now cs db))) <-> In r cs)
  /\ keysAscending (DB.cities (fst (DB.loadCities now cs db)))
  /\ DB.getCitiesCount (fst (DB.loadCities now cs db))
     = Resolved (List.length cs)
  /\ DB.isCitiesLoaded (fst (DB.loadCities now cs db)) = Resolved true
  /\ (forall r, In r cs ->
        DB.getCityById (fst (DB.loadCities now cs db)) (DB.geonameId r)
        = Resolved (Some r))
  /\ (forall id, ~ In id (List.map DB.geonameId cs) ->
        DB.getCityById (fst (DB.loadCities now cs db)) id = Resolved None)
  /\ DB.countryData (fst (DB.loadCities now cs db)) = DB.countryData db
  /\ DB.downloadCache (fst (DB.loadCities now cs db)) = DB.downloadCache db.
Proof.
  intros Hready Hnd. unfold DB.loadCities. rewrite Hready. simpl.
  destruct (addAll_total cs []) as [store E];
    [constructor|exact Hnd|intros r _ []|].
  rewrite E. simpl.
  pose proof (addAll_keysAscending cs [] store
                (SSorted_nil _) E) as Hsorted.
  destruct (addAll_spec cs [] store (SSorted_nil _) E)
    as [_ [_ [Hin Hlen]]].
  assert (Hin' : forall r, In r store <-> In r cs).
  { intros r. rewrite Hin. simpl. tauto. }
  unfold DB.getCitiesCount, DB.isCitiesLoaded, DB.getCityById. simpl.
  pose proof (get_put_same DB.key String.compare string_compare_refl
                (DB.mkMetaEntry "citiesLoaded" now (List.length cs))
                (DB.metadata db)) as Hmarker.
  simpl in Hmarker. rewrite Hmarker.
  repeat split; try (apply Hin'; assumption); auto.
  - rewrite Hlen. simpl. rewrite Nat.add_0_r. reflexivity.
  - intros r Hr. f_equal. apply city_get_sorted; [exact Hsorted|].
    apply Hin'. exact Hr.
  - intros id Hid. f_equal.
    apply (get_None_keys DB.geonameId Z.compare Z.compare_refl
             (fun a b => proj1 (Z.compare_eq_iff a b))).
    intros Hc. apply Hid. apply in_map_iff in Hc.
    destruct Hc as [r [Hr Hrin]]. rewrite <- Hr. apply in_map.
    apply Hin'. exact Hrin.
Qed.

Lemma loadCities_round_trip_witness :
  DB.isReady parisTokyoStore = true
  /\ NoDup (List.map DB.geonameId [tokyoJP; berlinDE])
  /\ DB.getCitiesCount
       (fst (DB.loadCities 0 [tokyoJP; berlinDE] parisTokyoStore))
     = Resolved 2.
Proof.
  assert (Hnd : NoDup (List.map DB.geonameId [tokyoJP; berlinDE])).
  { constructor; [|constructor; [|constructor]]; simpl.
    - intros [H|[]]. discriminate H.
    - intros []. }
  split; [reflexivity|]. split; [exact Hnd|].
  apply (loadCities_round_trip 0 [tokyoJP; berlinDE] parisTokyoStore
           eq_refl Hnd).
Defined.

Lemma lastWithId_cons (v r : DB.City) (cs : list DB.City) :
  lastWithId (v :: cs) r
  <-> (r = v /\ ~ In (DB.geonameId v) (List.map DB.geonameId cs))
      \/ lastWithId cs r.
Proof.
  unfold lastWithId. split.
  - intros [before [after [Hcs Hlast]]].
    destruct before as [|b before]; simpl in Hcs; injection Hcs as -> ->.
    + left. auto.
    + right. eauto.
  - intros [[-> Hlast]|[before [after [-> Hlast]]]].
    + exists [], cs. auto.
    + exists (v :: before), after. auto.
Qed.

Lemma lastWithId_In (r : DB.City) (cs : list DB.City) :
  lastWithId cs r -> In r cs.
Proof.
  intros [before [after [-> _]]]. apply in_or_app. right. left. reflexivity.
Qed.

Lemma putAll_In_iff (cs s : list DB.City) (r : DB.City) :
  keysAscending s ->
  (In r (ObjectStore.putAll DB.geonameId Z.compare cs s)
   <-> lastWithId cs r
       \/ (In r s /\ ~ In (DB.geonameId r) (List.map DB.geonameId cs))).
Proof.
  unfold ObjectStore.putAll. revert s.
  induction cs as [|v cs IH]; simpl; intros s Hs.
  - split; [auto|]. intros [[before [after [H _]]]|[H _]]; [|exact H].
    destruct before; discriminate.
  - rewrite (IH _ (put_keysAscending v s Hs)), lastWithId_cons,
      (put_In_iff v r s Hs).
    split.
    + intros [H|[[->|[Hin Hne]] Hnot]]; auto.
      right. split; auto. intros [E|Hc]; auto.
    + intros [[[-> Hnot]|H]|[Hin Hnot]]; auto.
      right. split; [|tauto]. right. split; [exact Hin|].
      intros E. apply Hnot. left. symmetry. exact E.
Qed.

Lemma put_cacheAscending (e : DB.CacheEntry) (l : list DB.CacheEntry) :
  cacheAscending l ->
  cacheAscending (ObjectStore.put DB.countryCode String.compare e l).
Proof.
  unfold cacheAscending, codeUnitLt.
  induction 1 as [|a l Hs IH Hall]; simpl.
  - repeat constructor.
  - destruct (String.compare (DB.countryCode e) (DB.countryCode a)) eqn:E.
    + apply string_compare_eq in E. constructor; auto. rewrite E. exact Hall.
    + constructor; [constructor; auto|].
      constructor; [exact E|].
      eapply Forall_impl; [|exact Hall]. simpl.
      intros b Hb. eapply compare_Lt_trans; eauto.
    + assert (Hae : String.compare (DB.countryCode a) (DB.countryCode e) = Lt).
      { rewrite String.compare_antisym, E. reflexivity. }
      constructor; [exact IH|].
      rewrite Forall_forall in *. intros b Hb.
      assert (Hcases : b = e \/ In b l).
      { clear - Hb. induction l as [|c l IHl]; simpl in Hb.
        - destruct Hb as [<-|[]]; auto.
        - destruct (String.compare (DB.countryCode e) (DB.countryCode c));
            simpl in Hb.
          + destruct Hb as [<-|Hb]; auto. right. right. exact Hb.
          + destruct Hb as [<-|Hb]; auto.
          + destruct Hb as [<-|Hb]; [right; left; reflexivity|].
            destruct (IHl Hb); auto. right. right. assumption. }
      destruct Hcases as [->|Hin]; auto.
Qed.

Lemma cache_get_sorted (l : list DB.CacheEntry) (e : DB.CacheEntry) :
  cacheAscending l -> In e l ->
  ObjectStore.get DB.countryCode String.compare (DB.countryCode e) l = Some e.
Proof.
  unfold cacheAscending, codeUnitLt.
  induction 1 as [|a l Hs IH Hall]; simpl; [tauto|].
  intros [->|Hin].
  - rewrite string_compare_refl. reflexivity.
  - rewrite Forall_forall in Hall. specialize (Hall e Hin).
    rewrite String.compare_antisym, Hall. simpl. apply IH. exact Hin.
Qed.

Lemma cacheAscending_NoDup (l : list DB.CacheEntry) :
  cacheAscending l -> NoDup (List.map DB.countryCode l).
Proof.
  unfold cacheAscending, codeUnitLt.
  induction 1 as [|a l Hs IH Hall]; simpl; constructor; auto.
  intros Hin. apply in_map_iff in Hin. destruct Hin as [b [Hb Hin]].
  rewrite Forall_forall in Hall. specialize (Hall b Hin).
  rewrite Hb, string_compare_refl in Hall. discriminate.
Qed.

Lemma reachable_cacheAscending (db : DB.GeoNamesDB) :
  reachable db -> cacheAscending (DB.downloadCache db).
Proof.
  induction 1 as [|opened db _ IH|now cs db _ IH|now code cs db _ IH|db _ IH].
  - constructor.
  - destruct opened; simpl; exact IH.
  - unfold DB.loadCities. destruct (negb (DB.isReady db)); simpl; [exact IH|].
    destruct (ObjectStore.addAll DB.geonameId Z.compare cs []); simpl; exact IH.
  - unfold DB.loadCountryData.
    destruct (negb (DB.isReady db)); simpl; [exact IH|].
    apply put_cacheAscending. exact IH.
  - exact IH.
Qed.

Lemma reachable_markerAgrees (db : DB.GeoNamesDB) :
  reachable db -> markerAgrees db.
Proof.
  induction 1 as [|opened db _ IH|now cs db _ IH|now code cs db _ IH|db _ IH].
  - left. auto.
  - destruct opened; simpl; exact IH.
  - unfold DB.loadCities. destruct (negb (DB.isReady db)); simpl; [exact IH|].
    destruct (ObjectStore.addAll DB.geonameId Z.compare cs []) as [store|] eqn:E;
      simpl; [|exact IH].
    destruct (addAll_spec cs [] store (SSorted_nil _) E) as [_ [_ [_ Hlen]]].
    right. exists (DB.mkMetaEntry "citiesLoaded" now (List.length cs)).
    cbn [DB.metadata DB.cities DB.key DB.count].
    split; [|split; [reflexivity|simpl in Hlen; lia]].
    destruct IH as [[Hm _]|[e [Hm [Hk _]]]]; rewrite Hm.
    + reflexivity.
    + unfold ObjectStore.put. cbn [DB.key].
      rewrite Hk, string_compare_refl. reflexivity.
  - unfold DB.loadCountryData.
    destruct (negb (DB.isReady db)); simpl; exact IH.
  - exact IH.
Qed.

(** X11.  [loadCountryData] is an upsert into the downloaded partition: on
    an initialised store whose partition is in key order it resolves, and
    afterwards the partition holds, still in key order, the last record of
    the batch for each id of the batch together with the old records whose
    id the batch does not mention; the cache entry of the country can be
    read back with the size of the batch, the entries of other countries
    are as before, and the bundled partition and its marker are
    untouched. *)
Theorem loadCountryData_upsert (now code : string) (cs : list DB.City)
    (db : DB.GeoNamesDB) :
  DB.isReady db = true ->
  keysAscending (DB.countryData db) ->
  snd (DB.loadCountryData now code cs db) = Resolved tt
  /\ (forall r,
        In r (DB.countryData (fst (DB.loadCountryData now code cs db)))
        <-> lastWithId cs r
            \/ (In r (DB.countryData db)
                /\ ~ In (DB.geonameId r) (List.map DB.geonameId cs)))
  /\ keysAscending (DB.countryData (fst (DB.loadCountryData now code cs db)))
  /\ DB.getCountryDownloadInfo (fst (DB.loadCountryData now code cs db)) code
     = Resolved (Some (DB.mkCacheEntry code now (List.length cs)))
  /\ (forall other, other <> code ->
        DB.getCountryDownloadInfo (fst (DB.loadCountryData now code cs db)) other
        = DB.getCountryDownloadInfo db other)
  /\ DB.cities (fst (DB.loadCountryData now code cs db)) = DB.cities db
  /\ DB.metadata (fst (DB.loadCountryData now code cs db)) = DB.metadata db.
Proof.
  intros Hready Hsorted.
  unfold DB.loadCountryData, DB.getCountryDownloadInfo.
  rewrite Hready. simpl.
  split; [reflexivity|].
  split; [intros r; apply putAll_In_iff; exact Hsorted|].
  split; [apply putAll_keysAscending; exact Hsorted|].
  split; [|split; [|split; reflexivity]].
  - pose proof (get_put_same DB.countryCode String.compare string_compare_refl
                  (DB.mkCacheEntry code now (List.length cs))
                  (DB.downloadCache db)) as H.
    simpl in H. rewrite H. reflexivity.
  - intros other Hother.
    pose proof (get_put_other DB.countryCode String.compare
                  (fun a b => proj1 (string_compare_eq a b))
                  (DB.mkCacheEntry code now (List.length cs))
                  (DB.downloadCache db) other Hother) as H.
    rewrite H. reflexivity.
Qed.

Lemma loadCountryData_upsert_witness :
  DB.isReady parisStore = true
  /\ keysAscending (DB.countryData parisStore)
  /\ DB.getCountryDownloadInfo
       (fst (DB.loadCountryData "2024-01-01T00:00:00.000Z" "JP" [tokyoJP]
               parisStore)) "JP"
     = Resolved (Some (DB.mkCacheEntry "JP" "2024-01-01T00:00:00.000Z" 1)).
Proof.
  assert (Hs : keysAscending (DB.countryData parisStore)).
  { unfold keysAscending. simpl.
    repeat constructor. }
  split; [reflexivity|]. split; [exact Hs|].
  apply (loadCountryData_upsert "2024-01-01T00:00:00.000Z" "JP" [tokyoJP]
           parisStore eq_refl Hs).
Defined.

(** X12.  After [loadCountryData(code, batch)] the check
    [isCountryDownloaded(code)] answers true exactly when the partition now
    holds a record of that country: one that the batch put there, or an
    older one that the batch did not replace.  The batch is not checked
    against [code]: after an empty batch, or a batch of another country,
    into a partition without records of that country, the country is
    marked in the cache and still reported as not downloaded. *)
Theorem loadCountryData_then_isCountryDownloaded (now code : string)
    (cs : list DB.City) (db : DB.GeoNamesDB) :
  DB.isReady db = true ->
  keysAscending (DB.countryData db) ->
  (DB.isCountryDownloaded (fst (DB.loadCountryData now code cs db)) code
   = Resolved true
   <-> exists r,
         DB.country r = code
         /\ (lastWithId cs r
             \/ (In r (DB.countryData db)
                 /\ ~ In (DB.geonameId r) (List.map DB.geonameId cs))))
  /\ (DB.isCountryDownloaded (fst (DB.loadCountryData now code cs db)) code
      = Resolved true
      \/ DB.isCountryDownloaded (fst (DB.loadCountryData now code cs db)) code
         = Resolved false).
Proof.
  intros Hready Hsorted.
  unfold DB.loadCountryData, DB.isCountryDownloaded.
  rewrite Hready. simpl.
  pose proof (get_put_same DB.countryCode String.compare string_compare_refl
                (DB.mkCacheEntry code now (List.length cs))
                (DB.downloadCache db)) as H.
  simpl in H. rewrite H. clear H.
  destruct (ObjectStore.indexCount DB.country code
              (ObjectStore.putAll DB.geonameId Z.compare cs (DB.countryData db))
            =? 0) eqn:Hcnt.
  - apply Nat.eqb_eq in Hcnt.
    pose proof (proj1 (indexCount_zero _ _ _) Hcnt) as Hnone.
    split; [|auto]. split; [discriminate|].
    intros [r [Hc Hr]]. exfalso. apply (Hnone r); [|exact Hc].
    apply putAll_In_iff; assumption.
  - apply Nat.eqb_neq in Hcnt.
    split; [|auto]. split; [intros _|reflexivity].
    destruct (ObjectStore.indexGetAll DB.country code
                (ObjectStore.putAll DB.geonameId Z.compare cs (DB.countryData db)))
      as [|r l] eqn:E.
    { unfold ObjectStore.indexCount in Hcnt. rewrite E in Hcnt. contradiction. }
    assert (Hr : In r (ObjectStore.indexGetAll DB.country code
                (ObjectStore.putAll DB.geonameId Z.compare cs (DB.countryData db))))
      by (rewrite E; left; reflexivity).
    apply indexGetAll_In in Hr. destruct Hr as [Hin Hc].
    exists r. split; [exact Hc|]. apply putAll_In_iff; assumption.
Qed.

Lemma loadCountryData_then_isCountryDownloaded_witness :
  DB.isReady parisStore = true
  /\ keysAscending (DB.countryData parisStore)
  /\ (DB.isCountryDownloaded
        (fst (DB.loadCountryData "2024-01-01T00:00:00.000Z" "JP" [berlinDE]
                parisStore)) "JP"
      = Resolved true
      <-> exists r,
            DB.country r = "JP"
            /\ (lastWithId [berlinDE] r
                \/ (In r (DB.countryData parisStore)
                    /\ ~ In (DB.geonameId r)
                           (List.map DB.geonameId [berlinDE])))).
Proof.
  assert (Hs : keysAscending (DB.countryData parisStore)).
  { unfold keysAscending. simpl.
    repeat constructor. }
  split; [reflexivity|]. split; [exact Hs|].
  apply (loadCountryData_then_isCountryDownloaded
           "2024-01-01T00:00:00.000Z" "JP" [berlinDE] parisStore eq_refl Hs).
Defined.

(** X13.  In every store that the wrapper's operations build, the download
    cache holds one entry per country code: [getDownloadedCountries] lists
    the entries by ascending code without repeating a code, and the entries
    listed are exactly those that [getCountryDownloadInfo] returns for
    their own code. *)
Theorem downloadCache_one_entry_per_country (db : DB.GeoNamesDB) :
  reachable db ->
  DB.isReady db = true ->
  exists entries,
    DB.getDownloadedCountries db = Resolved entries
    /\ cacheAscending entries
    /\ NoDup (List.map DB.countryCode entries)
    /\ (forall e, In e entries
                  <-> DB.getCountryDownloadInfo db (DB.countryCode e)
                      = Resolved (Some e)).
Proof.
  intros Hreach Hready.
  pose proof (reachable_cacheAscending db Hreach) as Hsorted.
  unfold DB.getDownloadedCountries, DB.getCountryDownloadInfo.
  rewrite Hready. simpl.
  exists (DB.downloadCache db).
  split; [reflexivity|]. split; [exact Hsorted|].
  split; [apply cacheAscending_NoDup; exact Hsorted|].
  intros e. split.
  - intros Hin. f_equal. apply cache_get_sorted; assumption.
  - intros H. injection H as H.
    apply (get_Some_In DB.countryCode String.compare
             (fun a b => proj1 (string_compare_eq a b))) in H.
    tauto.
Qed.

Lemma downloadCache_one_entry_per_country_witness :
  reachable downloadedStore
  /\ DB.isReady downloadedStore = true
  /\ exists entries,
       DB.getDownloadedCountries downloadedStore = Resolved entries
       /\ cacheAscending entries
       /\ NoDup (List.map DB.countryCode entries)
       /\ (forall e, In e entries
                     <-> DB.getCountryDownloadInfo downloadedStore
                           (DB.countryCode e)
                         = Resolved (Some e)).
Proof.
  assert (Hr : reachable downloadedStore).
  { unfold downloadedStore, loadedStore. repeat constructor. }
  split; [exact Hr|]. split; [reflexivity|].
  apply (downloadCache_one_entry_per_country downloadedStore Hr).
  reflexivity.
Defined.

(** X14.  In every store that the wrapper's operations build, the
    ['citiesLoaded'] marker agrees with the bundled partition: either
    [isCitiesLoaded] is false and the partition is empty, or it is true,
    the marker is the only metadata entry, and the count it records is what
    [getCitiesCount] returns. *)
Theorem citiesLoaded_marker_agrees (db : DB.GeoNamesDB) :
  reachable db ->
  DB.isReady db = true ->
  (DB.isCitiesLoaded db = Resolved false
   /\ DB.getCitiesCount db = Resolved 0
   /\ DB.metadata db = [])
  \/ (DB.isCitiesLoaded db = Resolved true
      /\ exists e,
           DB.metadata db = [e]
           /\ DB.key e = "citiesLoaded"
           /\ DB.getCitiesCount db = Resolved (DB.count e)).
Proof.
  intros Hreach Hready.
  unfold DB.isCitiesLoaded, DB.getCitiesCount. rewrite Hready. simpl.
  destruct (reachable_markerAgrees db Hreach) as [[Hm Hc]|[e [Hm [Hk Hc]]]].
  - left. rewrite Hm, Hc. auto.
  - right. rewrite Hm. simpl. rewrite Hk. simpl.
    split; [reflexivity|]. exists e. rewrite Hc. auto.
Qed.

Lemma citiesLoaded_marker_agrees_witness :
  reachable loadedStore
  /\ DB.isReady loadedStore = true
  /\ ((DB.isCitiesLoaded loadedStore = Resolved false
       /\ DB.getCitiesCount loadedStore = Resolved 0
       /\ DB.metadata loadedStore = [])
      \/ (DB.isCitiesLoaded loadedStore = Resolved true
          /\ exists e,
               DB.metadata loadedStore = [e]
               /\ DB.key e = "citiesLoaded"
               /\ DB.getCitiesCount loadedStore = Resolved (DB.count e))).
Proof.
  assert (Hr : reachable loadedStore).
  { unfold loadedStore. repeat constructor. }
  split; [exact Hr|]. split; [reflexivity|].
  apply (citiesLoaded_marker_agrees loadedStore Hr eq_refl).
Defined.

(* ================================================================== *)
(** * The content script: [cleanText] *)

Lemma get_hasChar (s : string) (i : nat) (c : ascii) :
  String.get i s = Some c -> hasChar c s = true.
Proof.
  revert i. induction s as [|a s IH]; intros i; simpl; [discriminate|].
  destruct i as [|i].
  - intros H. injection H as ->. rewrite Ascii.eqb_refl. reflexivity.
  - intros H. rewrite (IH _ H). apply orb_true_r.
Qed.

Lemma substring_all (s : string) : Str.substring 0 (String.length s) s = s.
Proof.
  unfold Str.substring. rewrite Nat.sub_0_r.
  induction s as [|a s IH]; simpl; [reflexivity|]. rewrite IH. reflexivity.
Qed.

Lemma lineFeed_isWhiteSpace : isWhiteSpace Text.lineFeed = true.
Proof. reflexivity. Qed.

Lemma collapseFrom_no_lineFeed (b : bool) (s : string) :
  hasChar Text.lineFeed (collapseFrom b s) = false.
Proof.
  revert b. induction s as [|a s IH]; intros b; simpl; [reflexivity|].
  destruct (isWhiteSpace a) eqn:Ews.
  - destruct b; simpl; apply IH.
  - simpl. rewrite IH.
    destruct (Ascii.eqb_spec a Text.lineFeed) as [->|]; [|reflexivity].
    rewrite lineFeed_isWhiteSpace in Ews. discriminate.
Qed.

Lemma collapsed_no_lineFeed (b : bool) (s : string) :
  collapsedFrom b s = true -> hasChar Text.lineFeed s = false.
Proof.
  revert b. induction s as [|a s IH]; intros b; simpl; [reflexivity|].
  destruct (isWhiteSpace a) eqn:Ews.
  - intros H. apply andb_true_iff in H. destruct H as [H Hs].
    apply andb_true_iff in H. destruct H as [_ Ha].
    apply Ascii.eqb_eq in Ha. subst a. simpl. apply (IH true). exact Hs.
  - intros H. rewrite (IH false H).
    destruct (Ascii.eqb_spec a Text.lineFeed) as [->|]; [|reflexivity].
    rewrite lineFeed_isWhiteSpace in Ews. discriminate.
Qed.

Lemma exec_blankLines_none (text : string) (i : nat) :
  hasChar Text.lineFeed text = false ->
  RegExp.exec ContentScript.blankLines text i = None.
Proof.
  intros Hno.
  destruct (RegExp.exec ContentScript.blankLines text i) as [m|] eqn:E;
    [|reflexivity].
  destruct (exec_Matches _ _ _ _ E) as [y [_ [_ [HM _]]]].
  unfold ContentScript.blankLines in HM.
  inversion HM as [|? ? ? x1 ? Hfirst _| | | |]; subst.
  inversion Hfirst as [p x' ch Hget Hp| | | | |]; subst.
  apply Ascii.eqb_eq in Hp. subst ch.
  apply get_hasChar in Hget. congruence.
Qed.

Lemma replaceAll_blankLines_fixed (text : string) :
  hasChar Text.lineFeed text = false ->
  Text.replaceAll ContentScript.blankLines (String Text.lineFeed EmptyString)
    text = text.
Proof.
  intros Hno. unfold Text.replaceAll.
  cbn [Text.replaceLoop]. rewrite (exec_blankLines_none text 0 Hno).
  simpl. apply substring_all.
Qed.

Lemma cleanText_unfold (text : string) :
  ContentScript.cleanText text = trim (collapseWhitespace text).
Proof.
  unfold ContentScript.cleanText.
  rewrite replaceAll_blankLines_fixed; [reflexivity|].
  apply collapseFrom_no_lineFeed.
Qed.

(** X15.  The second replacement of [cleanText] never finds a match, because
    the first one has already turned every line feed into a space: the
    result is the whitespace-collapsed, trimmed text.  Its only whitespace
    is single spaces between other characters, cleaning twice is the same
    as cleaning once, and [normalizeText] is [cleanText] after
    [toLowerCase]. *)
Theorem cleanText_collapses (text : string) :
  ContentScript.cleanText text = trim (collapseWhitespace text)
  /\ collapsedFrom false (ContentScript.cleanText text) = true
  /\ hasChar Text.lineFeed (ContentScript.cleanText text) = false
  /\ ContentScript.cleanText (ContentScript.cleanText text)
     = ContentScript.cleanText text
  /\ normalizeText text = ContentScript.cleanText (toLowerCase text).
Proof.
  assert (Hc : collapsedFrom false (trim (collapseWhitespace text)) = true).
  { unfold trim, collapseWhitespace.
    apply trimEnd_collapsed. eapply trimStart_collapsed.
    apply collapseFrom_collapsed. }
  rewrite !cleanText_unfold.
  split; [reflexivity|]. split; [exact Hc|]. split; [|split].
  - apply (collapsed_no_lineFeed false). exact Hc.
  - unfold collapseWhitespace at 1.
    rewrite (collapsed_fixed false _ Hc). apply trim_idempotent.
  - reflexivity.
Qed.

(* ================================================================== *)
(** * The side panel: [validateApiKey] *)

Lemma trimStart_blank (s : string) : blank s = true -> trimStart s = EmptyString.
Proof.
  induction s as [|a s IH]; simpl; [reflexivity|].
  intros H. apply andb_true_iff in H. destruct H as [Ha Hs].
  rewrite Ha. apply IH. exact Hs.
Qed.

Lemma trimEnd_empty_blank (s : string) :
  trimEnd s = EmptyString -> blank s = true.
Proof.
  induction s as [|a s IH]; simpl; [reflexivity|].
  destruct (trimEnd s) as [|b t]; [|discriminate].
  destruct (isWhiteSpace a); [|discriminate].
  intros _. simpl. apply IH. reflexivity.
Qed.

Lemma trimStart_blank_inv (s : string) :
  blank (trimStart s) = true -> blank s = true.
Proof.
  induction s as [|a s IH]; simpl; [reflexivity|].
  destruct (isWhiteSpace a) eqn:Ews; simpl.
  - exact IH.
  - rewrite Ews. discriminate.
Qed.

Lemma trim_empty_iff (s : string) :
  trim s = EmptyString <-> blank s = true.
Proof.
  unfold trim. split.
  - intros H. apply trimStart_blank_inv. apply trimEnd_empty_blank. exact H.
  - intros H. rewrite (trimStart_blank s H). reflexivity.
Qed.

Lemma string_eqb_empty (s : string) :
  String.eqb s EmptyString = negb (truthy s).
Proof. destruct s; reflexivity. Qed.

(** X16.  [validateApiKey] accepts a key exactly when it starts with
    [AIza] and is at least 30 characters long; it reports a missing key
    exactly for the keys made of whitespace only (the empty key included),
    a wrong format for the other keys without the prefix, and a short key
    for keys with the prefix and fewer than 30 characters. *)
Theorem validateApiKey_verdict (key : string) :
  (SidePanel.validateApiKey (Some key) = SidePanel.Valid
   <-> Text.startsWith "AIza" key = true /\ 30 <= String.length key)
  /\ (SidePanel.validateApiKey (Some key)
      = SidePanel.Invalid SidePanel.KeyRequired
      <-> blank key = true)
  /\ (SidePanel.validateApiKey (Some key)
      = SidePanel.Invalid SidePanel.KeyFormat
      <-> blank key = false /\ Text.startsWith "AIza" key = false)
  /\ (SidePanel.validateApiKey (Some key)
      = SidePanel.Invalid SidePanel.KeyTooShort
      <-> Text.startsWith "AIza" key = true /\ String.length key < 30).
Proof.
  assert (Hprefix : Text.startsWith "AIza" key = true -> blank key = false).
  { unfold Text.startsWith. intros H. apply String.prefix_correct in H.
    destruct key as [|a k]; [discriminate H|].
    simpl in H. injection H as -> _. reflexivity. }
  unfold SidePanel.validateApiKey.
  assert (Hreq : negb (truthy key) || String.eqb (trim key) EmptyString
                 = blank key).
  { destruct (blank key) eqn:Eb.
    - apply trim_empty_iff in Eb. rewrite Eb. apply orb_true_r.
    - assert (Ht : trim key <> EmptyString).
      { intros Ht. apply trim_empty_iff in Ht. congruence. }
      destruct key as [|a k]; [discriminate|]. simpl.
      destruct (trim (String a k)); [contradiction|reflexivity]. }
  rewrite Hreq.
  destruct (blank key) eqn:Eb.
  - repeat split; try discriminate; intros [H1 H2];
      try (apply Hprefix in H1); discriminate.
  - destruct (Text.startsWith "AIza" key) eqn:Ep; simpl.
    + destruct (Nat.ltb_spec (String.length key) 30).
      * repeat split; try discriminate; auto; intros [H1 H2];
          try discriminate; lia.
      * repeat split; try discriminate; auto; intros [H1 H2];
          try discriminate; lia.
    + repeat split; try discriminate; intros [H1 H2]; discriminate.
Qed.

(* ================================================================== *)
(** * The parser of the GeoNames dumps *)

Example parseInt_decimal : Text.parseInt "2996944" = Text.Int 2996944.
Proof. reflexivity. Qed.

Example parseInt_prefix : Text.parseInt "  -42abc" = Text.Int (-42).
Proof. reflexivity. Qed.

Example parseInt_hex : Text.parseInt "0x1A" = Text.Int 26.
Proof. reflexivity. Qed.

Example parseInt_no_digit :
  Text.parseInt "" = Text.NaN /\ Text.parseInt "P" = Text.NaN
  /\ Text.parseInt "0x" = Text.NaN.
Proof. repeat split. Qed.

Lemma split_nonempty (sep : ascii) (s : string) : Text.split sep s <> [].
Proof.
  destruct s as [|a s]; simpl; [discriminate|].
  destruct (Ascii.eqb a sep); [discriminate|].
  destruct (Text.split sep s); discriminate.
Qed.

Lemma split_app (sep : ascii) (a b : string) :
  Text.split sep (a ++ String sep b) = Text.split sep a ++ Text.split sep b.
Proof.
  induction a as [|c a IH]; simpl.
  - rewrite Ascii.eqb_refl. reflexivity.
  - destruct (Ascii.eqb c sep); [rewrite IH; reflexivity|].
    rewrite IH.
    destruct (Text.split sep a) as [|h t] eqn:E;
      [exfalso; exact (split_nonempty sep a E)|].
    reflexivity.
Qed.

Lemma split_fixed (sep : ascii) (s : string) :
  hasChar sep s = false -> Text.split sep s = [s].
Proof.
  induction s as [|c s IH]; simpl; [reflexivity|].
  intros H. apply orb_false_iff in H. destruct H as [Hc Hs].
  rewrite Hc, (IH Hs). reflexivity.
Qed.

Lemma hasChar_app (c : ascii) (a b : string) :
  hasChar c (a ++ b) = hasChar c a || hasChar c b.
Proof.
  induction a as [|x a IH]; simpl; [reflexivity|].
  rewrite IH. apply orb_assoc.
Qed.

Lemma blank_app (a b : string) : blank (a ++ b) = blank a && blank b.
Proof.
  induction a as [|x a IH]; simpl; [reflexivity|].
  rewrite IH. apply andb_assoc.
Qed.

Lemma split_join (sep : ascii) (parts : list string) :
  parts <> [] ->
  (forall p, In p parts -> hasChar sep p = false) ->
  Text.split sep (Text.join (String sep EmptyString) parts) = parts.
Proof.
  induction parts as [|p parts IH]; intros Hne Hall; [contradiction|].
  destruct parts as [|q parts].
  - simpl. apply split_fixed. apply Hall. left. reflexivity.
  - change (Text.join (String sep EmptyString) (p :: q :: parts))
      with (p ++ String sep (Text.join (String sep EmptyString) (q :: parts)))%string.
    rewrite split_app, IH; [|discriminate|intros x Hx; apply Hall; right; exact Hx].
    rewrite split_fixed; [reflexivity|]. apply Hall. left. reflexivity.
Qed.

Lemma join_hasChar (c sep : ascii) (parts : list string) :
  c <> sep ->
  (forall p, In p parts -> hasChar c p = false) ->
  hasChar c (Text.join (String sep EmptyString) parts) = false.
Proof.
  intros Hc. induction parts as [|p parts IH]; intros Hall; [reflexivity|].
  destruct parts as [|q parts].
  - simpl. apply Hall. left. reflexivity.
  - change (Text.join (String sep EmptyString) (p :: q :: parts))
      with (p ++ String sep (Text.join (String sep EmptyString) (q :: parts)))%string.
    rewrite hasChar_app. cbn [hasChar].
    rewrite IH; [|intros x Hx; apply Hall; right; exact Hx].
    rewrite (Hall p); [|left; reflexivity].
    destruct (Ascii.eqb_spec sep c); [congruence|reflexivity].
Qed.

Lemma join_blank (sep : string) (parts : list string) (p : string) :
  blank (Text.join sep parts) = true -> In p parts -> blank p = true.
Proof.
  induction parts as [|q parts IH]; intros Hb Hin; [contradiction|].
  destruct parts as [|q' parts].
  - destruct Hin as [<-|[]]. exact Hb.
  - change (Text.join sep (q :: q' :: parts))
      with (q ++ sep ++ Text.join sep (q' :: parts))%string in Hb.
    rewrite !blank_app in Hb.
    apply andb_true_iff in Hb. destruct Hb as [Hq Hb].
    apply andb_true_iff in Hb. destruct Hb as [_ Hb].
    destruct Hin as [<-|Hin]; [exact Hq|]. apply IH; assumption.
Qed.

(** The pieces of a split hold no separator, and no character that the
    text does not hold. *)
Lemma split_pieces (sep : ascii) (s piece : string) :
  In piece (Text.split sep s) ->
  hasChar sep piece = false
  /\ forall c, hasChar c piece = true -> hasChar c s = true.
Proof.
  revert piece. induction s as [|a s IH]; intros piece; simpl.
  - intros [<-|[]]. split; [reflexivity|]. discriminate.
  - destruct (Ascii.eqb a sep) eqn:Ea.
    + intros [<-|Hin].
      * split; [reflexivity|]. discriminate.
      * destruct (IH _ Hin) as [H1 H2]. split; [exact H1|].
        intros c Hc. rewrite (H2 c Hc). apply orb_true_r.
    + destruct (Text.split sep s) as [|h t] eqn:E;
        [exfalso; exact (split_nonempty sep s E)|].
      intros [<-|Hin].
      * destruct (IH h (or_introl eq_refl)) as [H1 H2]. simpl.
        rewrite Ea, H1. split; [reflexivity|].
        intros c Hc. apply orb_true_iff in Hc. destruct Hc as [Hc|Hc].
        -- rewrite Hc. reflexivity.
        -- rewrite (H2 c Hc). apply orb_true_r.
      * destruct (IH piece (or_intror Hin)) as [H1 H2]. split; [exact H1|].
        intros c Hc. rewrite (H2 c Hc). apply orb_true_r.
Qed.

Lemma parseLines_acc (lines : list string) (cities : list Background.Place) :
  Background.parseLines lines cities
  = cities ++ Background.parseLines lines [].
Proof.
  revert cities. induction lines as [|line rest IH]; intros cities; simpl.
  - rewrite app_nil_r. reflexivity.
  - destruct (negb (truthy (trim line))); [apply IH|].
    destruct (List.length (Text.split Text.tab line) <? 15); [apply IH|].
    destruct (negb (String.eqb
                      (Background.field (Text.split Text.tab line) 6) "P"));
      [apply IH|].
    rewrite IH, (IH [_]), app_assoc. reflexivity.
Qed.

Lemma parseLines_app (l1 l2 : list string) :
  Background.parseLines (l1 ++ l2) []
  = Background.parseLines l1 [] ++ Background.parseLines l2 [].
Proof.
  induction l1 as [|line rest IH]; simpl; [reflexivity|].
  destruct (negb (truthy (trim line))); [exact IH|].
  destruct (List.length (Text.split Text.tab line) <? 15); [exact IH|].
  destruct (negb (String.eqb
                    (Background.field (Text.split Text.tab line) 6) "P"));
    [exact IH|].
  rewrite parseLines_acc, (parseLines_acc rest [_]), IH, app_assoc.
  reflexivity.
Qed.

Lemma parseLines_length (lines : list string) :
  List.length (Background.parseLines lines []) <= List.length lines.
Proof.
  induction lines as [|line rest IH]; simpl; [lia|].
  destruct (negb (truthy (trim line))); [lia|].
  destruct (List.length (Text.split Text.tab line) <? 15); [lia|].
  destruct (negb (String.eqb
                    (Background.field (Text.split Text.tab line) 6) "P"));
    [lia|].
  rewrite parseLines_acc, length_app. simpl. lia.
Qed.

Lemma parseGeoNamesData_app (a b code : string) :
  Background.parseGeoNamesData (a ++ String Text.lineFeed b) code
  = Background.parseGeoNamesData a code ++ Background.parseGeoNamesData b code.
Proof.
  unfold Background.parseGeoNamesData. rewrite split_app. apply parseLines_app.
Qed.

Lemma parseLines_In (lines : list string) (p : Background.Place) :
  In p (Background.parseLines lines []) ->
  exists line,
    In line lines
    /\ blank line = false
    /\ 15 <= List.length (Text.split Text.tab line)
    /\ Background.field (Text.split Text.tab line) 6 = "P"
    /\ p = Background.placeOfFields (Text.split Text.tab line).
Proof.
  induction lines as [|line rest IH]; simpl; [contradiction|].
  assert (Hrest : In p (Background.parseLines rest []) ->
                  exists line0,
                    (line = line0 \/ In line0 rest)
                    /\ blank line0 = false
                    /\ 15 <= List.length (Text.split Text.tab line0)
                    /\ Background.field (Text.split Text.tab line0) 6 = "P"
                    /\ p = Background.placeOfFields (Text.split Text.tab line0)).
  { intros H. destruct (IH H) as [l [Hl Hrest]]. exists l. tauto. }
  destruct (truthy (trim line)) eqn:Et; simpl; [|exact Hrest].
  destruct (Nat.ltb_spec (List.length (Text.split Text.tab line)) 15);
    [exact Hrest|].
  destruct (String.eqb_spec
              (Background.field (Text.split Text.tab line) 6) "P") as [EP|];
    simpl; [|exact Hrest].
  rewrite parseLines_acc. intros Hin. apply in_app_or in Hin.
  destruct Hin as [[<-|[]]|Hin]; [|exact (Hrest Hin)].
  exists line. repeat split; auto.
  destruct (blank line) eqn:Eb; [|reflexivity].
  apply trim_empty_iff in Eb. rewrite Eb in Et. discriminate.
Qed.

(** X17.  [parseGeoNamesData] works line by line: the places of a text are
    the places of the part before a line feed followed by the places of the
    part after it; a text yields at most one place per line, and the country
    code passed along has no influence on the result. *)
Theorem parseGeoNamesData_linewise (a b code code' : string) :
  Background.parseGeoNamesData (a ++ String Text.lineFeed b) code
  = Background.parseGeoNamesData a code ++ Background.parseGeoNamesData b code
  /\ List.length (Background.parseGeoNamesData a code)
     <= List.length (Text.split Text.lineFeed a)
  /\ Background.parseGeoNamesData a code = Background.parseGeoNamesData a code'.
Proof.
  split; [apply parseGeoNamesData_app|].
  split; [apply parseLines_length|reflexivity].
Qed.

(** X18.  What every parsed place looks like: it was built from a line of
    the text that is not blank and has at least 15 TAB-separated fields;
    its feature class is [P]; its [ascii] key is in lower case; it has at
    most five alternate names, none of which holds a comma; and its name
    holds neither a TAB nor a line feed. *)
Theorem parseGeoNamesData_places (text code : string) (p : Background.Place) :
  In p (Background.parseGeoNamesData text code) ->
  (exists line,
     In line (Text.split Text.lineFeed text)
     /\ blank line = false
     /\ 15 <= List.length (Text.split Text.tab line)
     /\ p = Background.placeOfFields (Text.split Text.tab line))
  /\ Background.fclass p = "P"
  /\ toLowerCase (Background.asciiName p) = Background.asciiName p
  /\ List.length (Background.alternates p) <= 5
  /\ (forall a, In a (Background.alternates p) -> hasChar Text.comma a = false)
  /\ hasChar Text.tab (Background.name p) = false
  /\ hasChar Text.lineFeed (Background.name p) = false.
Proof.
  unfold Background.parseGeoNamesData. intros Hin.
  destruct (parseLines_In _ _ Hin) as [line [Hline [Hb [Hlen [HP ->]]]]].
  split; [exists line; auto|].
  unfold Background.placeOfFields.
  cbn [Background.fclass Background.asciiName Background.alternates
       Background.name].
  split; [exact HP|]. split; [apply toLowerCase_idempotent|].
  split; [|split; [|split]].
  - destruct (truthy (Background.field (Text.split Text.tab line) 3));
      [|simpl; lia].
    rewrite length_firstn. lia.
  - intros a Ha.
    destruct (truthy (Background.field (Text.split Text.tab line) 3));
      [|contradiction].
    apply firstn_In in Ha. apply (split_pieces _ _ _ Ha).
  - assert (Hf : In (Background.field (Text.split Text.tab line) 1)
                   (Text.split Text.tab line))
      by (apply nth_In; lia).
    apply (split_pieces _ _ _ Hf).
  - assert (Hf : In (Background.field (Text.split Text.tab line) 1)
                   (Text.split Text.tab line))
      by (apply nth_In; lia).
    destruct (hasChar Text.lineFeed
                (Background.field (Text.split Text.tab line) 1)) eqn:E;
      [|reflexivity].
    apply (proj2 (split_pieces _ _ _ Hf)) in E.
    rewrite (proj1 (split_pieces _ _ _ Hline)) in E. discriminate.
Qed.

Lemma parseGeoNamesData_places_witness :
  In (Background.placeOfFields lyonRow)
    (Background.parseGeoNamesData (dumpText [rhoneRow; lyonRow]) "FR")
  /\ Background.fclass (Background.placeOfFields lyonRow) = "P".
Proof.
  assert (Hin : In (Background.placeOfFields lyonRow)
                  (Background.parseGeoNamesData (dumpText [rhoneRow; lyonRow])
                     "FR")).
  { vm_compute. left. reflexivity. }
  split; [exact Hin|].
  apply (parseGeoNamesData_places (dumpText [rhoneRow; lyonRow]) "FR"
           (Background.placeOfFields lyonRow) Hin).
Defined.

Lemma parse_row (row : list string) (code : string) :
  wellFormedRow row ->
  Background.parseGeoNamesData (Text.join (String Text.tab EmptyString) row) code
  = if isPopulatedPlace row then [Background.placeOfFields row] else [].
Proof.
  intros [Hlen Hall].
  assert (Hne : row <> []) by (destruct row; [simpl in Hlen; lia|discriminate]).
  unfold Background.parseGeoNamesData.
  rewrite split_fixed.
  2:{ apply join_hasChar; [discriminate|]. intros f Hf. apply Hall. exact Hf. }
  cbn [Background.parseLines].
  rewrite split_join; [|exact Hne|intros f Hf; apply Hall; exact Hf].
  unfold isPopulatedPlace.
  destruct (truthy (trim (Text.join (String Text.tab EmptyString) row))) eqn:Et;
    simpl.
  - destruct (Nat.ltb_spec (List.length row) 15); [lia|].
    destruct (String.eqb (Background.field row 6) "P"); reflexivity.
  - destruct (String.eqb_spec (Background.field row 6) "P") as [EP|];
      [|reflexivity].
    exfalso.
    assert (Hb : blank (Text.join (String Text.tab EmptyString) row) = true).
    { apply trim_empty_iff.
      destruct (trim (Text.join (String Text.tab EmptyString) row));
        [reflexivity|discriminate]. }
    assert (Hf : In (Background.field row 6) row) by (apply nth_In; lia).
    pose proof (join_blank _ _ _ Hb Hf) as H6. rewrite EP in H6.
    discriminate.
Qed.

(** X19.  Reading back a dump: for rows of at least 15 fields that hold
    no TAB and no line feed, the places parsed from the text of the dump
    are, in order, the places of the rows whose feature class is [P]. *)
Theorem parseGeoNamesData_dump (rows : list (list string)) (code : string) :
  (forall row, In row rows -> wellFormedRow row) ->
  Background.parseGeoNamesData (dumpText rows) code
  = List.map Background.placeOfFields (filter isPopulatedPlace rows).
Proof.
  unfold dumpText.
  induction rows as [|row rows IH]; intros Hall; [reflexivity|].
  destruct rows as [|row' rows].
  - simpl. rewrite parse_row; [|apply Hall; left; reflexivity].
    destruct (isPopulatedPlace row); reflexivity.
  - change (Text.join (String Text.lineFeed EmptyString)
              (List.map (Text.join (String Text.tab EmptyString))
                 (row :: row' :: rows)))
      with (Text.join (String Text.tab EmptyString) row
            ++ String Text.lineFeed
                 (Text.join (String Text.lineFeed EmptyString)
                    (List.map (Text.join (String Text.tab EmptyString))
                       (row' :: rows))))%string.
    rewrite parseGeoNamesData_app, IH;
      [|intros r Hr; apply Hall; right; exact Hr].
    rewrite parse_row; [|apply Hall; left; reflexivity].
    cbn [filter]. destruct (isPopulatedPlace row); reflexivity.
Qed.

Lemma parseGeoNamesData_dump_witness :
  (forall row, In row [rhoneRow; lyonRow] -> wellFormedRow row)
  /\ Background.parseGeoNamesData (dumpText [rhoneRow; lyonRow]) "FR"
     = List.map Background.placeOfFields
         (filter isPopulatedPlace [rhoneRow; lyonRow]).
Proof.
  assert (H : forall row, In row [rhoneRow; lyonRow] -> wellFormedRow row).
  { intros row [<-|[<-|[]]]; (split; [simpl; lia|]);
      intros f Hf; simpl in Hf;
      repeat (destruct Hf as [<-|Hf]; [split; reflexivity|]);
      contradiction. }
  split; [exact H|].
  apply (parseGeoNamesData_dump [rhoneRow; lyonRow] "FR" H).
Defined.

(* ================================================================== *)
(** * Reading a stored ZIP archive *)

Lemma to_N_byteOf (n : N) : Byte.to_N (byteOf n) = (n mod 256)%N.
Proof.
  unfold byteOf. destruct (Byte.of_N (n mod 256)) as [b|] eqn:E.
  - apply Byte.to_of_N. exact E.
  - apply Byte.of_N_None_iff in E.
    pose proof (N.mod_lt n 256). lia.
Qed.

Lemma littleEndian_bytes (w : nat) (v : N) :
  Zip.littleEndian (littleEndianBytes w v) = (v mod 256 ^ N.of_nat w)%N.
Proof.
  revert v. induction w as [|w IH]; intros v.
  - simpl. rewrite N.mod_1_r. reflexivity.
  - cbn [littleEndianBytes Zip.littleEndian].
    rewrite to_N_byteOf, IH, Nat2N.inj_succ, N.pow_succ_r'.
    symmetry. apply N.Div0.mod_mul_r.
Qed.

Lemma length_littleEndianBytes (w : nat) (v : N) :
  List.length (littleEndianBytes w v) = w.
Proof.
  revert v. induction w as [|w IH]; intros v; simpl; [reflexivity|].
  rewrite IH. reflexivity.
Qed.

Lemma length_fieldBytes (fields : list (nat * N)) :
  List.length (fieldBytes fields) = widths fields.
Proof.
  unfold fieldBytes, widths.
  induction fields as [|f fields IH]; simpl; [reflexivity|].
  rewrite length_app, length_littleEndianBytes, IH. reflexivity.
Qed.

Lemma uint8Array_inside (pre bytes post : list Byte.byte) :
  Zip.uint8Array (pre ++ bytes ++ post) (List.length pre) (List.length bytes)
  = Some bytes.
Proof.
  unfold Zip.uint8Array.
  rewrite !length_app.
  destruct (Nat.leb_spec (List.length pre + List.length bytes)
              (List.length pre + (List.length bytes + List.length post)));
    [|lia].
  f_equal. rewrite skipn_app, Nat.sub_diag, skipn_all2 by lia. simpl.
  rewrite firstn_app, Nat.sub_diag, firstn_all2 by lia. simpl.
  apply app_nil_r.
Qed.

(** Reading back a field of a header that stands at offset [length p] of
    the buffer. *)
Lemma getUint_field (view p tail : list Byte.byte) (fields pre post : list (nat * N))
    (w k : nat) (v : N) :
  view = p ++ fieldBytes fields ++ tail ->
  fields = pre ++ (w, v) :: post ->
  k = widths pre ->
  (v < 256 ^ N.of_nat w)%N ->
  Zip.getUint w view (List.length p + k) = Some v.
Proof.
  intros -> -> -> Hv. unfold Zip.getUint, fieldBytes.
  rewrite flat_map_app. cbn [flat_map fst snd].
  fold (fieldBytes pre). fold (fieldBytes post).
  replace (p ++ (fieldBytes pre ++ littleEndianBytes w v ++ fieldBytes post)
             ++ tail)
    with ((p ++ fieldBytes pre)
          ++ littleEndianBytes w v ++ (fieldBytes post ++ tail))
    by (rewrite <- !app_assoc; reflexivity).
  pose proof (uint8Array_inside (p ++ fieldBytes pre)
                (littleEndianBytes w v) (fieldBytes post ++ tail)) as H.
  rewrite length_app, length_fieldBytes, length_littleEndianBytes in H.
  rewrite H. simpl. rewrite littleEndian_bytes, N.mod_small by exact Hv.
  reflexivity.
Qed.

Lemma getUint_field0 (view p tail : list Byte.byte) (fields post : list (nat * N))
    (w : nat) (v : N) :
  view = p ++ fieldBytes fields ++ tail ->
  fields = (w, v) :: post ->
  (v < 256 ^ N.of_nat w)%N ->
  Zip.getUint w view (List.length p) = Some v.
Proof.
  intros Hview Hf Hv.
  rewrite <- (Nat.add_0_r (List.length p)).
  apply (getUint_field view p tail fields [] post w 0 v); auto.
Qed.

Lemma scanBack_unfold (view : Zip.ArrayBuffer) (i : nat) :
  Zip.scanBack view i
  = Zip.reading (Zip.getUint32 view i)
      (fun signature =>
         if (signature =? 0x06054b50)%N then inr (Some i)
         else match i with
              | 0 => inr None
              | S i' => Zip.scanBack view i'
              end).
Proof. destruct i; reflexivity. Qed.

Lemma length_centralRecord (offset : nat) (f : StoredFile) :
  List.length (centralRecord offset f) = 46 + List.length (fileName f).
Proof.
  unfold centralRecord. rewrite length_app, length_fieldBytes. reflexivity.
Qed.

Lemma length_localRecord (f : StoredFile) :
  List.length (localRecord f)
  = 30 + List.length (fileName f) + List.length (content f).
Proof.
  unfold localRecord. rewrite !length_app, length_fieldBytes. simpl. lia.
Qed.

Lemma length_endRecord (files : list StoredFile) :
  List.length (endRecord files) = 22.
Proof. unfold endRecord. rewrite length_fieldBytes. reflexivity. Qed.

(** The walk through the central directory finds the first file whose
    decoded name is the target. *)
Lemma findTarget_found (decode : list Byte.byte -> string) (target : string)
    (f : StoredFile) (after : list StoredFile) (tail : list Byte.byte) :
  decode (fileName f) = target ->
  (N.of_nat (List.length (fileName f)) < 65536)%N ->
  forall (before : list StoredFile) (p : list Byte.byte) (offset : nat),
    (forall g, In g before ->
       decode (fileName g) <> target
       /\ (N.of_nat (List.length (fileName g)) < 65536)%N) ->
    (N.of_nat (List.length (content f)) < 4294967296)%N ->
    (N.of_nat (offset + List.length (localRecords before)) < 4294967296)%N ->
    Zip.findTarget decode
      (p ++ centralDirectory offset (before ++ f :: after) ++ tail) target
      (List.length before + S (List.length after)) (List.length p)
    = inr (Some (Zip.mkEntry 0
                   (N.of_nat (List.length (content f)))
                   (N.of_nat (List.length (content f)))
                   (N.of_nat (offset + List.length (localRecords before))))).
Proof.
  intros Hname Hlen before.
  induction before as [|g before IH]; intros p offset Hbefore Hsize Hoff.
  - cbn [app List.length Nat.add centralDirectory Zip.findTarget].
    set (view := p ++ (centralRecord offset f
                       ++ centralDirectory (offset + List.length (localRecord f))
                            after) ++ tail).
    set (rest := centralDirectory (offset + List.length (localRecord f)) after
                 ++ tail).
    assert (Hview : view = p ++ fieldBytes (centralHeader offset f)
                             ++ (fileName f ++ rest)).
    { unfold view, rest, centralRecord. rewrite <- !app_assoc. reflexivity. }
    simpl in Hoff. rewrite Nat.add_0_r in Hoff.
    unfold Zip.getUint32, Zip.getUint16.
    rewrite (getUint_field0 view p (fileName f ++ rest)
               (centralHeader offset f) _ 4 _ Hview eq_refl)
      by (simpl; lia).
    cbn [Zip.reading N.eqb Pos.eqb negb].
    erewrite (getUint_field view p (fileName f ++ rest)
               (centralHeader offset f)
               (firstn 10 (centralHeader offset f)) _ 2 28 _ Hview eq_refl
               eq_refl) by (simpl; lia).
    erewrite (getUint_field view p (fileName f ++ rest)
               (centralHeader offset f)
               (firstn 11 (centralHeader offset f)) _ 2 30 _ Hview eq_refl
               eq_refl) by (simpl; lia).
    erewrite (getUint_field view p (fileName f ++ rest)
               (centralHeader offset f)
               (firstn 12 (centralHeader offset f)) _ 2 32 _ Hview eq_refl
               eq_refl) by (simpl; lia).
    cbn [Zip.reading].
    rewrite Nat2N.id.
    assert (Hbytes : Zip.uint8Array view (List.length p + 46)
                       (List.length (fileName f)) = Some (fileName f)).
    { rewrite Hview.
      replace (p ++ fieldBytes (centralHeader offset f) ++ fileName f ++ rest)
        with ((p ++ fieldBytes (centralHeader offset f))
              ++ fileName f ++ rest)
        by (rewrite <- !app_assoc; reflexivity).
      pose proof (uint8Array_inside (p ++ fieldBytes (centralHeader offset f))
                    (fileName f) rest) as H.
      rewrite length_app, length_fieldBytes in H. exact H. }
    rewrite Hbytes. cbn [Zip.reading].
    rewrite Hname, String.eqb_refl.
    erewrite (getUint_field view p (fileName f ++ rest)
               (centralHeader offset f)
               (firstn 4 (centralHeader offset f)) _ 2 10 _ Hview eq_refl
               eq_refl) by (simpl; lia).
    erewrite (getUint_field view p (fileName f ++ rest)
               (centralHeader offset f)
               (firstn 8 (centralHeader offset f)) _ 4 20 _ Hview eq_refl
               eq_refl) by (simpl; lia).
    erewrite (getUint_field view p (fileName f ++ rest)
               (centralHeader offset f)
               (firstn 9 (centralHeader offset f)) _ 4 24 _ Hview eq_refl
               eq_refl) by (simpl; lia).
    erewrite (getUint_field view p (fileName f ++ rest)
               (centralHeader offset f)
               (firstn 16 (centralHeader offset f)) _ 4 42 _ Hview eq_refl
               eq_refl) by (simpl; lia).
    cbn [Zip.reading]. simpl List.length. rewrite Nat.add_0_r. reflexivity.
  - destruct (Hbefore g (or_introl eq_refl)) as [Hg Hglen].
    cbn [app List.length Nat.add centralDirectory Zip.findTarget].
    set (view := p ++ (centralRecord offset g
                       ++ centralDirectory (offset + List.length (localRecord g))
                            (before ++ f :: after)) ++ tail).
    set (rest := centralDirectory (offset + List.length (localRecord g))
                   (before ++ f :: after) ++ tail).
    assert (Hview : view = p ++ fieldBytes (centralHeader offset g)
                             ++ (fileName g ++ rest)).
    { unfold view, rest, centralRecord. rewrite <- !app_assoc. reflexivity. }
    unfold Zip.getUint32, Zip.getUint16.
    rewrite (getUint_field0 view p (fileName g ++ rest)
               (centralHeader offset g) _ 4 _ Hview eq_refl)
      by (simpl; lia).
    cbn [Zip.reading N.eqb Pos.eqb negb].
    erewrite (getUint_field view p (fileName g ++ rest)
               (centralHeader offset g)
               (firstn 10 (centralHeader offset g)) _ 2 28 _ Hview eq_refl
               eq_refl) by (simpl; lia).
    erewrite (getUint_field view p (fileName g ++ rest)
               (centralHeader offset g)
               (firstn 11 (centralHeader offset g)) _ 2 30 _ Hview eq_refl
               eq_refl) by (simpl; lia).
    erewrite (getUint_field view p (fileName g ++ rest)
               (centralHeader offset g)
               (firstn 12 (centralHeader offset g)) _ 2 32 _ Hview eq_refl
               eq_refl) by (simpl; lia).
    cbn [Zip.reading].
    rewrite Nat2N.id.
    assert (Hbytes : Zip.uint8Array view (List.length p + 46)
                       (List.length (fileName g)) = Some (fileName g)).
    { rewrite Hview.
      replace (p ++ fieldBytes (centralHeader offset g) ++ fileName g ++ rest)
        with ((p ++ fieldBytes (centralHeader offset g))
              ++ fileName g ++ rest)
        by (rewrite <- !app_assoc; reflexivity).
      pose proof (uint8Array_inside (p ++ fieldBytes (centralHeader offset g))
                    (fileName g) rest) as H.
      rewrite length_app, length_fieldBytes in H. exact H. }
    rewrite Hbytes. cbn [Zip.reading].
    apply String.eqb_neq in Hg. rewrite Hg.
    change (N.to_nat 0) with 0. rewrite !Nat.add_0_r.
    replace (List.length p + 46 + List.length (fileName g))
      with (List.length (p ++ centralRecord offset g))
      by (rewrite length_app, length_centralRecord; lia).
    replace view
      with ((p ++ centralRecord offset g)
            ++ centralDirectory (offset + List.length (localRecord g))
                 (before ++ f :: after) ++ tail)
      by (unfold view; rewrite <- !app_assoc; reflexivity).
    rewrite IH.
    + cbn [localRecords flat_map]. fold (localRecords before).
      rewrite length_app, Nat.add_assoc. reflexivity.
    + intros h Hh. apply Hbefore. right. exact Hh.
    + exact Hsize.
    + cbn [localRecords flat_map] in Hoff. fold (localRecords before) in Hoff.
      rewrite length_app, Nat.add_assoc in Hoff. exact Hoff.
Qed.

Lemma length_localRecords_app (before after : list StoredFile) :
  localRecords (before ++ after) = localRecords before ++ localRecords after.
Proof. apply flat_map_app. Qed.

(** X20.  Reading back a ZIP archive written without compression: when the
    counts, lengths and offsets fit their fields, [unzipCountryFile] returns
    the decoded content of the first file whose decoded name is
    [<code>.txt], whatever the other files, checksums and time stamps
    are. *)
Theorem unzipCountryFile_stored
    (decode : list Byte.byte -> string)
    (inflate : list Byte.byte -> option string)
    (before after : list StoredFile) (f : StoredFile) (code : string) :
  fitsArchive (before ++ f :: after) ->
  (forall g, In g before -> decode (fileName g) <> (code ++ ".txt")%string) ->
  decode (fileName f) = (code ++ ".txt")%string ->
  Zip.unzipCountryFile decode inflate (storedArchive (before ++ f :: after))
    code
  = inr (decode (content f)).
Proof.
  intros [Hcount [Hnames Hsize]] Hbefore Hf.
  set (files := before ++ f :: after) in *.
  set (records := localRecords files).
  set (directory := centralDirectory 0 files).
  assert (Hrecords : records
                     = localRecords before ++ localRecord f ++ localRecords after).
  { unfold records, files. rewrite length_localRecords_app. reflexivity. }
  assert (Hlength : List.length (storedArchive files)
                    = List.length records + List.length directory + 22).
  { unfold storedArchive. rewrite !length_app, length_endRecord.
    fold records. fold directory. lia. }
  assert (Hviews : storedArchive files
                   = (records ++ directory)
                     ++ fieldBytes
                          [ (4, 0x06054b50%N); (2, 0%N); (2, 0%N);
                            (2, N.of_nat (List.length files));
                            (2, N.of_nat (List.length files));
                            (4, N.of_nat (List.length directory));
                            (4, N.of_nat (List.length records)); (2, 0%N) ]
                     ++ []).
  { unfold storedArchive, endRecord. fold records. fold directory.
    rewrite app_nil_r, <- app_assoc. reflexivity. }
  assert (Hdirsize : (N.of_nat (List.length directory) < 4294967296)%N)
    by lia.
  assert (Hrecsize : (N.of_nat (List.length records) < 4294967296)%N) by lia.
  assert (Hlocal : List.length (localRecord f) <= List.length records).
  { rewrite Hrecords, !length_app. lia. }
  assert (Hbeforesize : List.length (localRecords before)
                        <= List.length records).
  { rewrite Hrecords, !length_app. lia. }
  pose proof (length_localRecord f) as Hflen.
  unfold Zip.unzipCountryFile, Zip.findEndOfCentralDirectory.
  rewrite Hlength.
  destruct (Nat.ltb_spec (List.length records + List.length directory + 22) 22);
    [lia|].
  replace (List.length records + List.length directory + 22 - 22)
    with (List.length (records ++ directory))
    by (rewrite length_app; lia).
  rewrite scanBack_unfold. unfold Zip.getUint32, Zip.getUint16.
  rewrite (getUint_field0 _ _ _ _ _ 4 _ Hviews eq_refl) by (simpl; lia).
  cbn [Zip.reading N.eqb Pos.eqb].
  erewrite (getUint_field _ _ _ _
              (firstn 4 [ (4, 0x06054b50%N); (2, 0%N); (2, 0%N);
                          (2, N.of_nat (List.length files));
                          (2, N.of_nat (List.length files));
                          (4, N.of_nat (List.length directory));
                          (4, N.of_nat (List.length records)); (2, 0%N) ])
              _ 2 10 _ Hviews eq_refl eq_refl) by (simpl; lia).
  erewrite (getUint_field _ _ _ _
              (firstn 6 [ (4, 0x06054b50%N); (2, 0%N); (2, 0%N);
                          (2, N.of_nat (List.length files));
                          (2, N.of_nat (List.length files));
                          (4, N.of_nat (List.length directory));
                          (4, N.of_nat (List.length records)); (2, 0%N) ])
              _ 4 16 _ Hviews eq_refl eq_refl) by (simpl; lia).
  cbn [Zip.reading]. rewrite !Nat2N.id.
  replace (List.length files)
    with (List.length before + S (List.length after))
    by (unfold files; rewrite length_app; reflexivity).
  unfold storedArchive. fold records. fold directory. unfold directory, files.
  rewrite (findTarget_found decode ((code ++ ".txt")%string) f after
             (endRecord (before ++ f :: after)) Hf).
  2:{ apply Hnames. unfold files. apply in_or_app. right. left. reflexivity. }
  2:{ intros g Hg. split; [apply Hbefore; exact Hg|].
      apply Hnames. unfold files. apply in_or_app. left. exact Hg. }
  2:{ lia. }
  2:{ simpl. lia. }
  cbn [Zip.localHeaderOffset Zip.compressedSize Zip.compressionMethod
       Nat.add].
  rewrite !Nat2N.id.
  set (rest := content f
               ++ localRecords after
               ++ centralDirectory 0 (before ++ f :: after)
               ++ endRecord (before ++ f :: after)).
  assert (Hview : records
                  ++ centralDirectory 0 (before ++ f :: after)
                  ++ endRecord (before ++ f :: after)
                  = localRecords before
                    ++ fieldBytes (localHeader f) ++ (fileName f ++ rest)).
  { rewrite Hrecords. unfold localRecord, rest. rewrite <- !app_assoc.
    reflexivity. }
  rewrite (getUint_field0 _ _ _ _ _ 4 _ Hview eq_refl) by (simpl; lia).
  cbn [Zip.reading N.eqb Pos.eqb negb].
  erewrite (getUint_field _ _ _ _ (firstn 9 (localHeader f))
              _ 2 26 _ Hview eq_refl eq_refl).
  2:{ simpl. apply Hnames. unfold files. apply in_or_app. right. left.
      reflexivity. }
  erewrite (getUint_field _ _ _ _ (firstn 10 (localHeader f))
              _ 2 28 _ Hview eq_refl eq_refl) by (simpl; lia).
  cbn [Zip.reading]. rewrite Nat2N.id.
  change (N.to_nat 0) with 0. rewrite Nat.add_0_r.
  assert (Hdata : Zip.uint8Array
                    (records
                     ++ centralDirectory 0 (before ++ f :: after)
                     ++ endRecord (before ++ f :: after))
                    (List.length (localRecords before) + 30
                     + List.length (fileName f))
                    (List.length (content f))
                  = Some (content f)).
  { rewrite Hview. unfold rest.
    replace (localRecords before
             ++ fieldBytes (localHeader f)
             ++ fileName f
             ++ content f
             ++ localRecords after
             ++ centralDirectory 0 (before ++ f :: after)
             ++ endRecord (before ++ f :: after))
      with ((localRecords before ++ fieldBytes (localHeader f) ++ fileName f)
            ++ content f
            ++ (localRecords after
                ++ centralDirectory 0 (before ++ f :: after)
                ++ endRecord (before ++ f :: after)))
      by (rewrite <- !app_assoc; reflexivity).
    pose proof (uint8Array_inside
                  (localRecords before ++ fieldBytes (localHeader f)
                   ++ fileName f)
                  (content f)
                  (localRecords after
                   ++ centralDirectory 0 (before ++ f :: after)
                   ++ endRecord (before ++ f :: after))) as H0.
    rewrite !length_app, length_fieldBytes in H0.
    change (widths (localHeader f)) with 30 in H0.
    rewrite Nat.add_assoc in H0. exact H0. }
  rewrite Hdata. reflexivity.
Qed.

Lemma unzipCountryFile_stored_witness :
  fitsArchive ([asciiFile "readme.txt" "GeoNames"]
               ++ asciiFile "FR.txt" (dumpText [lyonRow]) :: [])
  /\ (forall g, In g [asciiFile "readme.txt" "GeoNames"] ->
        string_of_list_byte (fileName g) <> ("FR" ++ ".txt")%string)
  /\ string_of_list_byte (fileName (asciiFile "FR.txt" (dumpText [lyonRow])))
     = ("FR" ++ ".txt")%string
  /\ Zip.unzipCountryFile string_of_list_byte (fun _ => None)
       (storedArchive ([asciiFile "readme.txt" "GeoNames"]
                       ++ asciiFile "FR.txt" (dumpText [lyonRow]) :: []))
       "FR"
     = inr (string_of_list_byte
              (content (asciiFile "FR.txt" (dumpText [lyonRow])))).
Proof.
  assert (Hfits : fitsArchive ([asciiFile "readme.txt" "GeoNames"]
                               ++ asciiFile "FR.txt" (dumpText [lyonRow]) :: [])).
  { split; [reflexivity|]. split; [|reflexivity].
    intros g [<-|[<-|[]]]; reflexivity. }
  assert (Hbefore : forall g, In g [asciiFile "readme.txt" "GeoNames"] ->
            string_of_list_byte (fileName g) <> ("FR" ++ ".txt")%string).
  { intros g [<-|[]]. discriminate. }
  split; [exact Hfits|]. split; [exact Hbefore|]. split; [reflexivity|].
  apply (unzipCountryFile_stored string_of_list_byte (fun _ => None)
           [asciiFile "readme.txt" "GeoNames"] []
           (asciiFile "FR.txt" (dumpText [lyonRow])) "FR" Hfits Hbefore).
  reflexivity.
Defined.

(* ================================================================== *)
(** * The searches of the store wrapper *)

Lemma toUpper_toLower (c : ascii) : toUpper (toLower c) = toUpper c.
Proof.
  destruct (isUpper c) eqn:Eu.
  - pose proof (toLower_upper_code c Eu) as Hcode.
    pose proof (proj1 (inRange_bounds 65 90 c) Eu) as Hrange.
    assert (Hl : isLower (toLower c) = true)
      by (apply inRange_bounds; lia).
    assert (Hc : isLower c = false) by (apply inRange_false; lia).
    unfold toUpper. rewrite Hl, Hc, Hcode.
    replace (Chars.code c + 32 - 32) with (Chars.code c) by lia.
    apply ascii_nat_embedding.
  - unfold toLower. rewrite Eu. reflexivity.
Qed.

Lemma toUpperCase_toLowerCase (s : string) :
  toUpperCase (toLowerCase s) = toUpperCase s.
Proof.
  unfold toUpperCase, toLowerCase.
  induction s as [|c s IH]; simpl; [reflexivity|].
  rewrite toUpper_toLower, IH. reflexivity.
Qed.

Lemma toUpper_idempotent (c : ascii) : toUpper (toUpper c) = toUpper c.
Proof.
  destruct (isLower c) eqn:El.
  - pose proof (proj1 (inRange_bounds 97 122 c) El) as Hrange.
    assert (toUpper c = ascii_of_nat (Chars.code c - 32)) as ->
      by (unfold toUpper; rewrite El; reflexivity).
    assert (isLower (ascii_of_nat (Chars.code c - 32)) = false) as Hup.
    { apply inRange_false. rewrite code_ascii_of_nat by lia. lia. }
    unfold toUpper. rewrite Hup. reflexivity.
  - assert (toUpper c = c) as -> by (unfold toUpper; rewrite El; reflexivity).
    unfold toUpper. rewrite El. reflexivity.
Qed.

Lemma toUpperCase_idempotent (s : string) :
  toUpperCase (toUpperCase s) = toUpperCase s.
Proof.
  unfold toUpperCase. induction s as [|c s IH]; simpl; [reflexivity|].
  rewrite toUpper_idempotent, IH. reflexivity.
Qed.

Lemma filter_keysAscending (p : DB.City -> bool) (s : list DB.City) :
  keysAscending s -> keysAscending (filter p s).
Proof.
  unfold keysAscending.
  induction 1 as [|a l Hs IH Hall]; simpl; [constructor|].
  destruct (p a); [|exact IH].
  constructor; [exact IH|].
  rewrite Forall_forall in *. intros b Hb. apply Hall.
  apply filter_In in Hb. tauto.
Qed.

Lemma toUpperCase_caseInsensitive (a b : string) :
  caseInsensitiveEq a b -> toUpperCase a = toUpperCase b.
Proof.
  unfold caseInsensitiveEq. intros H.
  rewrite <- (toUpperCase_toLowerCase a), <- (toUpperCase_toLowerCase b), H.
  reflexivity.
Qed.

(** X21.  For ASCII country codes [searchByCountry] ignores the case of
    the code: two codes that agree up to case get the same answer, which
    lists exactly the bundled records whose country field is the code in
    upper case, so that a record filed under a code with a lower-case
    letter is never found. *)
Theorem searchByCountry_ignores_case (db : DB.GeoNamesDB) (a b : string) :
  isAscii a = true ->
  isAscii b = true ->
  caseInsensitiveEq a b ->
  DB.searchByCountry db a = DB.searchByCountry db b
  /\ (forall found,
        DB.searchByCountry db a = Resolved found ->
        (forall r, In r found <->
                   In r (DB.cities db) /\ DB.country r = toUpperCase b)
        /\ (forall r, In r found -> toUpperCase (DB.country r) = DB.country r)).
Proof.
  intros _ _ H. apply toUpperCase_caseInsensitive in H.
  unfold DB.searchByCountry. rewrite H. split; [reflexivity|].
  destruct (negb (DB.isReady db)); [discriminate|].
  intros found [= <-]. split.
  - intros r. apply indexGetAll_In.
  - intros r Hr. apply indexGetAll_In in Hr. destruct Hr as [_ ->].
    apply toUpperCase_idempotent.
Qed.

Lemma searchByCountry_ignores_case_witness :
  isAscii "jp" = true
  /\ isAscii "Jp" = true
  /\ caseInsensitiveEq "jp" "Jp"
  /\ DB.searchByCountry overlapStore "jp" = Resolved [tokyoJP]
  /\ DB.searchByCountry overlapStore "jp" = DB.searchByCountry overlapStore "Jp".
Proof.
  split; [reflexivity|]. split; [reflexivity|]. split; [reflexivity|].
  split; [reflexivity|].
  exact (proj1 (searchByCountry_ignores_case overlapStore "jp" "Jp"
                  eq_refl eq_refl eq_refl)).
Defined.

(** X22.  In every store that the wrapper's operations build, the three
    index searches answer in ascending id order and never list an id
    twice. *)
Theorem searches_in_key_order (db : DB.GeoNamesDB) (query : string)
    (found : list DB.City) :
  reachable db ->
  DB.searchByName db query = Resolved found
  \/ DB.searchCountryData db query = Resolved found
  \/ DB.searchByCountry db query = Resolved found ->
  keysAscending found /\ uniqueIds found.
Proof.
  intros Hreach Hfound.
  destruct (reachable_keysAscending db Hreach) as [Hc Hd].
  assert (Hsorted : keysAscending found).
  { unfold DB.searchByName, DB.searchCountryData, DB.searchByCountry,
      ObjectStore.indexGetAll in Hfound.
    destruct (negb (DB.isReady db));
      [destruct Hfound as [H|[H|H]]; discriminate|].
    destruct Hfound as [H|[H|H]]; injection H as <-;
      apply filter_keysAscending; assumption. }
  split; [exact Hsorted|]. apply keysAscending_NoDup. exact Hsorted.
Qed.

Lemma searches_in_key_order_witness :
  reachable usFirstStore
  /\ (DB.searchByName usFirstStore "paris" = Resolved [parisFR; parisTX]
      \/ DB.searchCountryData usFirstStore "paris" = Resolved [parisFR; parisTX]
      \/ DB.searchByCountry usFirstStore "paris" = Resolved [parisFR; parisTX])
  /\ keysAscending [parisFR; parisTX] /\ uniqueIds [parisFR; parisTX].
Proof.
  assert (Hr : reachable usFirstStore).
  { unfold usFirstStore, loadedStore. repeat constructor. }
  assert (Hf : DB.searchByName usFirstStore "paris" = Resolved [parisFR; parisTX]
               \/ DB.searchCountryData usFirstStore "paris"
                  = Resolved [parisFR; parisTX]
               \/ DB.searchByCountry usFirstStore "paris"
                  = Resolved [parisFR; parisTX]).
  { right. left. reflexivity. }
  split; [exact Hr|]. split; [exact Hf|].
  apply (searches_in_key_order usFirstStore "paris" [parisFR; parisTX] Hr Hf).
Defined.

(* ================================================================== *)
(** * Countries named in the text *)

Lemma matcher_literalThen (text name : string) (k : RegExp.regex)
    (x : RegExp.MatchState) (c : RegExp.Continuation) :
  RegExp.matcher text (Inference.literalThen name k) x c
  = if agreesAt name text (RegExp.endIndex x)
    then RegExp.matcher text k
           (RegExp.mkState (RegExp.endIndex x + String.length name)
              (RegExp.captures x)) c
    else None.
Proof.
  revert x. induction name as [|a name IH]; intros x.
  - cbn [Inference.literalThen agreesAt String.length].
    rewrite Nat.add_0_r. destruct x; reflexivity.
  - cbn [Inference.literalThen agreesAt String.length RegExp.matcher].
    destruct (String.get (RegExp.endIndex x) text) as [ch|]; [|reflexivity].
    destruct (Inference.sameLetter a ch); [|reflexivity].
    rewrite IH. cbn [RegExp.endIndex RegExp.captures andb].
    rewrite Nat.add_succ_r. reflexivity.
Qed.

Lemma matcher_namePattern (text name : string) (i : nat) :
  RegExp.matcher text (Inference.namePattern name) (RegExp.mkState i [])
    (fun y => Some y)
  = if mentionedAt name text i
    then Some (RegExp.mkState (i + String.length name) [])
    else None.
Proof.
  unfold Inference.namePattern, mentionedAt.
  cbn [RegExp.matcher RegExp.endIndex].
  destruct (RegExp.atWordBoundary text i); [|reflexivity].
  rewrite matcher_literalThen. cbn [RegExp.endIndex RegExp.captures andb].
  destruct (agreesAt name text i); [|reflexivity].
  cbn [RegExp.matcher RegExp.endIndex andb].
  destruct (RegExp.atWordBoundary text (i + String.length name)); reflexivity.
Qed.

Lemma execFrom_none (r : RegExp.regex) (text : string) (tries i : nat) :
  RegExp.execFrom r text tries i = None
  <-> forall j, i <= j < i + tries ->
        RegExp.matcher text r (RegExp.mkState j []) (fun y => Some y) = None.
Proof.
  revert i. induction tries as [|tries IH]; intros i; simpl.
  - split; [intros _ j Hj; lia|reflexivity].
  - destruct (RegExp.matcher text r (RegExp.mkState i []) (fun y => Some y))
      as [y|] eqn:E.
    + split; [discriminate|]. intros H.
      rewrite (H i) in E by lia. discriminate.
    + rewrite IH. split.
      * intros H j Hj. destruct (Nat.eq_dec j i) as [->|]; [exact E|].
        apply H. lia.
      * intros H j Hj. apply H. lia.
Qed.

Lemma execFrom_some (r : RegExp.regex) (text : string) (tries i : nat)
    (m : RegExp.MatchResult) :
  RegExp.execFrom r text tries i = Some m ->
  i <= RegExp.index m < i + tries
  /\ RegExp.matcher text r (RegExp.mkState (RegExp.index m) [])
       (fun y => Some y) <> None.
Proof.
  revert i. induction tries as [|tries IH]; intros i; cbn [RegExp.execFrom];
    [discriminate|].
  destruct (RegExp.matcher text r (RegExp.mkState i []) (fun y => Some y))
    as [y|] eqn:E.
  - intros H. injection H as <-. cbn [RegExp.index]. rewrite E.
    split; [lia|discriminate].
  - intros H. destruct (IH _ H) as [Hi Hm]. split; [lia|exact Hm].
Qed.

Lemma test_namePattern (text name : string) :
  Inference.test (Inference.namePattern name) text = true
  <-> exists i, i <= String.length text /\ mentionedAt name text i = true.
Proof.
  unfold Inference.test, RegExp.exec. rewrite Nat.sub_0_r.
  destruct (RegExp.execFrom (Inference.namePattern name) text
              (S (String.length text)) 0) as [m|] eqn:E.
  - split; [intros _|reflexivity].
    destruct (execFrom_some _ _ _ _ _ E) as [Hi Hm].
    exists (RegExp.index m). split; [lia|].
    rewrite matcher_namePattern in Hm.
    destruct (mentionedAt name text (RegExp.index m)); [reflexivity|].
    contradiction.
  - split; [discriminate|]. intros [i [Hi Hm]].
    apply (proj1 (execFrom_none _ _ _ _)) with (j := i) in E; [|lia].
    rewrite matcher_namePattern, Hm in E. discriminate.
Qed.

Lemma collectNamed_spec (entries : list (string * string)) (text : string)
    (detected : list string) :
  NoDup detected ->
  NoDup (Inference.collectNamed entries text detected)
  /\ forall code,
       In code (Inference.collectNamed entries text detected)
       <-> In code detected
           \/ exists name,
                In (code, name) entries
                /\ Inference.test (Inference.namePattern name) text = true.
Proof.
  revert detected.
  induction entries as [|[code0 name0] entries IH]; intros detected Hnd.
  - simpl. split; [exact Hnd|]. intros code. split; [auto|].
    intros [H|[name [[] _]]]. exact H.
  - cbn [Inference.collectNamed].
    destruct (Inference.test (Inference.namePattern name0) text) eqn:Et.
    + destruct (mem code0 detected) eqn:Em.
      * destruct (IH detected Hnd) as [H1 H2]. split; [exact H1|].
        intros code. rewrite H2. split.
        -- intros [H|[name [Hin Hn]]]; [auto|].
           right. exists name. split; [right; exact Hin|exact Hn].
        -- intros [H|[name [[Heq|Hin] Hn]]]; [auto| |eauto].
           injection Heq as <- <-. left. apply mem_In. exact Em.
      * assert (Hnd' : NoDup (detected ++ [code0])).
        { apply NoDup_app; [exact Hnd|repeat constructor; intros []|].
          intros x Hx [<-|[]].
          apply (mem_false_not_In _ _ Em). exact Hx. }
        destruct (IH _ Hnd') as [H1 H2]. split; [exact H1|].
        intros code. rewrite H2, in_app_iff. simpl. split.
        -- intros [[H|[<-|[]]]|[name [Hin Hn]]]; [auto| |].
           ++ right. exists name0. split; [left; reflexivity|exact Et].
           ++ right. exists name. split; [right; exact Hin|exact Hn].
        -- intros [H|[name [[Heq|Hin] Hn]]]; [auto| |eauto].
           injection Heq as <- <-. auto.
    + destruct (IH detected Hnd) as [H1 H2]. split; [exact H1|].
      intros code. rewrite H2. split.
      * intros [H|[name [Hin Hn]]]; [auto|].
        right. exists name. split; [right; exact Hin|exact Hn].
      * intros [H|[name [[Heq|Hin] Hn]]]; [auto| |eauto].
        injection Heq as <- <-. congruence.
Qed.

Example inferCountries_example :
  Inference.inferCountriesFromContext
    "Flights from new zealand to France, not to Francefort."
  = ["FR"; "NZ"].
Proof. vm_compute. reflexivity. Qed.

(** X23.  [inferCountriesFromContext] returns, in strictly ascending
    order, exactly the codes of the country table one of whose names
    stands somewhere in the text as a whole word, in any case. *)
Theorem inferCountriesFromContext_mentions (text : string) :
  StronglySorted codeUnitLt (Inference.inferCountriesFromContext text)
  /\ forall code,
       In code (Inference.inferCountriesFromContext text)
       <-> exists name i,
             In (code, name) COUNTRY_NAMES
             /\ i <= String.length text
             /\ mentionedAt name text i = true.
Proof.
  unfold Inference.inferCountriesFromContext.
  destruct (collectNamed_spec COUNTRY_NAMES text [] (NoDup_nil _))
    as [Hnd Hin].
  pose proof (sort_Permutation byCodeUnits
                (Inference.collectNamed COUNTRY_NAMES text [])) as Hp.
  split.
  - apply sorted_distinct_strict.
    + apply (sort_StronglySorted byCodeUnits byCodeUnits_total
               byCodeUnits_trans).
    + eapply Permutation_NoDup; eauto.
  - intros code.
    rewrite <- (Permutation_in' (eq_refl code) Hp), Hin. split.
    + intros [[]|[name [Hentry Ht]]].
      apply test_namePattern in Ht. destruct Ht as [i [Hi Hm]].
      exists name, i. auto.
    + intros [name [i [Hentry [Hi Hm]]]]. right. exists name.
      split; [exact Hentry|]. apply test_namePattern. eauto.
Qed.
